(** * The embedded agent run orchestrator

    A shallow embedding of [runEmbeddedPiAgent]
    (src/agents/pi-embedded-runner/run.ts) together with the abort flags and
    the working-directory handling of [runEmbeddedAttempt]
    (src/agents/pi-embedded-runner/run/attempt.ts).

    The orchestrator is stateful TypeScript: closure variables
    ([profileIndex], [thinkLevel], [attemptedThinking], [apiKeyInfo],
    [lastProfileId]), the process working directory and an external
    credential store.  It is embedded by explicit state passing over the
    record [State]; every call that leaves the orchestrator (credential
    lookup, attempt executor, store update) is logged in that state so that
    properties of whole runs can be stated on the logs.  The [while (true)]
    retry loop is embedded as a loop body returning [Continue] or [Stop],
    iterated by a fuel-indexed driver; its termination is a theorem.

    What is embedded is the task that [runEmbeddedPiAgent] enqueues, run on
    its own: the two lanes of the command queue, wall-clock durations and the
    calls of the logger are left out.  Functions that the orchestrator
    imports from files outside the embedded sources are parameters (the
    records [Helpers], [Constants] and [Collaborators]); the few that are
    given a definition say so in their comment. *)

From stdpp Require Import base decidable option list sorting strings pretty gmap finite.
From Stdlib Require Import Lia.

Set Default Proof Using "Type".

(** ** JavaScript conventions used by the source *)

Module Js.

(** A JavaScript string is a sequence of UTF-16 code units.  It is written
    here as a Rocq string: the bytes of its UTF-8 encoding, which is also how
    a literal of this file is read.  Equality, emptiness, concatenation and
    prefixes are the same on the bytes as on the code units; white space and
    the order of strings are not, and are read off the bytes below.  Strings
    are taken to be well formed: no surrogate stands alone. *)

(** Truthiness of a string: every string but the empty one. *)
Definition truthy (s : string) : bool :=
  negb (bool_decide (s = EmptyString)).

(** Truthiness of [string | undefined]. *)
Definition truthy_opt (o : option string) : bool :=
  match o with
  | Some s => truthy s
  | None => false
  end.

(** [a || b] where [a : string | undefined] and [b : string]. *)
Definition or_else (a : option string) (b : string) : string :=
  match a with
  | Some s => if truthy s then s else b
  | None => b
  end.

(** [a ?? b]. *)
Definition nullish {A} (a : option A) (b : A) : A :=
  match a with
  | Some x => x
  | None => b
  end.

(** [a === b] on [string | undefined]. *)
Definition strict_eq (a b : option string) : bool := bool_decide (a = b).

(** The UTF-8 bytes of the code point [cp]. *)
Definition utf8 (cp : N) : string :=
  let byte (n : N) := Ascii.ascii_of_N n in
  if bool_decide (cp < 0x80)%N then String (byte cp) EmptyString
  else if bool_decide (cp < 0x800)%N then
    String (byte (0xC0 + cp / 0x40)%N)
      (String (byte (0x80 + cp mod 0x40)%N) EmptyString)
  else if bool_decide (cp < 0x10000)%N then
    String (byte (0xE0 + cp / 0x1000)%N)
      (String (byte (0x80 + (cp / 0x40) mod 0x40)%N)
         (String (byte (0x80 + cp mod 0x40)%N) EmptyString))
  else
    String (byte (0xF0 + cp / 0x40000)%N)
      (String (byte (0x80 + (cp / 0x1000) mod 0x40)%N)
         (String (byte (0x80 + (cp / 0x40) mod 0x40)%N)
            (String (byte (0x80 + cp mod 0x40)%N) EmptyString))).

(** The white space of ECMAScript, which [String.prototype.trim] strips and
    [\s] matches: the code points of WhiteSpace (tab, vertical tab, form
    feed, the byte order mark U+FEFF and the space separators of Unicode:
    U+0020, U+00A0, U+1680, U+2000 to U+200A, U+202F, U+205F, U+3000) and of
    LineTerminator (line feed, carriage return, U+2028, U+2029). *)
Definition whiteSpace : list N :=
  [ 0x9; 0xA; 0xB; 0xC; 0xD; 0x20; 0xA0; 0x1680;
    0x2000; 0x2001; 0x2002; 0x2003; 0x2004; 0x2005; 0x2006; 0x2007;
    0x2008; 0x2009; 0x200A; 0x2028; 0x2029; 0x202F; 0x205F; 0x3000;
    0xFEFF ]%N.

Definition whiteBytes : list string := utf8 <$> whiteSpace.

(** The number of bytes of the first of the strings [pats] that [s] starts
    with. *)
Definition matchLength (pats : list string) (s : string) : option nat :=
  (λ found : nat * string, String.length found.2)
  <$> list_find (λ p, String.prefix p s = true) pats.

(** [s] without the [skip] bytes at its head and without the strings of
    [pats] that follow them one after the other. *)
Fixpoint stripStart (pats : list string) (skip : nat) (s : string) : string :=
  match s with
  | EmptyString => EmptyString
  | String c rest =>
      match skip with
      | S k => stripStart pats k rest
      | 0 =>
          match matchLength pats s with
          | Some (S k) => stripStart pats k rest
          | _ => s
          end
      end
  end.

(** [String.prototype.trimStart] *)
Definition trimStart (s : string) : string := stripStart whiteBytes 0 s.

(** [String.prototype.trimEnd]: the same from the other end, on the
    reversed bytes. *)
Definition trimEnd (s : string) : string :=
  String.rev (stripStart (String.rev <$> whiteBytes) 0 (String.rev s)).

(** [String.prototype.trim] *)
Definition trim (s : string) : string := trimEnd (trimStart s).

(** The code points of a string, read as UTF-8: [need] bytes are still to
    come for the code point whose leading bits are [acc]. *)
Fixpoint codePointsFrom (need : nat) (acc : N) (s : string) : list N :=
  match s with
  | EmptyString => []
  | String c rest =>
      let b := Ascii.N_of_ascii c in
      match need with
      | S k =>
          let acc' := (acc * 0x40 + b mod 0x40)%N in
          match k with
          | 0 => acc' :: codePointsFrom 0 0%N rest
          | S _ => codePointsFrom k acc' rest
          end
      | 0 =>
          if bool_decide (0xC0 ≤ b < 0xE0)%N
          then codePointsFrom 1 (b - 0xC0)%N rest
          else if bool_decide (0xE0 ≤ b < 0xF0)%N
          then codePointsFrom 2 (b - 0xE0)%N rest
          else if bool_decide (0xF0 ≤ b < 0xF8)%N
          then codePointsFrom 3 (b - 0xF0)%N rest
          else b :: codePointsFrom 0 0%N rest
      end
  end.

(** The UTF-16 code units of a code point: itself, or a surrogate pair. *)
Definition utf16 (cp : N) : list N :=
  if bool_decide (cp < 0x10000)%N then [cp]
  else [ (0xD800 + (cp - 0x10000) / 0x400)%N;
         (0xDC00 + (cp - 0x10000) mod 0x400)%N ].

(** The code units of a string. *)
Definition codeUnits (s : string) : list N :=
  codePointsFrom 0 0%N s ≫= utf16.

(** The order of sequences of code units: the first difference decides, a
    prefix comes first. *)
Fixpoint unitsLe (a b : list N) : bool :=
  match a, b with
  | [], _ => true
  | _ :: _, [] => false
  | x :: a', y :: b' =>
      if bool_decide (x = y) then unitsLe a' b' else bool_decide (x < y)%N
  end.

(** The order in which [Array.prototype.toSorted] (and [sort]) puts strings
    when it is given no comparator: by code units. *)
Definition le (a b : string) : Prop :=
  unitsLe (codeUnits a) (codeUnits b) = true.

#[global] Instance le_dec : RelDecision le.
Proof. intros a b. unfold le. apply _. Defined.

End Js.

(** ** Data model *)

(** Modelled from the spec: the [ThinkLevel] type is declared in
    auto-reply/thinking.ts, which is not among the embedded sources; section 3
    of the specification gives it as the ordered enum
    off < minimal < low < medium < high < xhigh. *)
Inductive ThinkLevel := off | minimal | low | medium | high | xhigh.

#[global] Instance ThinkLevel_eq_dec : EqDecision ThinkLevel.
Proof. solve_decision. Defined.

#[global, refine] Instance ThinkLevel_finite : Finite ThinkLevel :=
  {| enum := [off; minimal; low; medium; high; xhigh] |}.
Proof.
  - by apply (bool_decide_unpack _).
  - intros []; by apply (bool_decide_unpack _).
Defined.

(** The length of the downgrade ladder. *)
Definition ladderLength : nat := card ThinkLevel.

(** Modelled from the spec: the [FailoverError] class is declared in
    failover-error.ts, which is not among the embedded sources; section 6 of
    the specification says it exposes reason, provider, model, profileId and
    status.  Reasons are the string literals of the source ("timeout",
    "unknown", ...). *)
Record FailoverInfo := {
  fe_reason : string;
  fe_provider : string;
  fe_model : string;
  fe_profileId : option string;
  fe_status : option nat;
}.

(** A value that travels along the exception channel. *)
Inductive Thrown :=
  | JsError (message : string)
  | FailoverError (message : string) (info : FailoverInfo).

Record Usage := {
  u_input : option nat;
  u_output : option nat;
  u_total : option nat;
}.

(** The fields of the trailing assistant message that the orchestrator reads. *)
Record AssistantMessage := {
  am_errorMessage : option string;
  am_provider : option string;
  am_model : option string;
  am_usage : option Usage;
}.

Record Model := {
  m_id : string;
  m_provider : string;
  m_contextWindow : option nat;
}.

Record ApiKeyInfo := {
  apiKey : string;
  ak_profileId : option string;
  ak_source : string;
}.

Record ContextWindowInfo := {
  cw_tokens : nat;
  cw_source : string;
}.

Record ContextWindowGuard := {
  g_tokens : nat;
  g_source : string;
  shouldWarn : bool;
  shouldBlock : bool;
}.

Record Payload := {
  p_text : option string;
  p_isError : option bool;
}.

Inductive ErrorKind := context_overflow | compaction_failure.

Record AgentMeta := {
  am_sessionId : string;
  meta_provider : string;
  meta_model : string;
  meta_usage : option Usage;
}.

(** [EmbeddedPiRunMeta] without [durationMs] (wall-clock time is not part of
    the embedding) and [systemPromptReport]. *)
Record RunMeta := {
  agentMeta : option AgentMeta;
  meta_aborted : option bool;
  meta_error : option (ErrorKind * string);
}.

Record EmbeddedPiRunResult := {
  payloads : option (list Payload);
  meta : RunMeta;
  didSendViaMessagingTool : option bool;
  messagingToolSentTexts : option (list string);
}.

(** How a run, or an attempt, leaves: [return] or [throw]. *)
Inductive Completion (A : Type) :=
  | Returned (a : A)
  | Threw (e : Thrown).
Arguments Returned {A} a.
Arguments Threw {A} e.

(** ** The attempt executor (run/attempt.ts) *)

Record AbortFlags := {
  aborted : bool;
  timedOut : bool;
}.

(** [abortRun(isTimeout = false)]: the only writer of the two flags. *)
Definition abortRun (isTimeout : bool) (f : AbortFlags) : AbortFlags :=
  {| aborted := true;
     timedOut := if isTimeout then true else timedOut f |}.

(** What the collaborators of one attempt do: the model session, the file
    system, the timer and the caller's abort signal.  Every field is an
    observation the executor makes of its environment. *)
Record AttemptScript := {
  (** [fs.mkdir] / [resolveSandboxContext] reject before the [chdir]. *)
  as_prepareError : option Thrown;
  as_effectiveWorkspace : string;
  (** Something inside the scoped region throws, other than the prompt and
      the wait for a compaction retry (skills, session lock, session
      creation, history sanitising, release of the lock). *)
  as_setupError : option Thrown;
  (** A collaborator moved the working directory while the attempt ran. *)
  as_strayChdir : option string;
  (** [params.abortSignal?.aborted] when the flags are initialised. *)
  as_signalAborted : bool;
  (** The calls of [abortRun] while the prompt is in flight, in order; the
      argument is [true] for the timeout timer. *)
  as_aborts : list bool;
  (** [activeSession.prompt] rejects. *)
  as_promptThrows : option Thrown;
  (** [waitForCompactionRetry] rejects. *)
  as_compactionThrows : option Thrown;
  as_sessionIdUsed : string;
  as_lastAssistant : option AssistantMessage;
  as_assistantTexts : list string;
  as_didSendViaMessagingTool : bool;
  as_messagingToolSentTexts : list string;
}.

Record AttemptResult := {
  ar_aborted : bool;
  ar_timedOut : bool;
  promptError : option Thrown;
  sessionIdUsed : string;
  lastAssistant : option AssistantMessage;
  assistantTexts : list string;
  ar_didSendViaMessagingTool : bool;
  ar_messagingToolSentTexts : list string;
  cloudCodeAssistFormatError : bool;
}.

(** ** Helpers, collaborators and parameters *)

(** The pure helpers imported from pi-embedded-helpers.ts, failover-error.ts,
    usage.ts, utils.ts, abort.ts and run/payloads.ts.  Their bodies are not
    among the embedded sources; the orchestrator is verified for every choice
    of them. *)
Record Helpers := {
  describeUnknownError : Thrown → string;
  isContextOverflowError : string → bool;
  isCompactionFailureError : string → bool;
  classifyFailoverReason : string → option string;
  isFailoverErrorMessage : string → bool;
  isTimeoutErrorMessage : string → bool;
  pickFallbackThinkingLevel : option string → gset ThinkLevel → option ThinkLevel;
  isAuthAssistantError : option AssistantMessage → bool;
  isRateLimitAssistantError : option AssistantMessage → bool;
  isFailoverAssistantError : option AssistantMessage → bool;
  formatAssistantErrorText : AssistantMessage → option string;
  resolveFailoverStatus : string → option nat;
  isCloudCodeAssistFormatError : string → bool;
  isAbortError : Thrown → bool;
  normalizeUsage : option Usage → option Usage;
  buildEmbeddedRunPayloads : AttemptResult → list Payload;
}.

(** The constants imported from defaults.ts and context-window-guard.ts. *)
Record Constants := {
  DEFAULT_PROVIDER : string;
  DEFAULT_MODEL : string;
  DEFAULT_CONTEXT_TOKENS : nat;
  CONTEXT_WINDOW_HARD_MIN_TOKENS : nat;
  CONTEXT_WINDOW_WARN_BELOW_TOKENS : nat;
}.

(** The external collaborators of one run. *)
Record Collaborators := {
  (** [ensureClawdbotModelsJson] rejects. *)
  ensureClawdbotModelsJson : option Thrown;
  (** [resolveModel(provider, modelId, ...)]: the model and the error text. *)
  resolveModel : string → string → option Model * option string;
  resolveContextWindowInfo : string → string → option nat → nat → ContextWindowInfo;
  (** [resolveAuthProfileOrder({provider, preferredProfile})]. *)
  resolveAuthProfileOrder : string → option string → list string;
  (** [getApiKeyForModel({profileId})]: the key, or the rejection. *)
  getApiKeyForModel : option string → Thrown + ApiKeyInfo;
  (** [resolveCopilotApiToken({githubToken})]. *)
  resolveCopilotApiToken : string → Thrown + string;
  (** [fs.mkdir(resolvedWorkspace)] before the n-th attempt rejects. *)
  mkdirWorkspace : nat → option Thrown;
  (** What the n-th invocation of the executor meets, given the thinking
      level and the runtime key it is invoked with. *)
  attemptScript : nat → ThinkLevel → option string → AttemptScript;
}.

(** The fields of [RunEmbeddedPiAgentParams] that steer the control flow. *)
Record Params := {
  p_sessionId : string;
  p_provider : option string;
  p_model : option string;
  p_authProfileId : option string;
  p_thinkLevel : option ThinkLevel;
  (** [config.agents.defaults.model.fallbacks] *)
  p_fallbacks : option (list string);
}.

(** ** Orchestrator state *)

(** One update sent to the external credential store. *)
Inductive StoreOp :=
  | MarkFailure (profileId : string) (reason : string)
  | MarkGood (provider : string) (profileId : string)
  | MarkUsed (profileId : string).

(** One invocation of the attempt executor. *)
Record AttemptCall := {
  ac_profileIndex : nat;
  ac_profileId : option string;
  ac_apiKey : option string;
  ac_thinkLevel : ThinkLevel;
}.

(** The closure variables of one run, the process-wide working directory, the
    runtime key held by [authStorage], and the logs (in the order of the
    calls) of the updates sent to the credential store, of the candidates
    passed to [getApiKeyForModel] and of the invocations of the attempt
    executor. *)
Record State := {
  profileIndex : nat;
  thinkLevel : ThinkLevel;
  attemptedThinking : gset ThinkLevel;
  apiKeyInfo : option ApiKeyInfo;
  lastProfileId : option string;
  runtimeApiKey : option string;
  cwd : string;
  storeLog : list StoreOp;
  resolveLog : list (option string);
  attemptLog : list AttemptCall;
}.

Definition set_cwd (d : string) (s : State) : State :=
  {| profileIndex := profileIndex s; thinkLevel := thinkLevel s;
     attemptedThinking := attemptedThinking s; apiKeyInfo := apiKeyInfo s;
     lastProfileId := lastProfileId s; runtimeApiKey := runtimeApiKey s;
     cwd := d; storeLog := storeLog s; resolveLog := resolveLog s;
     attemptLog := attemptLog s |}.

Definition set_thinkLevel (l : ThinkLevel) (s : State) : State :=
  {| profileIndex := profileIndex s; thinkLevel := l;
     attemptedThinking := attemptedThinking s; apiKeyInfo := apiKeyInfo s;
     lastProfileId := lastProfileId s; runtimeApiKey := runtimeApiKey s;
     cwd := cwd s; storeLog := storeLog s; resolveLog := resolveLog s;
     attemptLog := attemptLog s |}.

Definition set_attemptedThinking (a : gset ThinkLevel) (s : State) : State :=
  {| profileIndex := profileIndex s; thinkLevel := thinkLevel s;
     attemptedThinking := a; apiKeyInfo := apiKeyInfo s;
     lastProfileId := lastProfileId s; runtimeApiKey := runtimeApiKey s;
     cwd := cwd s; storeLog := storeLog s; resolveLog := resolveLog s;
     attemptLog := attemptLog s |}.

Definition set_apiKeyInfo (i : ApiKeyInfo) (s : State) : State :=
  {| profileIndex := profileIndex s; thinkLevel := thinkLevel s;
     attemptedThinking := attemptedThinking s; apiKeyInfo := Some i;
     lastProfileId := lastProfileId s; runtimeApiKey := runtimeApiKey s;
     cwd := cwd s; storeLog := storeLog s; resolveLog := resolveLog s;
     attemptLog := attemptLog s |}.

(** [authStorage.setRuntimeApiKey(...)] followed by
    [lastProfileId = apiKeyInfo.profileId]. *)
Definition set_runtimeKey (k : string) (pid : option string) (s : State) : State :=
  {| profileIndex := profileIndex s; thinkLevel := thinkLevel s;
     attemptedThinking := attemptedThinking s; apiKeyInfo := apiKeyInfo s;
     lastProfileId := pid; runtimeApiKey := Some k;
     cwd := cwd s; storeLog := storeLog s; resolveLog := resolveLog s;
     attemptLog := attemptLog s |}.

(** [profileIndex = nextIndex; thinkLevel = initialThinkLevel;
    attemptedThinking.clear()]. *)
Definition set_rotated (i : nat) (l : ThinkLevel) (s : State) : State :=
  {| profileIndex := i; thinkLevel := l;
     attemptedThinking := ∅; apiKeyInfo := apiKeyInfo s;
     lastProfileId := lastProfileId s; runtimeApiKey := runtimeApiKey s;
     cwd := cwd s; storeLog := storeLog s; resolveLog := resolveLog s;
     attemptLog := attemptLog s |}.

Definition log_store (op : StoreOp) (s : State) : State :=
  {| profileIndex := profileIndex s; thinkLevel := thinkLevel s;
     attemptedThinking := attemptedThinking s; apiKeyInfo := apiKeyInfo s;
     lastProfileId := lastProfileId s; runtimeApiKey := runtimeApiKey s;
     cwd := cwd s; storeLog := storeLog s ++ [op]; resolveLog := resolveLog s;
     attemptLog := attemptLog s |}.

Definition log_resolve (candidate : option string) (s : State) : State :=
  {| profileIndex := profileIndex s; thinkLevel := thinkLevel s;
     attemptedThinking := attemptedThinking s; apiKeyInfo := apiKeyInfo s;
     lastProfileId := lastProfileId s; runtimeApiKey := runtimeApiKey s;
     cwd := cwd s; storeLog := storeLog s;
     resolveLog := resolveLog s ++ [candidate];
     attemptLog := attemptLog s |}.

(** The credential and thinking level an attempt started in [s] runs with. *)
Definition currentCall (s : State) : AttemptCall :=
  {| ac_profileIndex := profileIndex s; ac_profileId := lastProfileId s;
     ac_apiKey := runtimeApiKey s; ac_thinkLevel := thinkLevel s |}.

Definition log_attempt (s : State) : State :=
  {| profileIndex := profileIndex s; thinkLevel := thinkLevel s;
     attemptedThinking := attemptedThinking s; apiKeyInfo := apiKeyInfo s;
     lastProfileId := lastProfileId s; runtimeApiKey := runtimeApiKey s;
     cwd := cwd s; storeLog := storeLog s; resolveLog := resolveLog s;
     attemptLog := attemptLog s ++ [currentCall s] |}.

(** ** Context window guard *)

(** Modelled from the spec: [evaluateContextWindowGuard] is defined in
    context-window-guard.ts, which is not among the embedded sources.
    Section 4.1 of the specification: [shouldBlock] is true when the resolved
    tokens are below the hard minimum; [shouldWarn] is true when they are
    below the warning threshold and the guard is not already blocking. *)
Definition evaluateContextWindowGuard
    (info : ContextWindowInfo) (warnBelowTokens hardMinTokens : nat)
    : ContextWindowGuard :=
  let block := bool_decide (cw_tokens info < hardMinTokens) in
  {| g_tokens := cw_tokens info;
     g_source := cw_source info;
     shouldWarn := bool_decide (cw_tokens info < warnBelowTokens) && negb block;
     shouldBlock := block |}.

(** ** The attempt executor, as far as the orchestrator depends on it *)

Section Executor.

Context (H : Helpers).

(** The flags when the attempt returns: initialised from the caller's
    signal, then written by every [abortRun] call. *)
Definition attemptFlags (sc : AttemptScript) : AbortFlags :=
  let initial := {| aborted := as_signalAborted sc; timedOut := false |} in
  let started := if as_signalAborted sc then abortRun false initial else initial in
  fold_left (fun f isTimeout => abortRun isTimeout f) (as_aborts sc) started.

(** The prompt and the wait for a compaction retry: an abort error of the
    wait becomes the prompt error unless there is one already; any other
    error of the wait is thrown. *)
Definition promptPhase (sc : AttemptScript) : Completion (option Thrown) :=
  let promptError := as_promptThrows sc in
  match as_compactionThrows sc with
  | None => Returned promptError
  | Some err =>
      if isAbortError H err then
        Returned (match promptError with
                  | Some e => Some e
                  | None => Some err
                  end)
      else Threw err
  end.

(** The region between [process.chdir(effectiveWorkspace)] and the outer
    [finally]. *)
Definition attemptScoped (sc : AttemptScript) (s : State)
    : Completion AttemptResult * State :=
  let s1 := match as_strayChdir sc with
            | Some d => set_cwd d s
            | None => s
            end in
  match as_setupError sc with
  | Some e => (Threw e, s1)
  | None =>
      match promptPhase sc with
      | Threw e => (Threw e, s1)
      | Returned promptError =>
          let flags := attemptFlags sc in
          let lastAssistant := as_lastAssistant sc in
          (Returned
             {| ar_aborted := aborted flags;
                ar_timedOut := timedOut flags;
                promptError := promptError;
                sessionIdUsed := as_sessionIdUsed sc;
                lastAssistant := lastAssistant;
                assistantTexts := as_assistantTexts sc;
                ar_didSendViaMessagingTool := as_didSendViaMessagingTool sc;
                ar_messagingToolSentTexts := as_messagingToolSentTexts sc;
                cloudCodeAssistFormatError :=
                  match lastAssistant ≫= am_errorMessage with
                  | Some m => Js.truthy m && isCloudCodeAssistFormatError H m
                  | None => false
                  end |},
           s1)
      end
  end.

(** [runEmbeddedAttempt]: [prevCwd] is read first; the working directory is
    changed once the workspace exists and restored by the [finally].
    [process.chdir] is a plain state update, and [restoreSkillEnv], which
    resets environment variables just before, is taken not to throw. *)
Definition runEmbeddedAttempt (sc : AttemptScript) (s : State)
    : Completion AttemptResult * State :=
  let prevCwd := cwd s in
  match as_prepareError sc with
  | Some e => (Threw e, s)
  | None =>
      let s1 := set_cwd (as_effectiveWorkspace sc) s in
      let '(r, s2) := attemptScoped sc s1 in
      (r, set_cwd prevCwd s2)
  end.

End Executor.

(** ** The orchestrator *)

(** One turn of the [while (true)] loop either asks for another turn or ends
    the run. *)
Inductive Step :=
  | Continue (s : State)
  | Stop (c : Completion EmbeddedPiRunResult) (s : State).

Definition dquote : string := String (Ascii.ascii_of_nat 34) EmptyString.

(** Everything one run depends on. *)
Record Env := {
  helpers : Helpers;
  constants : Constants;
  collaborators : Collaborators;
  request : Params;
}.

Section Orchestrator.

Context (E : Env).

Local Abbreviation H := (helpers E).
Local Abbreviation K := (constants E).
Local Abbreviation C := (collaborators E).
Local Abbreviation params := (request E).

Definition provider : string :=
  Js.or_else (Some (Js.trim (Js.nullish (p_provider params) (DEFAULT_PROVIDER K))))
             (DEFAULT_PROVIDER K).

Definition modelId : string :=
  Js.or_else (Some (Js.trim (Js.nullish (p_model params) (DEFAULT_MODEL K))))
             (DEFAULT_MODEL K).

Definition explicitProfileId : option string :=
  Js.trim <$> p_authProfileId params.

Definition profileOrder : list string :=
  resolveAuthProfileOrder C provider explicitProfileId.

(** [profileOrder.length > 0 ? profileOrder : [undefined]] *)
Definition profileCandidates : list (option string) :=
  if bool_decide (0 < length profileOrder) then Some <$> profileOrder
  else [None].

Definition initialThinkLevel : ThinkLevel :=
  Js.nullish (p_thinkLevel params) off.

Definition fallbackConfigured : bool :=
  bool_decide (0 < length (Js.nullish (p_fallbacks params) [])).

Definition initialState (startCwd : string) : State :=
  {| profileIndex := 0; thinkLevel := initialThinkLevel;
     attemptedThinking := ∅; apiKeyInfo := None; lastProfileId := None;
     runtimeApiKey := None; cwd := startCwd; storeLog := [];
     resolveLog := []; attemptLog := [] |}.

(** Modelled from the spec: [markAuthProfileFailure], [markAuthProfileGood]
    and [markAuthProfileUsed] are defined in auth-profiles.ts, which is not
    among the embedded sources; section 6 of the specification lists them as
    the updates markFailure(profileId, reason), markGood(profileId) and
    markUsed(profileId) of the external credential store.  Each is embedded
    as the update itself, appended to the log of the store. *)
Definition markAuthProfileFailure (profileId reason : string)
    : State → State :=
  log_store (MarkFailure profileId reason).

Definition markAuthProfileGood (profileId : string) : State → State :=
  log_store (MarkGood provider profileId).

Definition markAuthProfileUsed (profileId : string) : State → State :=
  log_store (MarkUsed profileId).

Section WithModel.

Context (model : Model).

(** [applyApiKeyInfo(candidate)] *)
Definition applyApiKeyInfo (candidate : option string) (s : State)
    : Completion unit * State :=
  let s0 := log_resolve candidate s in
  match getApiKeyForModel C candidate with
  | inl err => (Threw err, s0)
  | inr info =>
      let s1 := set_apiKeyInfo info s0 in
      if bool_decide (m_provider model = "github-copilot") then
        match resolveCopilotApiToken C (apiKey info) with
        | inl err => (Threw err, s1)
        | inr token =>
            (Returned (), set_runtimeKey token (ak_profileId info) s1)
        end
      else (Returned (), set_runtimeKey (apiKey info) (ak_profileId info) s1)
  end.

(** The [while (nextIndex < profileCandidates.length)] loop of
    [advanceAuthProfile], by recursion on the candidates from
    [nextIndex] on. *)
Fixpoint advanceFrom (rest : list (option string)) (nextIndex : nat)
    (s : State) : Completion bool * State :=
  match rest with
  | [] => (Returned false, s)
  | candidate :: rest' =>
      match applyApiKeyInfo candidate s with
      | (Returned _, s') =>
          (Returned true, set_rotated nextIndex initialThinkLevel s')
      | (Threw err, s') =>
          if Js.truthy_opt candidate
             && Js.strict_eq candidate explicitProfileId
          then (Threw err, s')
          else advanceFrom rest' (S nextIndex) s'
      end
  end.

Definition advanceAuthProfile (s : State) : Completion bool * State :=
  advanceFrom (drop (S (profileIndex s)) profileCandidates)
              (S (profileIndex s)) s.

(** The first credential (lines 172-178). *)
Definition resolveInitial (s : State) : Completion unit * State :=
  let candidate := mjoin (profileCandidates !! profileIndex s) in
  match applyApiKeyInfo candidate s with
  | (Returned _, s1) => (Returned (), s1)
  | (Threw err, s1) =>
      if Js.strict_eq candidate explicitProfileId then (Threw err, s1)
      else
        match advanceAuthProfile s1 with
        | (Threw e, s2) => (Threw e, s2)
        | (Returned true, s2) => (Returned (), s2)
        | (Returned false, s2) => (Threw err, s2)
        end
  end.

Definition softErrorText : string :=
  "Context overflow: prompt too large for the model. " +:+
  "Try again with less input or a larger-context model.".

(** The prompt-level error branch ([promptError && !aborted]). *)
Definition onPromptError (attempt : AttemptResult) (pe : Thrown)
    (s : State) : Step :=
  let errorText := describeUnknownError H pe in
  if isContextOverflowError H errorText then
    let kind := if isCompactionFailureError H errorText
                then compaction_failure else context_overflow in
    Stop (Returned
            {| payloads := Some [ {| p_text := Some softErrorText;
                                     p_isError := Some true |} ];
               meta := {| agentMeta :=
                            Some {| am_sessionId := sessionIdUsed attempt;
                                    meta_provider := provider;
                                    meta_model := m_id model;
                                    meta_usage := None |};
                          meta_aborted := None;
                          meta_error := Some (kind, errorText) |};
               didSendViaMessagingTool := None;
               messagingToolSentTexts := None |}) s
  else
    let promptFailoverReason := classifyFailoverReason H errorText in
    let notTimeout :=
      negb (Js.strict_eq promptFailoverReason (Some "timeout")) in
    let s1 :=
      match promptFailoverReason, lastProfileId s with
      | Some reason, Some pid =>
          if Js.truthy reason && notTimeout && Js.truthy pid
          then markAuthProfileFailure pid reason s else s
      | _, _ => s
      end in
    let rotated :=
      if isFailoverErrorMessage H errorText && notTimeout
      then advanceAuthProfile s1 else (Returned false, s1) in
    match rotated with
    | (Threw e, s2) => Stop (Threw e) s2
    | (Returned true, s2) => Continue s2
    | (Returned false, s2) =>
        match pickFallbackThinkingLevel H (Some errorText)
                (attemptedThinking s2) with
        | Some fallbackThinking =>
            Continue (set_thinkLevel fallbackThinking s2)
        | None => Stop (Threw pe) s2
        end
    end.

(** The normal return at the end of the loop body (lines 369-413). *)
Definition finishRun (attempt : AttemptResult) (s : State) : Step :=
  let la := lastAssistant attempt in
  let usage := normalizeUsage H (la ≫= am_usage) in
  let agentMeta :=
    {| am_sessionId := sessionIdUsed attempt;
       meta_provider := Js.nullish (la ≫= am_provider) provider;
       meta_model := Js.nullish (la ≫= am_model) (m_id model);
       meta_usage := usage |} in
  let payloads := buildEmbeddedRunPayloads H attempt in
  let s1 :=
    match lastProfileId s with
    | Some pid =>
        if Js.truthy pid
        then markAuthProfileUsed pid (markAuthProfileGood pid s) else s
    | None => s
    end in
  Stop (Returned
          {| payloads := if bool_decide (0 < length payloads)
                         then Some payloads else None;
             meta := {| agentMeta := Some agentMeta;
                        meta_aborted := Some (ar_aborted attempt);
                        meta_error := None |};
             didSendViaMessagingTool :=
               Some (ar_didSendViaMessagingTool attempt);
             messagingToolSentTexts :=
               Some (ar_messagingToolSentTexts attempt) |}) s1.

(** The message and the typed error thrown when rotation is exhausted and
    a fallback chain is configured (lines 340-366). *)
Definition exhaustedError (attempt : AttemptResult) (s : State) : Thrown :=
  let la := lastAssistant attempt in
  let assistantFailoverReason :=
    classifyFailoverReason H (Js.nullish (la ≫= am_errorMessage) EmptyString) in
  let message :=
    Js.or_else (Js.trim <$> (la ≫= am_errorMessage))
      (Js.or_else
         (match la with
          | Some m => formatAssistantErrorText H m
          | None => Some EmptyString
          end)
         (if ar_timedOut attempt then "LLM request timed out."
          else if isRateLimitAssistantError H la
               then "LLM request rate limited."
               else if isAuthAssistantError H la
                    then "LLM request unauthorized."
                    else "LLM request failed.")) in
  let status :=
    match resolveFailoverStatus H
            (Js.nullish assistantFailoverReason "unknown") with
    | Some st => Some st
    | None => if isTimeoutErrorMessage H message then Some 408 else None
    end in
  FailoverError message
    {| fe_reason := Js.nullish assistantFailoverReason "unknown";
       fe_provider := provider;
       fe_model := modelId;
       fe_profileId := lastProfileId s;
       fe_status := status |}.

(** The reason recorded against the credential in the rotation branch. *)
Definition rotationReason (attempt : AttemptResult) : string :=
  let assistantFailoverReason :=
    classifyFailoverReason H
      (Js.nullish (lastAssistant attempt ≫= am_errorMessage) EmptyString) in
  if ar_timedOut attempt
     || Js.strict_eq assistantFailoverReason (Some "timeout")
  then "timeout"
  else Js.nullish assistantFailoverReason "unknown".

(** [(!aborted && failoverFailure) || timedOut] *)
Definition shouldRotate (attempt : AttemptResult) : bool :=
  (negb (ar_aborted attempt)
   && isFailoverAssistantError H (lastAssistant attempt))
  || ar_timedOut attempt.

(** The failure recorded in the rotation branch, under [if (lastProfileId)]. *)
Definition recordRotationFailure (attempt : AttemptResult) (s : State)
    : State :=
  match lastProfileId s with
  | Some pid =>
      if Js.truthy pid
      then markAuthProfileFailure pid (rotationReason attempt) s
      else s
  | None => s
  end.

(** What follows [const rotated = await advanceAuthProfile()]. *)
Definition afterRotation (attempt : AttemptResult)
    (rotated : Completion bool * State) : Step :=
  match rotated with
  | (Threw e, s2) => Stop (Threw e) s2
  | (Returned true, s2) => Continue s2
  | (Returned false, s2) =>
      if fallbackConfigured
      then Stop (Threw (exhaustedError attempt s2)) s2
      else finishRun attempt s2
  end.

(** The rest of the loop body, after the prompt-level error branch. *)
Definition onCompleted (attempt : AttemptResult) (s : State) : Step :=
  match pickFallbackThinkingLevel H
          (lastAssistant attempt ≫= am_errorMessage)
          (attemptedThinking s), ar_aborted attempt with
  | Some fallbackThinking, false =>
      Continue (set_thinkLevel fallbackThinking s)
  | _, _ =>
      if shouldRotate attempt then
        afterRotation attempt
          (advanceAuthProfile (recordRotationFailure attempt s))
      else finishRun attempt s
  end.

(** [attemptedThinking.add(thinkLevel)] at the head of a turn. *)
Definition enterTurn (s : State) : State :=
  set_attemptedThinking ({[thinkLevel s]} ∪ attemptedThinking s) s.

(** [await runEmbeddedAttempt({..., thinkLevel, authStorage, ...})] *)
Definition invokeExecutor (s : State) : Completion AttemptResult * State :=
  runEmbeddedAttempt H
    (attemptScript C (length (attemptLog s)) (thinkLevel s)
       (runtimeApiKey s))
    (log_attempt s).

(** One turn of [while (true)]. *)
Definition loopBody (s : State) : Step :=
  let s1 := enterTurn s in
  match mkdirWorkspace C (length (attemptLog s1)) with
  | Some e => Stop (Threw e) s1
  | None =>
      match invokeExecutor s1 with
      | (Threw e, s2) => Stop (Threw e) s2
      | (Returned attempt, s2) =>
          match promptError attempt, ar_aborted attempt with
          | Some pe, false => onPromptError attempt pe s2
          | _, _ => onCompleted attempt s2
          end
      end
  end.

(** The loop itself; [None] when the fuel does not suffice. *)
Fixpoint retryLoop (fuel : nat) (s : State)
    : option (Completion EmbeddedPiRunResult * State) :=
  match fuel with
  | 0 => None
  | S fuel' =>
      match loopBody s with
      | Continue s' => retryLoop fuel' s'
      | Stop c s' => Some (c, s')
      end
  end.

End WithModel.

(** Lines 172-417: the first credential, then the loop inside
    [try { ... } finally { process.chdir(prevCwd) }]. *)
Definition runLoop (model : Model) (fuel : nat) (s0 : State)
    (prevCwd : string) : option (Completion EmbeddedPiRunResult * State) :=
  match resolveInitial model s0 with
  | (Threw e, s1) => Some (Threw e, s1)
  | (Returned _, s1) =>
      match retryLoop model fuel s1 with
      | Some (c, s2) => Some (c, set_cwd prevCwd s2)
      | None => None
      end
  end.

(** The task that [runEmbeddedPiAgent] enqueues, started in a process whose
    working directory is [startCwd]. *)
Definition runEmbeddedPiAgent (fuel : nat) (startCwd : string)
    : option (Completion EmbeddedPiRunResult * State) :=
  let s0 := initialState startCwd in
  let prevCwd := cwd s0 in
  match ensureClawdbotModelsJson C with
  | Some e => Some (Threw e, s0)
  | None =>
      match resolveModel C provider modelId with
      | (None, error) =>
          Some (Threw (JsError (Js.nullish error
                   ("Unknown model: " +:+ provider +:+ "/" +:+ modelId))), s0)
      | (Some model, _) =>
          let ctxInfo :=
            resolveContextWindowInfo C provider modelId
              (m_contextWindow model) (DEFAULT_CONTEXT_TOKENS K) in
          let ctxGuard :=
            evaluateContextWindowGuard ctxInfo
              (CONTEXT_WINDOW_WARN_BELOW_TOKENS K)
              (CONTEXT_WINDOW_HARD_MIN_TOKENS K) in
          if shouldBlock ctxGuard then
            Some (Threw (FailoverError
                    ("Model context window too small ("
                     +:+ pretty (g_tokens ctxGuard) +:+ " tokens). Minimum is "
                     +:+ pretty (CONTEXT_WINDOW_HARD_MIN_TOKENS K) +:+ ".")
                    {| fe_reason := "unknown"; fe_provider := provider;
                       fe_model := modelId; fe_profileId := None;
                       fe_status := None |}), s0)
          else
            match explicitProfileId with
            | Some pid =>
                if Js.truthy pid && negb (bool_decide (pid ∈ profileOrder))
                then Some (Threw (JsError
                        ("Auth profile " +:+ dquote +:+ pid +:+ dquote
                         +:+ " is not configured for " +:+ provider +:+ ".")), s0)
                else runLoop model fuel s0 prevCwd
            | None => runLoop model fuel s0 prevCwd
            end
      end
  end.

End Orchestrator.

(** The state a turn leaves. *)
Definition stepState (st : Step) : State :=
  match st with
  | Continue s => s
  | Stop _ s => s
  end.

(** ** Vocabulary of the properties *)

(** No failure is recorded against any credential by the store updates [ops]. *)
Definition noFailureRecorded (ops : list StoreOp) : Prop :=
  ∀ pid reason, MarkFailure pid reason ∉ ops.


Section Vocabulary.

Context (E : Env) (model : Model).

Local Abbreviation candidates := (profileCandidates E).

(** Modelled from the spec: [pickFallbackThinkingLevel] is defined in
    pi-embedded-helpers.ts, which is not among the embedded sources.
    Section 4.3 of the specification (DOWNGRADE): it picks a thinking level
    "not yet attempted".  This is that contract, for a helper [H]. *)
Definition picksFresh (H : Helpers) : Prop :=
  ∀ message attempted level,
    pickFallbackThinkingLevel H message attempted = Some level →
    level ∉ attempted.

(** The profile id [pid] is the one resolved for the candidate at index [i]. *)
Definition holdsCredential (i : nat) (pid : option string) : Prop :=
  ∃ info,
    getApiKeyForModel (collaborators E) (mjoin (candidates !! i)) = inr info
    ∧ pid = ak_profileId info.

(** An attempt ran at an index of the configured order, with the credential
    resolved for the candidate at that index. *)
Definition usesCandidate (a : AttemptCall) : Prop :=
  ac_profileIndex a < length candidates
  ∧ holdsCredential (ac_profileIndex a) (ac_profileId a).

(** Everything of the state that resolving a key leaves alone. *)
Definition keepsRun (s s' : State) : Prop :=
  profileIndex s' = profileIndex s
  ∧ thinkLevel s' = thinkLevel s
  ∧ attemptedThinking s' = attemptedThinking s
  ∧ cwd s' = cwd s
  ∧ storeLog s' = storeLog s
  ∧ attemptLog s' = attemptLog s.

(** The executor invocation of the turn that starts in [s] returns [attempt]. *)
Definition attemptYields (s : State) (attempt : AttemptResult) : Prop :=
  mkdirWorkspace (collaborators E) (length (attemptLog s)) = None
  ∧ (invokeExecutor E (enterTurn s)).1 = Returned attempt.

(** The turn that starts in [s] gets [attempt] back and reaches the rotation
    branch (line 312): no prompt-level error is handled, no downgrade is
    taken, and [shouldRotate] holds. *)
Definition rotationDue (s : State) (attempt : AttemptResult) : Prop :=
  attemptYields s attempt
  ∧ (promptError attempt = None ∨ ar_aborted attempt = true)
  ∧ (pickFallbackThinkingLevel (helpers E)
       (lastAssistant attempt ≫= am_errorMessage)
       ({[thinkLevel s]} ∪ attemptedThinking s) = None
     ∨ ar_aborted attempt = true)
  ∧ shouldRotate E attempt = true.

(** The run gets past the model lookup, the context window guard and the
    check of the pinned profile, with [model] as the resolved model. *)
Definition startsLoop : Prop :=
  ensureClawdbotModelsJson (collaborators E) = None
  ∧ (resolveModel (collaborators E) (provider E) (modelId E)).1 = Some model
  ∧ cw_tokens (resolveContextWindowInfo (collaborators E) (provider E)
                 (modelId E) (m_contextWindow model)
                 (DEFAULT_CONTEXT_TOKENS (constants E)))
    ≥ CONTEXT_WINDOW_HARD_MIN_TOKENS (constants E)
  ∧ match explicitProfileId E with
    | Some pid => Js.truthy pid = true → pid ∈ profileOrder E
    | None => True
    end.

(** The state in which turn [n] of the loop starts (turns are counted from
    0) when the loop starts in [s0], if the loop gets that far. *)
Fixpoint turnStart (n : nat) (s0 : State) : option State :=
  match n with
  | 0 => Some s0
  | S n' =>
      match loopBody E model s0 with
      | Continue s1 => turnStart n' s1
      | Stop _ _ => None
      end
  end.

(** Turn [n] of the run that starts in the directory [startCwd] starts in
    the state [s]: the run gets past the admission checks with [model],
    resolves its first credential, and its loop makes [n] turns that each ask
    for another one. *)
Definition runReaches (startCwd : string) (n : nat) (s : State) : Prop :=
  startsLoop
  ∧ ∃ s1,
      resolveInitial E model (initialState E startCwd) = (Returned (), s1)
      ∧ turnStart n s1 = Some s.



(** [s'] is [s] after a turn that made its attempt and did not rotate: the
    attempt is logged, the level is in the attempted set, the store and the
    key lookups may have been used, everything else is as before. *)
Definition attemptedOnce (s s' : State) : Prop :=
  profileIndex s' = profileIndex s
  ∧ thinkLevel s' = thinkLevel s
  ∧ lastProfileId s' = lastProfileId s
  ∧ attemptedThinking s' = {[thinkLevel s]} ∪ attemptedThinking s
  ∧ cwd s' = cwd s
  ∧ attemptLog s' = attemptLog s ++ [currentCall s]
  ∧ (∃ ops, storeLog s' = storeLog s ++ ops)
  ∧ (∃ tried, resolveLog s' = resolveLog s ++ tried
              ∧ Forall (λ c, c ∈ candidates) tried).

(** The four ways a turn of the loop can go. *)
Inductive turn (s : State) : Step → Prop :=
  | turn_idle c :
      turn s (Stop c (enterTurn s))
  | turn_stop c s' :
      attemptedOnce s s' → turn s (Stop c s')
  | turn_downgrade message level s' :
      attemptedOnce s s' →
      pickFallbackThinkingLevel (helpers E) message (attemptedThinking s')
        = Some level →
      turn s (Continue (set_thinkLevel level s'))
  | turn_rotate s1 s' :
      attemptedOnce s s1 →
      advanceAuthProfile E model s1 = (Returned true, s') →
      turn s (Continue s').

(** The credential traversal invariant: the current index is in range and
    holds the credential in use; the attempts so far ran at indices that never
    decrease and never exceed the current one, each with a credential of the
    configured order; every key lookup was for a configured candidate. *)
Definition Traversal (s : State) : Prop :=
  profileIndex s < length candidates
  ∧ holdsCredential (profileIndex s) (lastProfileId s)
  ∧ Forall (λ a, ac_profileIndex a ≤ profileIndex s ∧ usesCandidate a)
           (attemptLog s)
  ∧ StronglySorted le (ac_profileIndex <$> attemptLog s)
  ∧ Forall (λ c, c ∈ candidates) (resolveLog s).

(** The thinking ladder invariant: the attempts made under the current
    credential used levels of the attempted set, and no credential index saw
    the same level twice. *)
Definition Ladder (s : State) : Prop :=
  Forall (λ a, ac_profileIndex a ≤ profileIndex s
               ∧ (ac_profileIndex a = profileIndex s →
                  ac_thinkLevel a ∈ attemptedThinking s))
         (attemptLog s)
  ∧ NoDup ((λ a, (ac_profileIndex a, ac_thinkLevel a)) <$> attemptLog s).

(** At the head of a turn the level about to be tried is a new one. *)
Definition freshLevel (s : State) : Prop :=
  thinkLevel s ∉ attemptedThinking s.

(** The variant of the loop: an upper bound on the attempts still to come. *)
Definition attemptsLeft (s : State) : nat :=
  (length candidates - S (profileIndex s)) * ladderLength
  + (ladderLength - size (attemptedThinking s)).

End Vocabulary.

(** ** Concrete helpers and collaborators

    A small world on which the definitions above can be run: literal error
    texts stand for the provider messages that the helpers of the source
    recognise by pattern. *)

Module Demo.

Definition describe (e : Thrown) : string :=
  match e with
  | JsError m => m
  | FailoverError m _ => m
  end.

Definition classify (t : string) : option string :=
  if bool_decide (t = "rate limit exceeded") then Some "rate_limit"
  else if bool_decide (t = "request timed out") then Some "timeout"
  else if bool_decide (t = "unauthorized") then Some "auth"
  else None.

(** Downgrade to the highest level of the ladder that was not attempted. *)
Definition pickLower (message : option string) (attempted : gset ThinkLevel)
    : option ThinkLevel :=
  if bool_decide (message = Some "unsupported thinking level") then
    head (filter (λ l, l ∉ attempted) [high; medium; low; minimal; off])
  else None.

Definition theHelpers : Helpers :=
  {| describeUnknownError := describe;
     isContextOverflowError := λ t,
       bool_decide (t = "context length exceeded")
       || bool_decide (t = "context overflow during compaction");
     isCompactionFailureError := λ t,
       bool_decide (t = "context overflow during compaction");
     classifyFailoverReason := classify;
     isFailoverErrorMessage := λ t, bool_decide (is_Some (classify t));
     isTimeoutErrorMessage := λ t,
       bool_decide (t = "request timed out")
       || bool_decide (t = "LLM request timed out.");
     pickFallbackThinkingLevel := pickLower;
     isAuthAssistantError := λ m,
       bool_decide ((m ≫= am_errorMessage) ≫= classify = Some "auth");
     isRateLimitAssistantError := λ m,
       bool_decide ((m ≫= am_errorMessage) ≫= classify = Some "rate_limit");
     isFailoverAssistantError := λ m,
       bool_decide (is_Some ((m ≫= am_errorMessage) ≫= classify));
     formatAssistantErrorText := λ m, am_errorMessage m;
     resolveFailoverStatus := λ r,
       if bool_decide (r = "rate_limit") then Some 429
       else if bool_decide (r = "auth") then Some 401
       else if bool_decide (r = "timeout") then Some 408
       else None;
     isCloudCodeAssistFormatError := λ _, false;
     isAbortError := λ e, bool_decide (describe e = "aborted");
     normalizeUsage := λ u, u;
     buildEmbeddedRunPayloads := λ attempt,
       (λ t, {| p_text := Some t; p_isError := None |})
       <$> assistantTexts attempt |}.

Definition theConstants : Constants :=
  {| DEFAULT_PROVIDER := "anthropic"; DEFAULT_MODEL := "claude";
     DEFAULT_CONTEXT_TOKENS := 4000;
     CONTEXT_WINDOW_HARD_MIN_TOKENS := 1000;
     CONTEXT_WINDOW_WARN_BELOW_TOKENS := 2000 |}.

Definition theModel : Model :=
  {| m_id := "claude"; m_provider := "anthropic";
     m_contextWindow := Some 3000 |}.

(** A model whose context window is below the hard minimum. *)
Definition smallModel : Model :=
  {| m_id := "claude"; m_provider := "anthropic";
     m_contextWindow := Some 500 |}.

(** An attempt that answers "hello". *)
Definition quiet : AttemptScript :=
  {| as_prepareError := None; as_effectiveWorkspace := "/work";
     as_setupError := None; as_strayChdir := None;
     as_signalAborted := false; as_aborts := [];
     as_promptThrows := None; as_compactionThrows := None;
     as_sessionIdUsed := "s1"; as_lastAssistant := None;
     as_assistantTexts := ["hello"];
     as_didSendViaMessagingTool := false;
     as_messagingToolSentTexts := [] |}.

(** The same attempt during which [abortRun] is called as listed. *)
Definition withAborts (l : list bool) (sc : AttemptScript) : AttemptScript :=
  {| as_prepareError := as_prepareError sc;
     as_effectiveWorkspace := as_effectiveWorkspace sc;
     as_setupError := as_setupError sc; as_strayChdir := as_strayChdir sc;
     as_signalAborted := as_signalAborted sc; as_aborts := l;
     as_promptThrows := as_promptThrows sc;
     as_compactionThrows := as_compactionThrows sc;
     as_sessionIdUsed := as_sessionIdUsed sc;
     as_lastAssistant := as_lastAssistant sc;
     as_assistantTexts := as_assistantTexts sc;
     as_didSendViaMessagingTool := as_didSendViaMessagingTool sc;
     as_messagingToolSentTexts := as_messagingToolSentTexts sc |}.

(** The same attempt whose prompt rejects with the given text. *)
Definition withPromptError (m : string) (sc : AttemptScript) : AttemptScript :=
  {| as_prepareError := as_prepareError sc;
     as_effectiveWorkspace := as_effectiveWorkspace sc;
     as_setupError := as_setupError sc; as_strayChdir := as_strayChdir sc;
     as_signalAborted := as_signalAborted sc; as_aborts := as_aborts sc;
     as_promptThrows := Some (JsError m);
     as_compactionThrows := as_compactionThrows sc;
     as_sessionIdUsed := as_sessionIdUsed sc;
     as_lastAssistant := as_lastAssistant sc;
     as_assistantTexts := as_assistantTexts sc;
     as_didSendViaMessagingTool := as_didSendViaMessagingTool sc;
     as_messagingToolSentTexts := as_messagingToolSentTexts sc |}.

(** The same attempt whose trailing assistant message carries an error. *)
Definition withAssistantError (m : string) (sc : AttemptScript)
    : AttemptScript :=
  {| as_prepareError := as_prepareError sc;
     as_effectiveWorkspace := as_effectiveWorkspace sc;
     as_setupError := as_setupError sc; as_strayChdir := as_strayChdir sc;
     as_signalAborted := as_signalAborted sc; as_aborts := as_aborts sc;
     as_promptThrows := as_promptThrows sc;
     as_compactionThrows := as_compactionThrows sc;
     as_sessionIdUsed := as_sessionIdUsed sc;
     as_lastAssistant :=
       Some {| am_errorMessage := Some m; am_provider := None;
               am_model := None; am_usage := None |};
     as_assistantTexts := as_assistantTexts sc;
     as_didSendViaMessagingTool := as_didSendViaMessagingTool sc;
     as_messagingToolSentTexts := as_messagingToolSentTexts sc |}.

(** The same attempt during which a collaborator moves the working
    directory. *)
Definition withStrayChdir (d : string) (sc : AttemptScript) : AttemptScript :=
  {| as_prepareError := as_prepareError sc;
     as_effectiveWorkspace := as_effectiveWorkspace sc;
     as_setupError := as_setupError sc; as_strayChdir := Some d;
     as_signalAborted := as_signalAborted sc; as_aborts := as_aborts sc;
     as_promptThrows := as_promptThrows sc;
     as_compactionThrows := as_compactionThrows sc;
     as_sessionIdUsed := as_sessionIdUsed sc;
     as_lastAssistant := as_lastAssistant sc;
     as_assistantTexts := as_assistantTexts sc;
     as_didSendViaMessagingTool := as_didSendViaMessagingTool sc;
     as_messagingToolSentTexts := as_messagingToolSentTexts sc |}.

(** Every candidate has a key; the profile id is the candidate. *)
Definition keyOf (candidate : option string) : Thrown + ApiKeyInfo :=
  inr {| apiKey := "key-" +:+ Js.nullish candidate "env";
         ak_profileId := candidate; ak_source := "store" |}.


(** A run for [m] with the given profile order, key lookup, attempt scripts,
    pinned profile, starting level and fallback chain. *)
Definition env (m : Model) (order : list string)
    (keys : option string → Thrown + ApiKeyInfo)
    (scripts : nat → ThinkLevel → option string → AttemptScript)
    (pinned : option string) (level : option ThinkLevel)
    (fallbacks : option (list string)) : Env :=
  {| helpers := theHelpers;
     constants := theConstants;
     collaborators :=
       {| ensureClawdbotModelsJson := None;
          resolveModel := λ _ _, (Some m, None);
          resolveContextWindowInfo := λ _ _ w d,
            {| cw_tokens := Js.nullish w d; cw_source := "model" |};
          resolveAuthProfileOrder := λ _ _, order;
          getApiKeyForModel := keys;
          resolveCopilotApiToken := λ k, inr k;
          mkdirWorkspace := λ _, None;
          attemptScript := scripts |};
     request :=
       {| p_sessionId := "s1"; p_provider := None; p_model := None;
          p_authProfileId := pinned; p_thinkLevel := level;
          p_fallbacks := fallbacks |} |}.

(** The state in which the loop of [E] starts, from the directory "/home". *)
Definition ready (E : Env) : State :=
  (resolveInitial E theModel (initialState E "/home")).2.

(** Three profiles; the first two are rate limited (scenario A). *)
Definition threeProfiles : Env :=
  env theModel ["p1"; "p2"; "p3"] keyOf
    (λ n _ _, if bool_decide (n < 2)
              then withAssistantError "rate limit exceeded" quiet
              else quiet)
    None None None.

(** The model accepts no thinking level above [low] (scenario C). *)
Definition pickyModel : Env :=
  env theModel ["p1"] keyOf
    (λ _ l _, if bool_decide (l = low) then quiet
              else withPromptError "unsupported thinking level" quiet)
    None (Some high) None.

(** One profile, every attempt runs into the timeout timer; with and without
    a fallback model chain. *)
Definition timingOut (fallbacks : option (list string)) : Env :=
  env theModel ["p1"] keyOf (λ _ _ _, withAborts [true] quiet)
    None None fallbacks.

(** No profile is configured and the key comes without a profile id; every
    attempt runs into the timeout timer. *)
Definition noProfile : Env :=
  env theModel []
    (λ _, inr {| apiKey := "env-key"; ak_profileId := None;
                 ak_source := "env" |})
    (λ _ _ _, withAborts [true] quiet) None None None.




(** The context window of the model is too small (scenario D). *)
Definition tooSmall : Env :=
  env smallModel ["p1"] keyOf (λ _ _ _, quiet) None None None.

(** The prompt is rejected because it does not fit the context window. *)
Definition overflowing : Env :=
  env theModel ["p1"] keyOf
    (λ _ _ _, withPromptError "context length exceeded" quiet)
    None None None.

(** The caller cancels while the attempt runs (scenario E). *)
Definition cancelled : Env :=
  env theModel ["p1"] keyOf (λ _ _ _, withAborts [false] quiet)
    None None None.

(** A collaborator leaves the working directory somewhere else. *)
Definition straying : Env :=
  env theModel ["p1"] keyOf (λ _ _ _, withStrayChdir "/elsewhere" quiet)
    None None None.

End Demo.

(** ** Vocabulary of the bookkeeping properties *)

(** A store update that records a failure. *)
Definition isFailure (op : StoreOp) : bool :=
  match op with
  | MarkFailure _ _ => true
  | _ => false
  end.

Section Bookkeeping.

Context (E : Env) (model : Model).

Local Abbreviation candidates := (profileCandidates E).

(** The key that [applyApiKeyInfo] hands to [authStorage] for a resolved
    credential (lines 141-150): the stored key or, for the github-copilot
    provider, the token exchanged for it. *)
Definition runtimeKeyFor (info : ApiKeyInfo) : option string :=
  if bool_decide (m_provider model = "github-copilot") then
    match resolveCopilotApiToken (collaborators E) (apiKey info) with
    | inr token => Some token
    | inl _ => None
    end
  else Some (apiKey info).

(** [applyApiKeyInfo(candidate)] goes through without throwing. *)
Definition resolves (candidate : option string) : bool :=
  match getApiKeyForModel (collaborators E) candidate with
  | inl _ => false
  | inr info => bool_decide (is_Some (runtimeKeyFor info))
  end.

(** The attempt ran with the profile id and the runtime key of the
    credential resolved for the candidate at its index. *)
Definition holdsKey (a : AttemptCall) : Prop :=
  ∃ info,
    getApiKeyForModel (collaborators E)
      (mjoin (candidates !! ac_profileIndex a)) = inr info
    ∧ ac_profileId a = ak_profileId info
    ∧ ac_apiKey a = runtimeKeyFor info
    ∧ is_Some (ac_apiKey a).

(** The two updates of the normal return (lines 391-401) for the profile id
    in use. *)
Definition goodMarks (pid : option string) : list StoreOp :=
  match pid with
  | Some p =>
      if Js.truthy p then [MarkGood (provider E) p; MarkUsed p] else []
  | None => []
  end.

(** [s'] is [s] after a turn that made its attempt and did not rotate, with
    the runtime key as it was and at most one store update: a failure
    recorded against the credential in use. *)
Definition settled (s s' : State) : Prop :=
  attemptedOnce E s s'
  ∧ runtimeApiKey s' = runtimeApiKey s
  ∧ (storeLog s' = storeLog s
     ∨ ∃ pid reason,
         lastProfileId s = Some pid
         ∧ storeLog s' = storeLog s ++ [MarkFailure pid reason]).

(** The ways a turn of the loop can go, with what it leaves in the store. *)
Inductive outcome (s : State) : Step → Prop :=
  | outcome_unprepared e :
      outcome s (Stop (Threw e) (enterTurn s))
  | outcome_threw e s' :
      settled s s' → outcome s (Stop (Threw e) s')
  | outcome_soft r :
      meta_error (meta r) ≠ None →
      payloads r = Some [ {| p_text := Some softErrorText;
                             p_isError := Some true |} ] →
      is_Some (agentMeta (meta r)) →
      outcome s (Stop (Returned r) (log_attempt (enterTurn s)))
  | outcome_finish attempt s' :
      settled s s' → outcome s (finishRun E model attempt s')
  | outcome_downgrade level s' :
      settled s s' → outcome s (Continue (set_thinkLevel level s'))
  | outcome_rotate s1 s' :
      settled s s1 →
      advanceAuthProfile E model s1 = (Returned true, s') →
      outcome s (Continue s').

(** The bookkeeping invariant of the loop: every attempt ran with the key of
    its candidate, the credential in use is the one of the current index,
    and the store has seen nothing but failures, each against the profile of
    an attempt, and no more of them than attempts. *)
Definition Ledger (s : State) : Prop :=
  (∃ info,
     getApiKeyForModel (collaborators E)
       (mjoin (candidates !! profileIndex s)) = inr info
     ∧ lastProfileId s = ak_profileId info
     ∧ runtimeApiKey s = runtimeKeyFor info
     ∧ is_Some (runtimeApiKey s))
  ∧ Forall holdsKey (attemptLog s)
  ∧ Forall (λ op, ∃ pid reason,
              op = MarkFailure pid reason
              ∧ Some pid ∈ ac_profileId <$> attemptLog s) (storeLog s)
  ∧ length (storeLog s) ≤ length (attemptLog s).

(** What the store holds when the run ends with [c] in [s], after the
    failures: the two marks of a normal return, nothing otherwise. *)
Definition closingMarks (c : Completion EmbeddedPiRunResult) (s : State)
    : list StoreOp :=
  match c with
  | Returned r =>
      match meta_error (meta r) with
      | None => goodMarks (lastProfileId s)
      | Some _ => []
      end
  | Threw _ => []
  end.

(** The books of a run that ends with [c] in [s]: the store holds failures,
    each against the profile of an attempt and no more of them than
    attempts, followed by the closing marks; every attempt ran with the key
    of its candidate; a returned result comes after at least one attempt,
    with its agent meta data and without an empty payload list. *)
Definition Books (c : Completion EmbeddedPiRunResult) (s : State) : Prop :=
  (∃ failures,
     storeLog s = failures ++ closingMarks c s
     ∧ Forall (λ op, ∃ pid reason,
                 op = MarkFailure pid reason
                 ∧ Some pid ∈ ac_profileId <$> attemptLog s) failures
     ∧ length failures ≤ length (attemptLog s))
  ∧ Forall holdsKey (attemptLog s)
  ∧ ∀ r, c = Returned r →
         attemptLog s ≠ [] ∧ payloads r ≠ Some []
         ∧ is_Some (agentMeta (meta r)).

(** The attempt at position [k] of the log is the first one of its
    credential index. *)
Definition firstUnderCredential (log : list AttemptCall) (k : nat) : Prop :=
  ∀ j a b, j < k → log !! j = Some b → log !! k = Some a →
           ac_profileIndex b ≠ ac_profileIndex a.

(** The reset invariant: the first attempt under every credential ran at
    the requested thinking level, and so will the next attempt when it is
    the first one under the current credential. *)
Definition Reset (s : State) : Prop :=
  (∀ k a, attemptLog s !! k = Some a →
          firstUnderCredential (attemptLog s) k →
          ac_thinkLevel a = initialThinkLevel E)
  ∧ ((∀ a, a ∈ attemptLog s → ac_profileIndex a ≠ profileIndex s) →
     thinkLevel s = initialThinkLevel E).

End Bookkeeping.

(** ** Further runs of the small world *)

Module Cases.

(** Two profiles; the model rejects the requested thinking level, then the
    first profile is rate limited. *)
Definition downgradeThenRotate : Env :=
  Demo.env Demo.theModel ["p1"; "p2"] Demo.keyOf
    (λ n _ _,
       if bool_decide (n = 0)
       then Demo.withAssistantError "unsupported thinking level" Demo.quiet
       else if bool_decide (n = 1)
            then Demo.withAssistantError "rate limit exceeded" Demo.quiet
            else Demo.quiet)
    None (Some high) None.

Definition copilotModel : Model :=
  {| m_id := "gpt"; m_provider := "github-copilot";
     m_contextWindow := Some 3000 |}.

(** A github-copilot model: the stored key is exchanged for a token. *)
Definition copilot : Env :=
  {| helpers := Demo.theHelpers;
     constants := Demo.theConstants;
     collaborators :=
       {| ensureClawdbotModelsJson := None;
          resolveModel := λ _ _, (Some copilotModel, None);
          resolveContextWindowInfo := λ _ _ w d,
            {| cw_tokens := Js.nullish w d; cw_source := "model" |};
          resolveAuthProfileOrder := λ _ _, ["p1"];
          getApiKeyForModel := Demo.keyOf;
          resolveCopilotApiToken := λ k, inr ("token-for-" +:+ k);
          mkdirWorkspace := λ _, None;
          attemptScript := λ _ _ _, Demo.quiet |};
     request :=
       {| p_sessionId := "s1"; p_provider := Some "github-copilot";
          p_model := Some "gpt"; p_authProfileId := None;
          p_thinkLevel := None; p_fallbacks := None |} |}.

(** No key can be read for any candidate. *)
Definition noKeys : Env :=
  Demo.env Demo.theModel ["p1"; "p2"]
    (λ candidate,
       inl (JsError ("no credentials for " +:+ Js.nullish candidate "env")))
    (λ _ _ _, Demo.quiet) None None None.

(** The pinned profile is not in the order resolved for the provider. *)
Definition pinnedUnknown : Env :=
  Demo.env Demo.theModel ["p1"] Demo.keyOf (λ _ _ _, Demo.quiet)
    (Some "px") None None.

(** The pinned profile is configured; the caller wrote it between a
    no-break space and a space. *)
Definition pinnedPadded : Env :=
  Demo.env Demo.theModel ["p1"] Demo.keyOf (λ _ _ _, Demo.quiet)
    (Some (Js.utf8 0xA0 +:+ "p1 ")) None None.

(** Two profiles; every prompt is rejected with a timeout text. *)
Definition promptTimeout : Env :=
  Demo.env Demo.theModel ["p1"; "p2"] Demo.keyOf
    (λ _ _ _, Demo.withPromptError "request timed out" Demo.quiet)
    None None None.

(** Two profiles; the prompt under the first one is rejected as rate
    limited. *)
Definition promptRateLimited : Env :=
  Demo.env Demo.theModel ["p1"; "p2"] Demo.keyOf
    (λ n _ _,
       if bool_decide (n = 0)
       then Demo.withPromptError "rate limit exceeded" Demo.quiet
       else Demo.quiet)
    None None None.




End Cases.

(** * The chat command registry (auto-reply/commands-registry.data.ts)

    The registry is built once, at module load: every command is defined by
    [defineChatCommand], further aliases are added in place by
    [registerAlias], and [assertCommandRegistry] throws when the result is
    inconsistent.  In-place mutation of the array becomes a new list; a
    throw becomes the left injection, carrying the message of the error. *)

(** ** String methods *)

Module JsText.

(** Lower-casing of plain text.  [String.prototype.toLowerCase] follows the
    case tables of Unicode, which are not part of the embedded sources.
    This function lower-cases the letters A-Z and the Kelvin sign U+212A,
    whose lower case is the letter k: these are the only characters whose
    lower case is made of ASCII characters.  It therefore gives an ASCII
    string exactly when the built-in does, and then the same one: where the
    source compares a lower-cased string with ASCII keywords or matches it
    against an ASCII pattern, it decides as the built-in does.  The
    registry, which keeps lower-cased names in sets, takes the lower-casing
    as a parameter instead. *)
Definition lowerChar (c : Ascii.ascii) : Ascii.ascii :=
  let n := Ascii.nat_of_ascii c in
  if bool_decide (65 ≤ n ∧ n ≤ 90) then Ascii.ascii_of_nat (n + 32) else c.

(** The lower case of [s] without the [skip] bytes at its head. *)
Fixpoint lowerFrom (skip : nat) (s : string) : string :=
  match s with
  | EmptyString => EmptyString
  | String c rest =>
      match skip with
      | S k => lowerFrom k rest
      | 0 =>
          if String.prefix (Js.utf8 0x212A) s
          then String (Ascii.ascii_of_nat 107) (lowerFrom 2 rest)
          else String (lowerChar c) (lowerFrom 0 rest)
      end
  end.

Definition toLowerCase (s : string) : string := lowerFrom 0 s.

(** [s.startsWith(prefix)] *)
Definition startsWith (s prefix : string) : bool := String.prefix prefix s.

(** [array.filter(Boolean)] on an array of strings. *)
Definition filterTruthy (l : list string) : list string :=
  filter (λ s, Js.truthy s = true) l.

End JsText.

Module Registry.

Inductive CommandScope := text | native | both.

#[global] Instance CommandScope_eq_dec : EqDecision CommandScope.
Proof. solve_decision. Defined.

Record DefineChatCommandInput := {
  in_key : string;
  in_nativeName : option string;
  in_description : string;
  in_acceptsArgs : option bool;
  in_textAlias : option string;
  in_textAliases : option (list string);
  in_scope : option CommandScope;
}.

Record ChatCommandDefinition := {
  key : string;
  nativeName : option string;
  description : string;
  acceptsArgs : option bool;
  textAliases : list string;
  scope : CommandScope;
}.

(** A throwing computation: the message of the [Error], or the value. *)
Definition Throws (A : Type) : Type := string + A.

Section LowerCase.

(** [String.prototype.toLowerCase].  Its case tables are not part of the
    embedded sources; the registry is embedded for whatever function does
    the lower-casing, and what is proved of it holds for every such
    function. *)
Context (toLowerCase : string → string).

Definition defineChatCommand (command : DefineChatCommandInput)
    : ChatCommandDefinition :=
  let aliases :=
    JsText.filterTruthy
      (Js.trim <$> Js.nullish (in_textAliases command)
                     (match in_textAlias command with
                      | Some a => if Js.truthy a then [a] else []
                      | None => []
                      end)) in
  let scope :=
    Js.nullish (in_scope command)
      (if Js.truthy_opt (in_nativeName command)
       then (if bool_decide (0 < length aliases) then both else native)
       else text) in
  {| key := in_key command;
     nativeName := in_nativeName command;
     description := in_description command;
     acceptsArgs := in_acceptsArgs command;
     textAliases := aliases;
     scope := scope |}.

Definition withAliases (aliases : list string) (c : ChatCommandDefinition)
    : ChatCommandDefinition :=
  {| key := key c; nativeName := nativeName c;
     description := description c; acceptsArgs := acceptsArgs c;
     textAliases := aliases; scope := scope c |}.

(** The key under which an alias is remembered in the set [existing]. *)
Definition aliasKey (alias : string) : string :=
  toLowerCase (Js.trim alias).

(** One round of the [for (const alias of aliases)] loop of
    [registerAlias], on the set [existing] and the array
    [command.textAliases]. *)
Definition pushAlias (st : gset string * list string) (alias : string)
    : gset string * list string :=
  let trimmed := Js.trim alias in
  if negb (Js.truthy trimmed) then st
  else
    let lowered := toLowerCase trimmed in
    if bool_decide (lowered ∈ st.1) then st
    else ({[lowered]} ∪ st.1, st.2 ++ [trimmed]).

(** [registerAlias(commands, key, ...aliases)]: [find] gives the first
    command with the key, whose alias array is extended in place. *)
Definition registerAlias (commands : list ChatCommandDefinition)
    (k : string) (aliases : list string)
    : Throws (list ChatCommandDefinition) :=
  match list_find (λ entry, key entry = k) commands with
  | None => inl ("registerAlias: unknown command key: " +:+ k)
  | Some (i, command) =>
      let existing : gset string :=
        list_to_set (aliasKey <$> textAliases command) in
      let st := fold_left pushAlias aliases (existing, textAliases command) in
      inr (<[i := withAliases st.2 command]> commands)
  end.

(** The three sets that [assertCommandRegistry] fills while it walks the
    registry. *)
Record Seen := {
  seenKeys : gset string;
  seenNativeNames : gset string;
  seenAliases : gset string;
}.

Definition nothingSeen : Seen :=
  {| seenKeys := ∅; seenNativeNames := ∅; seenAliases := ∅ |}.

(** One round of [for (const alias of command.textAliases)]. *)
Definition checkAlias (seen : gset string) (alias : string)
    : Throws (gset string) :=
  if negb (JsText.startsWith alias "/")
  then inl ("Command alias missing leading '/': " +:+ alias)
  else
    let aliasKey := toLowerCase alias in
    if bool_decide (aliasKey ∈ seen)
    then inl ("Duplicate command alias: " +:+ alias)
    else inr ({[aliasKey]} ∪ seen).

Fixpoint checkAliases (seen : gset string) (aliases : list string)
    : Throws (gset string) :=
  match aliases with
  | [] => inr seen
  | alias :: rest =>
      match checkAlias seen alias with
      | inl e => inl e
      | inr seen' => checkAliases seen' rest
      end
  end.

(** The checks on the native name of one command (lines 56-72). *)
Definition checkNativeName (names : gset string)
    (command : ChatCommandDefinition) : Throws (gset string) :=
  let nativeName := Js.trim <$> nativeName command in
  if bool_decide (scope command = text) then
    if Js.truthy_opt nativeName
    then inl ("Text-only command has native name: " +:+ key command)
    else if bool_decide (length (textAliases command) = 0)
         then inl ("Text-only command missing text alias: "
                   +:+ key command)
         else inr names
  else
    match nativeName with
    | Some name =>
        if Js.truthy name then
          let nativeKey := toLowerCase name in
          if bool_decide (nativeKey ∈ names)
          then inl ("Duplicate native command: " +:+ name)
          else inr ({[nativeKey]} ∪ names)
        else inl ("Native command missing native name: " +:+ key command)
    | None => inl ("Native command missing native name: " +:+ key command)
    end.

(** One round of [for (const command of commands)]. *)
Definition checkCommand (seen : Seen) (command : ChatCommandDefinition)
    : Throws Seen :=
  if bool_decide (key command ∈ seenKeys seen)
  then inl ("Duplicate command key: " +:+ key command)
  else
    let keys := {[key command]} ∪ seenKeys seen in
    match checkNativeName (seenNativeNames seen) command with
    | inl e => inl e
    | inr names =>
        if bool_decide (scope command = native)
           && bool_decide (0 < length (textAliases command))
        then inl ("Native-only command has text aliases: " +:+ key command)
        else
          match checkAliases (seenAliases seen) (textAliases command) with
          | inl e => inl e
          | inr aliases =>
              inr {| seenKeys := keys; seenNativeNames := names;
                     seenAliases := aliases |}
          end
    end.

Fixpoint checkCommands (seen : Seen) (commands : list ChatCommandDefinition)
    : Throws Seen :=
  match commands with
  | [] => inr seen
  | command :: rest =>
      match checkCommand seen command with
      | inl e => inl e
      | inr seen' => checkCommands seen' rest
      end
  end.

(** [assertCommandRegistry(commands)] *)
Definition assertCommandRegistry (commands : list ChatCommandDefinition)
    : Throws unit :=
  match checkCommands nothingSeen commands with
  | inl e => inl e
  | inr _ => inr ()
  end.

(** *** What the registry check is meant to establish *)

(** The native name of a command as the check reads it. *)
Definition nativeKeyOf (command : ChatCommandDefinition) : option string :=
  if bool_decide (scope command = text) then None
  else toLowerCase <$> (Js.trim <$> nativeName command).

(** The scope of one command agrees with its native name and aliases, and
    every alias starts with a slash. *)
Definition scopeCoherent (command : ChatCommandDefinition) : Prop :=
  match scope command with
  | text =>
      Js.truthy_opt (Js.trim <$> nativeName command) = false
      ∧ textAliases command ≠ []
  | native =>
      Js.truthy_opt (Js.trim <$> nativeName command) = true
      ∧ textAliases command = []
  | both => Js.truthy_opt (Js.trim <$> nativeName command) = true
  end
  ∧ Forall (λ alias, JsText.startsWith alias "/" = true)
           (textAliases command).

(** The names [l] are pairwise distinct and none of them is in [X]. *)
Definition fresh (X : gset string) (l : list string) : Prop :=
  NoDup l ∧ ∀ x, x ∈ l → x ∉ X.

(** What [checkCommands] establishes when it starts with the sets [seen]. *)
Definition consistentFrom (seen : Seen)
    (commands : list ChatCommandDefinition) : Prop :=
  fresh (seenKeys seen) (key <$> commands)
  ∧ fresh (seenNativeNames seen) (omap nativeKeyOf commands)
  ∧ fresh (seenAliases seen)
          (toLowerCase <$> (commands ≫= textAliases))
  ∧ Forall scopeCoherent commands.

(** The sets after a command that passes the checks. *)
Definition seenAfter (seen : Seen) (c : ChatCommandDefinition) : Seen :=
  {| seenKeys := {[key c]} ∪ seenKeys seen;
     seenNativeNames :=
       list_to_set (option_list (nativeKeyOf c)) ∪ seenNativeNames seen;
     seenAliases :=
       list_to_set (toLowerCase <$> textAliases c)
       ∪ seenAliases seen |}.

(** The command [c] passes the checks of one round, given the sets
    [seen]. *)
Definition passes (seen : Seen) (c : ChatCommandDefinition) : Prop :=
  (key c ∉ seenKeys seen)
  ∧ scopeCoherent c
  ∧ fresh (seenNativeNames seen) (option_list (nativeKeyOf c))
  ∧ fresh (seenAliases seen) (toLowerCase <$> textAliases c).

(** A consistent registry: keys are unique, native names and text aliases
    are unique up to letter case, and every command is coherent. *)
Definition Consistent (commands : list ChatCommandDefinition) : Prop :=
  NoDup (key <$> commands)
  ∧ NoDup (omap nativeKeyOf commands)
  ∧ NoDup (toLowerCase <$> (commands ≫= textAliases))
  ∧ Forall scopeCoherent commands.

End LowerCase.

End Registry.

(** * Chat command handlers (auto-reply/reply/commands-core.ts and
      commands-info.ts)

    A handler gets the parameters of the message and whether text commands
    are allowed on its surface; it answers [null] to decline, or a result.
    Handlers are [async] functions without state of their own: they are
    embedded as functions.  The handlers and message builders that are
    imported from other files are fields of [Externals]. *)

Module Commands.

(** [ReplyPayload], as far as the handlers build it: [{ text }]. *)
Record ReplyPayload := {
  rp_text : string;
}.

Record CommandHandlerResult := {
  shouldContinue : bool;
  reply : option ReplyPayload;
}.

(** [params.command] *)
Record CommandContext := {
  commandBodyNormalized : string;
  isAuthorizedSender : bool;
  senderId : option string;
  channel : string;
}.

(** [params.ctx]; the thread id is a number or a string and is kept as the
    text it is printed as. *)
Record MsgContext := {
  SenderId : option string;
  SenderUsername : option string;
  ChatType : option string;
  From : option string;
  MessageThreadId : option string;
}.

(** The fields of [HandleCommandsParams] that the handlers of the embedded
    files read themselves; the rest (configuration, session entry, ...) only
    reaches the imported functions, which take the parameters whole. *)
Record HandleCommandsParams := {
  command : CommandContext;
  ctx : MsgContext;
  hasStatusDirective : bool;
}.

Definition CommandHandler : Type :=
  HandleCommandsParams → bool → option CommandHandlerResult.

Record Externals := {
  buildHelpMessage : HandleCommandsParams → string;
  buildCommandsMessage : HandleCommandsParams → string;
  buildStatusReply : HandleCommandsParams → option ReplyPayload;
  buildContextReply : HandleCommandsParams → option ReplyPayload;
  shouldHandleTextCommands : HandleCommandsParams → bool;
  resolveSendPolicy : HandleCommandsParams → string;
  handleBashCommand : CommandHandler;
  handleActivationCommand : CommandHandler;
  handleSendPolicyCommand : CommandHandler;
  handleRestartCommand : CommandHandler;
  handleConfigCommand : CommandHandler;
  handleDebugCommand : CommandHandler;
  handleStopCommand : CommandHandler;
  handleCompactCommand : CommandHandler;
  handleAbortTrigger : CommandHandler;
}.

(** [{ shouldContinue: false }] *)
Definition stopSilently : CommandHandlerResult :=
  {| shouldContinue := false; reply := None |}.

Definition newline : string := String (Ascii.ascii_of_nat 10) EmptyString.

(** [lines.join(sep)] *)
Fixpoint join (sep : string) (lines : list string) : string :=
  match lines with
  | [] => EmptyString
  | [l] => l
  | l :: rest => l +:+ sep +:+ join sep rest
  end.

Section Handlers.

Context (X : Externals).

Definition handleHelpCommand : CommandHandler := λ params allowTextCommands,
  if negb allowTextCommands then None
  else if negb (bool_decide
                  (commandBodyNormalized (command params) = "/help"))
  then None
  else if negb (isAuthorizedSender (command params)) then Some stopSilently
  else Some {| shouldContinue := false;
               reply := Some {| rp_text := buildHelpMessage X params |} |}.

Definition handleCommandsListCommand : CommandHandler :=
  λ params allowTextCommands,
  if negb allowTextCommands then None
  else if negb (bool_decide
                  (commandBodyNormalized (command params) = "/commands"))
  then None
  else if negb (isAuthorizedSender (command params)) then Some stopSilently
  else Some {| shouldContinue := false;
               reply := Some {| rp_text := buildCommandsMessage X params |} |}.

Definition handleStatusCommand : CommandHandler := λ params allowTextCommands,
  if negb allowTextCommands then None
  else
    let statusRequested :=
      hasStatusDirective params
      || bool_decide (commandBodyNormalized (command params) = "/status") in
    if negb statusRequested then None
    else if negb (isAuthorizedSender (command params)) then Some stopSilently
    else Some {| shouldContinue := false;
                 reply := buildStatusReply X params |}.

Definition handleContextCommand : CommandHandler :=
  λ params allowTextCommands,
  if negb allowTextCommands then None
  else
    let normalized := commandBodyNormalized (command params) in
    if negb (bool_decide (normalized = "/context"))
       && negb (JsText.startsWith normalized "/context ")
    then None
    else if negb (isAuthorizedSender (command params)) then Some stopSilently
    else Some {| shouldContinue := false;
                 reply := buildContextReply X params |}.

(** The lines of the [/whoami] reply. *)
Definition whoamiLines (params : HandleCommandsParams) : list string :=
  let senderId := Js.nullish (SenderId (ctx params)) EmptyString in
  let senderUsername := Js.nullish (SenderUsername (ctx params)) EmptyString in
  ["🧭 Identity"; "Channel: " +:+ channel (command params)]
  ++ (if Js.truthy senderId then ["User id: " +:+ senderId] else [])
  ++ (if Js.truthy senderUsername then
        let handle := if JsText.startsWith senderUsername "@"
                      then senderUsername else "@" +:+ senderUsername in
        ["Username: " +:+ handle]
      else [])
  ++ (if bool_decide (ChatType (ctx params) = Some "group")
         && Js.truthy_opt (From (ctx params))
      then ["Chat: " +:+ Js.nullish (From (ctx params)) EmptyString]
      else [])
  ++ (match MessageThreadId (ctx params) with
      | Some thread => ["Thread: " +:+ thread]
      | None => []
      end)
  ++ (if Js.truthy senderId then ["AllowFrom: " +:+ senderId] else []).

Definition handleWhoamiCommand : CommandHandler := λ params allowTextCommands,
  if negb allowTextCommands then None
  else if negb (bool_decide
                  (commandBodyNormalized (command params) = "/whoami"))
  then None
  else if negb (isAuthorizedSender (command params)) then Some stopSilently
  else Some {| shouldContinue := false;
               reply := Some {| rp_text := join newline (whoamiLines params) |} |}.

(** The five handlers of commands-info.ts. *)
Definition infoHandlers : list CommandHandler :=
  [handleHelpCommand; handleCommandsListCommand; handleStatusCommand;
   handleContextCommand; handleWhoamiCommand].

(** The handlers imported from commands-bash.ts, commands-session.ts,
    commands-config.ts and commands-compact.ts. *)
Definition importedHandlers : list CommandHandler :=
  [handleBashCommand X; handleActivationCommand X;
   handleSendPolicyCommand X; handleRestartCommand X;
   handleConfigCommand X; handleDebugCommand X; handleStopCommand X;
   handleCompactCommand X; handleAbortTrigger X].

Definition HANDLERS : list CommandHandler :=
  [handleBashCommand X; handleActivationCommand X;
   handleSendPolicyCommand X; handleRestartCommand X;
   handleHelpCommand; handleCommandsListCommand; handleStatusCommand;
   handleContextCommand; handleWhoamiCommand;
   handleConfigCommand X; handleDebugCommand X; handleStopCommand X;
   handleCompactCommand X; handleAbortTrigger X].

(** [for (const handler of HANDLERS) { ... if (result) return result; }] *)
Fixpoint firstResult (handlers : list CommandHandler)
    (params : HandleCommandsParams) (allowTextCommands : bool)
    : option CommandHandlerResult :=
  match handlers with
  | [] => None
  | handler :: rest =>
      match handler params allowTextCommands with
      | Some result => Some result
      | None => firstResult rest params allowTextCommands
      end
  end.

Definition handleCommands (params : HandleCommandsParams)
    : CommandHandlerResult :=
  let resetRequested :=
    bool_decide (commandBodyNormalized (command params) = "/reset")
    || bool_decide (commandBodyNormalized (command params) = "/new") in
  if resetRequested && negb (isAuthorizedSender (command params))
  then stopSilently
  else
    let allowTextCommands := shouldHandleTextCommands X params in
    match firstResult HANDLERS params allowTextCommands with
    | Some result => result
    | None =>
        if bool_decide (resolveSendPolicy X params = "deny")
        then stopSilently
        else {| shouldContinue := true; reply := None |}
    end.

End Handlers.

End Commands.

(** ** A small world for the command handlers *)

Module CommandCases.

(** Imported handlers that decline everything, and fixed messages. *)
Definition plain : Commands.Externals :=
  {| Commands.buildHelpMessage := λ _, "help text";
     Commands.buildCommandsMessage := λ _, "commands text";
     Commands.buildStatusReply := λ _,
       Some {| Commands.rp_text := "status text" |};
     Commands.buildContextReply := λ _,
       Some {| Commands.rp_text := "context text" |};
     Commands.shouldHandleTextCommands := λ _, true;
     Commands.resolveSendPolicy := λ _, "allow";
     Commands.handleBashCommand := λ _ _, None;
     Commands.handleActivationCommand := λ _ _, None;
     Commands.handleSendPolicyCommand := λ _ _, None;
     Commands.handleRestartCommand := λ _ _, None;
     Commands.handleConfigCommand := λ _ _, None;
     Commands.handleDebugCommand := λ _ _, None;
     Commands.handleStopCommand := λ _ _, None;
     Commands.handleCompactCommand := λ _ _, None;
     Commands.handleAbortTrigger := λ _ _, None |}.

(** A message with the given body from a sender in a direct chat. *)
Definition message (body : string) (authorized : bool)
    : Commands.HandleCommandsParams :=
  {| Commands.command :=
       {| Commands.commandBodyNormalized := body;
          Commands.isAuthorizedSender := authorized;
          Commands.senderId := Some "42";
          Commands.channel := "telegram" |};
     Commands.ctx :=
       {| Commands.SenderId := Some "42";
          Commands.SenderUsername := Some "ada";
          Commands.ChatType := Some "direct";
          Commands.From := None;
          Commands.MessageThreadId := None |};
     Commands.hasStatusDirective := false |}.

End CommandCases.

(** * Session entries (config/sessions/types.ts) *)

Module Sessions.

Section Entries.

(** The values of the optional fields of a session entry. *)
Context (V : Type).

(** A [SessionEntry]: the two required fields, and the optional ones as the
    object has them, by name.  An own property whose value is [undefined] is
    [Some None]; a property the object does not have is [None]. *)
Record SessionEntry := {
  sessionId : string;
  (** milliseconds since the epoch *)
  updatedAt : N;
  fields : gmap string (option V);
}.

(** A [Partial<SessionEntry>]. *)
Record SessionPatch := {
  patch_sessionId : option string;
  patch_updatedAt : option N;
  patch_fields : gmap string (option V);
}.

(** [entry.name] for an optional field. *)
Definition field (name : string) (entry : SessionEntry) : option V :=
  mjoin (fields entry !! name).

(** [mergeSessionEntry(existing, patch)]; [randomUUID] and [now] are what
    [crypto.randomUUID()] and [Date.now()] give. *)
Definition mergeSessionEntry (existing : option SessionEntry)
    (patch : SessionPatch) (randomUUID : string) (now : N)
    : SessionEntry :=
  let sessionId :=
    Js.nullish (patch_sessionId patch)
      (Js.nullish (sessionId <$> existing) randomUUID) in
  let updatedAt :=
    N.max (N.max (Js.nullish (updatedAt <$> existing) 0%N)
                 (Js.nullish (patch_updatedAt patch) 0%N)) now in
  match existing with
  | None =>
      {| sessionId := sessionId; updatedAt := updatedAt;
         fields := patch_fields patch |}
  | Some e =>
      {| sessionId := sessionId; updatedAt := updatedAt;
         fields := patch_fields patch ∪ fields e |}
  end.

End Entries.

Arguments sessionId {V} _.
Arguments updatedAt {V} _.
Arguments fields {V} _.
Arguments patch_sessionId {V} _.
Arguments patch_updatedAt {V} _.
Arguments patch_fields {V} _.
Arguments field {V} _ _.
Arguments mergeSessionEntry {V} _ _ _ _.

End Sessions.

(** * Phone control (extensions/phone-control/index.ts)

    The plugin arms groups of phone commands for a while by editing the
    allow and deny lists of the gateway configuration, and remembers in a
    state file what it changed so that disarming can undo it.  The
    configuration file and the state file are the state of the embedding
    ([World]).  Times are whole numbers of milliseconds; [now] stands for
    what [Date.now()] answers, and the two readings of the clock within one
    arming are taken to be the same. *)

Module PhoneControl.

Inductive ArmGroup := camera | screen | writes | flashlight | all.

#[global] Instance ArmGroup_eq_dec : EqDecision ArmGroup.
Proof. solve_decision. Defined.

(** The numbers the plugin computes with are whole and not negative: a
    [Number] is [finite n] for an integer [n] that floating point holds, or
    [Infinity]. *)
Inductive Number := finite (n : N) | Infinity.

(** The Number value for the integer [v], as floating point rounds the
    digits read by [Number.parseInt] and the exact result of a product or a
    sum: [v] itself below 2^53; otherwise the nearest integer with 53
    significant bits, the one with an even last bit when two are as near;
    and [Infinity] when that is 2^1024 or more. *)
Definition fl (v : N) : Number :=
  if bool_decide (v < 2 ^ 53)%N then finite v
  else
    let k := (N.log2 v - 52)%N in
    let q := (v / 2 ^ k)%N in
    let r := (v mod 2 ^ k)%N in
    let half := (2 ^ (k - 1))%N in
    let q' :=
      if bool_decide (half < r)%N || (bool_decide (r = half) && N.odd q)
      then (q + 1)%N else q in
    if bool_decide (q' * 2 ^ k < 2 ^ 1024)%N then finite (q' * 2 ^ k)%N
    else Infinity.

(** [a + b] for a whole number [a]. *)
Definition plus (a : N) (b : Number) : Number :=
  match b with
  | finite d => fl (a + d)
  | Infinity => Infinity
  end.

(** A number as [JSON.stringify] writes it and [JSON.parse] reads it back:
    [Infinity] is written as [null]. *)
Definition jsonNumber (x : Number) : option N :=
  match x with
  | finite n => Some n
  | Infinity => None
  end.

(** [ArmStateFileV1 | ArmStateFileV2] *)
Inductive ArmStateFile :=
  | ArmStateFileV1 (armedAtMs : N) (expiresAtMs : option N)
      (removedFromDeny : list string)
  | ArmStateFileV2 (armedAtMs : N) (expiresAtMs : option N)
      (group : ArmGroup)
      (armedCommands addedToAllow removedFromDeny : list string).

Definition expiresAtMs (state : ArmStateFile) : option N :=
  match state with
  | ArmStateFileV1 _ e _ => e
  | ArmStateFileV2 _ e _ _ _ _ => e
  end.

Definition removedFromDeny (state : ArmStateFile) : list string :=
  match state with
  | ArmStateFileV1 _ _ r => r
  | ArmStateFileV2 _ _ _ _ _ r => r
  end.

(** The object [GROUP_COMMANDS], in the order of its keys. *)
Definition GROUP_COMMANDS : list (ArmGroup * list string) :=
  [ (camera, ["camera.snap"; "camera.clip"]);
    (screen, ["screen.record"]);
    (writes, ["calendar.add"; "contacts.add"; "reminders.add"]);
    (flashlight, ["flashlight.on"; "flashlight.off"]) ].

(** [GROUP_COMMANDS[group]] *)
Definition commandsOf (group : ArmGroup) : list string :=
  match list_find (λ entry, entry.1 = group) GROUP_COMMANDS with
  | Some (_, (_, commands)) => commands
  | None => []
  end.

(** [uniqSorted(values)]: the values are trimmed, the blank ones dropped,
    the rest put in a [Set] and sorted by [toSorted()], which orders strings
    by their code units.  The elements of the [Set] are distinct, so the
    order in which it is spread does not show after the sort. *)
Definition uniqSorted (values : list string) : list string :=
  merge_sort Js.le
    (elements (list_to_set (JsText.filterTruthy (Js.trim <$> values))
               : gset string)).

Definition resolveCommandsForGroup (group : ArmGroup) : list string :=
  if bool_decide (group = all)
  then uniqSorted (mjoin (snd <$> GROUP_COMMANDS))
  else uniqSorted (commandsOf group).

(** [formatGroupList()] *)
Definition formatGroupList : string :=
  Commands.join ", " ["camera"; "screen"; "writes"; "flashlight"; "all"].

(** The value of an ASCII digit. *)
Definition digitValue (c : Ascii.ascii) : option N :=
  let n := Ascii.N_of_ascii c in
  if bool_decide (48 ≤ n ∧ n ≤ 57)%N then Some (n - 48)%N else None.

(** The integer that a string of digits writes. *)
Fixpoint parseDigits (acc : N) (digits : string) : option N :=
  match digits with
  | EmptyString => Some acc
  | String c rest =>
      match digitValue c with
      | Some d => parseDigits (10 * acc + d)%N rest
      | None => None
      end
  end.

(** The string without its last character, and that character. *)
Fixpoint splitLast (s : string) : option (string * Ascii.ascii) :=
  match s with
  | EmptyString => None
  | String c EmptyString => Some (EmptyString, c)
  | String c rest =>
      match splitLast rest with
      | Some (front, last) => Some (String c front, last)
      | None => None
      end
  end.

Definition unitMs (unit : Ascii.ascii) : option N :=
  let u := String unit EmptyString in
  if bool_decide (u = "s") then Some 1000%N
  else if bool_decide (u = "m") then Some 60000%N
  else if bool_decide (u = "h") then Some 3600000%N
  else if bool_decide (u = "d") then Some 86400000%N
  else None.

(** [parseDurationMs(input)]: the pattern [^(\d+)(s|m|h|d)$] is one unit
    letter after at least one digit.  [Number.parseInt] gives the Number
    value for the integer that the digits write (correctly rounded, as the
    engines do; the language lets an engine drop the digits after the
    twentieth), and the product is rounded again. *)
Definition parseDurationMs (input : option string) : option Number :=
  match input with
  | None => None
  | Some input =>
      if negb (Js.truthy input) then None
      else
        let raw := JsText.toLowerCase (Js.trim input) in
        if negb (Js.truthy raw) then None
        else
          match splitLast raw with
          | Some (digits, unit) =>
              if negb (Js.truthy digits) then None
              else
                match parseDigits 0 digits, unitMs unit with
                | Some v, Some mult =>
                    match fl v with
                    | finite n =>
                        if bool_decide (n ≤ 0)%N then None
                        else Some (fl (n * mult))
                    | Infinity => None
                    end
                | _, _ => None
                end
          | None => None
          end
  end.

(** [formatDuration(ms)].  Up to 2^53 every quotient of the source, rounded
    by floating point and then floored, is the whole quotient, and the
    numbers print as their digits.  [Infinity] stays [Infinity] through
    every step and prints as such.  For a finite number above 2^53 the text
    depends on how the divisions round and on the exponent notation of
    numbers, which are not embedded: there the answer is [None]. *)
Definition formatDuration (ms : Number) : option string :=
  match ms with
  | Infinity => Some "Infinityd"
  | finite ms =>
      if bool_decide (2 ^ 53 < ms)%N then None
      else
        let s := (ms / 1000)%N in
        if bool_decide (s < 60)%N then Some (pretty s +:+ "s")
        else
          let m := (s / 60)%N in
          if bool_decide (m < 60)%N then Some (pretty m +:+ "m")
          else
            let h := (m / 60)%N in
            if bool_decide (h < 48)%N then Some (pretty h +:+ "h")
            else Some (pretty (h / 24)%N +:+ "d")
  end.

(** [cfg.gateway?.nodes]: the two lists the plugin reads and writes; the
    rest of the configuration is copied as it is. *)
Record Config := {
  allowCommands : option (list string);
  denyCommands : option (list string);
}.

Definition normalizeDenyList (cfg : Config) : list string :=
  uniqSorted (Js.nullish (denyCommands cfg) []).

Definition normalizeAllowList (cfg : Config) : list string :=
  uniqSorted (Js.nullish (allowCommands cfg) []).

Definition patchConfigNodeLists (cfg : Config)
    (nextAllow nextDeny : list string) : Config :=
  {| allowCommands := Some nextAllow; denyCommands := Some nextDeny |}.

(** The configuration file, as [loadConfig] reads it and [writeConfigFile]
    writes it, and the state file.  [readArmState] answers [null] for a
    missing or malformed file and accepts everything [writeArmState] wrote:
    the file is kept as the value it decodes to. *)
Record World := {
  config : Config;
  armState : option ArmStateFile;
}.

Record DisarmResult := {
  changed : bool;
  restored : list string;
  removed : list string;
}.

(** [if (allow.delete(cmd)) removed.push(cmd)] *)
Definition removeAllowed (st : gset string * list string) (cmd : string)
    : gset string * list string :=
  if bool_decide (cmd ∈ st.1) then (st.1 ∖ {[cmd]}, st.2 ++ [cmd]) else st.

(** [if (!deny.has(cmd)) { deny.add(cmd); restored.push(cmd) }] *)
Definition restoreDenied (st : gset string * list string) (cmd : string)
    : gset string * list string :=
  if bool_decide (cmd ∈ st.1) then st else ({[cmd]} ∪ st.1, st.2 ++ [cmd]).

(** [disarmNow]; logging is left out. *)
Definition disarmNow (w : World) : DisarmResult * World :=
  match armState w with
  | None => ({| changed := false; restored := []; removed := [] |}, w)
  | Some state =>
      let cfg := config w in
      let allow : gset string := list_to_set (normalizeAllowList cfg) in
      let deny : gset string := list_to_set (normalizeDenyList cfg) in
      let allowed :=
        match state with
        | ArmStateFileV1 _ _ _ => (allow, [])
        | ArmStateFileV2 _ _ _ _ addedToAllow _ =>
            fold_left removeAllowed addedToAllow (allow, [])
        end in
      let denied :=
        fold_left restoreDenied (removedFromDeny state) (deny, []) in
      let changed :=
        bool_decide (0 < length allowed.2)
        || bool_decide (0 < length denied.2) in
      let next :=
        if changed
        then patchConfigNodeLists cfg (uniqSorted (elements allowed.1))
               (uniqSorted (elements denied.1))
        else cfg in
      ({| changed := changed;
          restored := uniqSorted denied.2;
          removed := uniqSorted allowed.2 |},
       {| config := next; armState := None |})
  end.

Definition formatHelp : string :=
  Commands.join Commands.newline
    [ "Phone control commands:";
      EmptyString;
      "/phone status";
      "/phone arm <group> [duration]";
      "/phone disarm";
      EmptyString;
      "Groups:";
      "- " +:+ formatGroupList;
      EmptyString;
      "Duration format: 30s | 10m | 2h | 1d (default: 10m).";
      EmptyString;
      "Notes:";
      "- This only toggles what the gateway is allowed to invoke on phone nodes.";
      "- iOS will still ask for permissions (camera, photos, contacts, etc.) on first use." ].

Definition parseGroup (raw : option string) : option ArmGroup :=
  let value := JsText.toLowerCase (Js.trim (Js.nullish raw EmptyString)) in
  if negb (Js.truthy value) then None
  else if bool_decide (value = "camera") then Some camera
  else if bool_decide (value = "screen") then Some screen
  else if bool_decide (value = "writes") then Some writes
  else if bool_decide (value = "flashlight") then Some flashlight
  else if bool_decide (value = "all") then Some all
  else None.

(** [formatStatus(state)] at the time [now]; [None] where
    [formatDuration] answers [None].  The difference of the two times is not
    negative after [Math.max(0, ...)]. *)
Definition formatStatus (state : option ArmStateFile) (now : N)
    : option string :=
  match state with
  | None => Some "Phone control: disarmed."
  | Some state =>
      let until :=
        match expiresAtMs state with
        | None => Some "manual disarm required"
        | Some e =>
            (λ d, "expires in " +:+ d) <$> formatDuration (fl (e - now))
        end in
      let cmds :=
        uniqSorted
          match state with
          | ArmStateFileV1 _ _ removedFromDeny => removedFromDeny
          | ArmStateFileV2 _ _ _ armedCommands addedToAllow removedFromDeny =>
              if bool_decide (0 < length armedCommands) then armedCommands
              else addedToAllow ++ removedFromDeny
          end in
      let cmdLabel :=
        if bool_decide (0 < length cmds) then Commands.join ", " cmds
        else "none" in
      (λ u, "Phone control: armed (" +:+ u +:+ ")." +:+ Commands.newline
            +:+ "Temporarily allowed: " +:+ cmdLabel) <$> until
  end.

(** One round of the loop of the arm branch (lines 397-405), on the two sets
    and the two arrays. *)
Definition armStep
    (st : (gset string * gset string) * (list string * list string))
    (cmd : string)
    : (gset string * gset string) * (list string * list string) :=
  let allowed :=
    if bool_decide (cmd ∈ st.1.1) then (st.1.1, st.2.1)
    else ({[cmd]} ∪ st.1.1, st.2.1 ++ [cmd]) in
  let denied :=
    if bool_decide (cmd ∈ st.1.2) then (st.1.2 ∖ {[cmd]}, st.2.2 ++ [cmd])
    else (st.1.2, st.2.2) in
  ((allowed.1, denied.1), (allowed.2, denied.2)).

(** The arm branch of the command handler once the group is known (lines
    387-428): the text of the reply, where [formatDuration] gives one, and
    the files afterwards. *)
Definition armNow (group : ArmGroup) (duration : option string) (now : N)
    (w : World) : option string * World :=
  let durationMs :=
    Js.nullish (parseDurationMs duration) (finite (10 * 60000)) in
  let expiresAtMs := plus now durationMs in
  let commands := resolveCommandsForGroup group in
  let cfg := config w in
  let allowSet : gset string := list_to_set (normalizeAllowList cfg) in
  let denySet : gset string := list_to_set (normalizeDenyList cfg) in
  let st := fold_left armStep commands ((allowSet, denySet), ([], [])) in
  let next :=
    patchConfigNodeLists cfg (uniqSorted (elements st.1.1))
      (uniqSorted (elements st.1.2)) in
  let state :=
    ArmStateFileV2 now (jsonNumber expiresAtMs) group (uniqSorted commands)
      (uniqSorted st.2.1) (uniqSorted st.2.2) in
  ((λ d, "Phone control: armed for " +:+ d +:+ "." +:+ Commands.newline
         +:+ "Temporarily allowed: "
         +:+ Commands.join ", " (uniqSorted commands)
         +:+ Commands.newline +:+ "To disarm early: /phone disarm")
   <$> formatDuration durationMs,
   {| config := next; armState := Some state |}).

(** [args.split(/\s+/).filter(Boolean)]: the maximal runs of characters
    that are not white space; [cur] is the run being read and [skip] the
    number of bytes left of the white space character being passed. *)
Fixpoint tokensFrom (skip : nat) (cur : option string) (s : string)
    : list string :=
  match s with
  | EmptyString => option_list cur
  | String c rest =>
      match skip with
      | S k => tokensFrom k cur rest
      | 0 =>
          match Js.matchLength Js.whiteBytes s with
          | Some (S k) => option_list cur ++ tokensFrom k None rest
          | _ =>
              tokensFrom 0
                (Some (Js.nullish cur EmptyString +:+ String c EmptyString))
                rest
          end
      end
  end.

Definition tokensOf (s : string) : list string := tokensFrom 0 None s.

(** The handler of the [/phone] command: the text of the reply, where the
    embedding gives one, and the files afterwards. *)
Definition handler (args : option string) (now : N) (w : World)
    : option string * World :=
  let tokens := tokensOf (Js.nullish (Js.trim <$> args) EmptyString) in
  let action := Js.nullish (JsText.toLowerCase <$> tokens !! 0) EmptyString in
  if negb (Js.truthy action) || bool_decide (action = "help") then
    ((λ status, status +:+ Commands.newline +:+ Commands.newline
                +:+ formatHelp) <$> formatStatus (armState w) now, w)
  else if bool_decide (action = "status") then
    (formatStatus (armState w) now, w)
  else if bool_decide (action = "disarm") then
    let '(res, w') := disarmNow w in
    if negb (changed res) then (Some "Phone control: disarmed.", w')
    else
      let restoredLabel :=
        if bool_decide (0 < length (restored res))
        then Commands.join ", " (restored res) else "none" in
      let removedLabel :=
        if bool_decide (0 < length (removed res))
        then Commands.join ", " (removed res) else "none" in
      (Some ("Phone control: disarmed." +:+ Commands.newline
             +:+ "Removed allowlist: " +:+ removedLabel +:+ Commands.newline
             +:+ "Restored denylist: " +:+ restoredLabel), w')
  else if bool_decide (action = "arm") then
    match parseGroup (tokens !! 1) with
    | None =>
        (Some ("Usage: /phone arm <group> [duration]" +:+ Commands.newline
               +:+ "Groups: " +:+ formatGroupList), w)
    | Some group => armNow group (tokens !! 2) now w
    end
  else (Some formatHelp, w).

(** One tick of the expiry timer at the time [now]. *)
Definition tick (now : N) (w : World) : World :=
  match armState w with
  | None => w
  | Some state =>
      match expiresAtMs state with
      | None => w
      | Some e => if bool_decide (now < e)%N then w else (disarmNow w).2
      end
  end.

(** *** Vocabulary of the properties *)

(** The [Set] that [uniqSorted] builds from its argument. *)
Definition normSet (values : list string) : gset string :=
  list_to_set (JsText.filterTruthy (Js.trim <$> values)).

(** Every name of [X] is trimmed and not blank. *)
Definition clean (X : gset string) : Prop :=
  ∀ x, x ∈ X → Js.truthy x = true ∧ Js.trim x = x.

(** The allow list and the deny list of a configuration, normalised. *)
Definition allowSet (cfg : Config) : gset string :=
  normSet (Js.nullish (allowCommands cfg) []).

Definition denySet (cfg : Config) : gset string :=
  normSet (Js.nullish (denyCommands cfg) []).

End PhoneControl.

(** * Properties *)

(** ** Record bookkeeping *)

Lemma set_cwd_restore (d : string) (s : State) :
  set_cwd (cwd s) (set_cwd d s) = s.
Proof. by destruct s. Qed.

Lemma set_cwd_twice (d d' : string) (s : State) :
  set_cwd d' (set_cwd d s) = set_cwd d' s.
Proof. done. Qed.

(** ** The executor *)

Section ExecutorFacts.

Context (H : Helpers).

Lemma abortRun_keeps_order (isTimeout : bool) (f : AbortFlags) :
  (timedOut f = true → aborted f = true) →
  timedOut (abortRun isTimeout f) = true →
  aborted (abortRun isTimeout f) = true.
Proof. done. Qed.

Lemma fold_abortRun_order (l : list bool) (f : AbortFlags) :
  (timedOut f = true → aborted f = true) →
  timedOut (fold_left (λ f b, abortRun b f) l f) = true →
  aborted (fold_left (λ f b, abortRun b f) l f) = true.
Proof.
  revert f. induction l as [|b l IH]; intros f Hf; simpl; [done |].
  apply IH. by apply abortRun_keeps_order.
Qed.

(** The timer is the only writer of [timedOut], and it goes through
    [abortRun]: a timed-out attempt is an aborted attempt. *)
Lemma attemptFlags_timedOut (sc : AttemptScript) :
  timedOut (attemptFlags sc) = true → aborted (attemptFlags sc) = true.
Proof.
  unfold attemptFlags. apply fold_abortRun_order.
  by destruct (as_signalAborted sc).
Qed.

(** The scoped region touches nothing of the state but the working
    directory. *)
Lemma attemptScoped_state (sc : AttemptScript) (s : State) :
  ∃ d, (attemptScoped H sc s).2 = set_cwd d s.
Proof.
  unfold attemptScoped.
  destruct (as_strayChdir sc) as [d|].
  - exists d. by repeat case_match.
  - exists (cwd s). repeat case_match; by destruct s.
Qed.

(** Scoped acquire and release: whatever happened to the working directory
    inside, the attempt leaves the state as it found it. *)
Lemma runEmbeddedAttempt_state (sc : AttemptScript) (s : State) :
  (runEmbeddedAttempt H sc s).2 = s.
Proof.
  unfold runEmbeddedAttempt. destruct (as_prepareError sc); [done |].
  destruct (attemptScoped_state sc (set_cwd (as_effectiveWorkspace sc) s))
    as [d Hd].
  destruct (attemptScoped H sc _) as [r s2]. simpl in *. subst s2.
  by rewrite set_cwd_twice, set_cwd_restore.
Qed.

Lemma runEmbeddedAttempt_flags (sc : AttemptScript) (s s' : State)
    (attempt : AttemptResult) :
  runEmbeddedAttempt H sc s = (Returned attempt, s') →
  ar_aborted attempt = aborted (attemptFlags sc)
  ∧ ar_timedOut attempt = timedOut (attemptFlags sc).
Proof.
  unfold runEmbeddedAttempt, attemptScoped. intros Hrun.
  repeat case_match; simplify_eq; done.
Qed.

Lemma runEmbeddedAttempt_timedOut (sc : AttemptScript) (s s' : State)
    (attempt : AttemptResult) :
  runEmbeddedAttempt H sc s = (Returned attempt, s') →
  ar_timedOut attempt = true → ar_aborted attempt = true.
Proof.
  intros Hrun. destruct (runEmbeddedAttempt_flags _ _ _ _ Hrun) as [-> ->].
  apply attemptFlags_timedOut.
Qed.

End ExecutorFacts.

(** ** The credential rotation controller *)

Section Controller.

Context (E : Env) (model : Model).

Local Abbreviation candidates := (profileCandidates E).

Lemma applyApiKeyInfo_spec (candidate : option string) (s : State) :
  let r := applyApiKeyInfo E model candidate s in
  keepsRun s r.2
  ∧ resolveLog r.2 = resolveLog s ++ [candidate]
  ∧ match r.1 with
    | Returned _ =>
        ∃ info, getApiKeyForModel (collaborators E) candidate = inr info
                ∧ lastProfileId r.2 = ak_profileId info
    | Threw _ => lastProfileId r.2 = lastProfileId s
    end.
Proof.
  unfold applyApiKeyInfo, keepsRun.
  destruct (getApiKeyForModel _ candidate) as [err|info] eqn:Hkey; simpl.
  { done. }
  case_bool_decide; [destruct (resolveCopilotApiToken _ _) |]; simpl;
    eauto 10.
Qed.

Lemma advanceFrom_spec (rest : list (option string)) (next : nat) (s : State) :
  let r := advanceFrom E model rest next s in
  cwd r.2 = cwd s ∧ storeLog r.2 = storeLog s ∧ attemptLog r.2 = attemptLog s
  ∧ (∃ k, resolveLog r.2 = resolveLog s ++ take k rest)
  ∧ match r.1 with
    | Returned true =>
        ∃ k candidate info,
          rest !! k = Some candidate
          ∧ profileIndex r.2 = next + k
          ∧ thinkLevel r.2 = initialThinkLevel E
          ∧ attemptedThinking r.2 = ∅
          ∧ getApiKeyForModel (collaborators E) candidate = inr info
          ∧ lastProfileId r.2 = ak_profileId info
    | _ =>
        profileIndex r.2 = profileIndex s
        ∧ thinkLevel r.2 = thinkLevel s
        ∧ attemptedThinking r.2 = attemptedThinking s
        ∧ lastProfileId r.2 = lastProfileId s
    end.
Proof.
  revert next s. induction rest as [|candidate rest IH]; intros next s; simpl.
  { repeat split; try done. exists 0. by rewrite app_nil_r. }
  pose proof (applyApiKeyInfo_spec candidate s) as Happly. simpl in Happly.
  destruct (applyApiKeyInfo E model candidate s) as [[[]|err] s1]; simpl in *.
  - destruct Happly as ((? & ? & ? & ? & ? & ?) & Hlog & info & ? & ?).
    repeat split; try done.
    + exists 1. by rewrite Hlog.
    + exists 0, candidate, info. rewrite Nat.add_0_r. done.
  - destruct Happly as ((Hi & Hl & Ha & ? & ? & ?) & Hlog & Hpid).
    destruct (Js.truthy_opt candidate && Js.strict_eq candidate _); simpl.
    { repeat split; try done. exists 1. by rewrite Hlog. }
    specialize (IH (S next) s1).
    destruct (advanceFrom E model rest (S next) s1) as [r s2]; simpl in *.
    destruct IH as (? & ? & ? & [k Hk] & Hr).
    repeat split; try congruence.
    + exists (S k). rewrite Hk, Hlog, <-app_assoc. done.
    + destruct r as [[]|]; try (intuition congruence).
      destruct Hr as (k' & c' & info & ? & ? & ?).
      exists (S k'), c', info. split; [done |]. split; [lia | done].
Qed.

(** [advanceAuthProfile] only moves forward, stays in range, and leaves the
    run as it was when it does not rotate. *)
Lemma advanceAuthProfile_spec (s : State) :
  let r := advanceAuthProfile E model s in
  cwd r.2 = cwd s ∧ storeLog r.2 = storeLog s ∧ attemptLog r.2 = attemptLog s
  ∧ (∃ tried, resolveLog r.2 = resolveLog s ++ tried
              ∧ Forall (λ c, c ∈ candidates) tried)
  ∧ match r.1 with
    | Returned true =>
        profileIndex s < profileIndex r.2
        ∧ profileIndex r.2 < length candidates
        ∧ thinkLevel r.2 = initialThinkLevel E
        ∧ attemptedThinking r.2 = ∅
        ∧ holdsCredential E (profileIndex r.2) (lastProfileId r.2)
    | _ =>
        profileIndex r.2 = profileIndex s
        ∧ thinkLevel r.2 = thinkLevel s
        ∧ attemptedThinking r.2 = attemptedThinking s
        ∧ lastProfileId r.2 = lastProfileId s
    end.
Proof.
  unfold advanceAuthProfile.
  pose proof (advanceFrom_spec (drop (S (profileIndex s)) candidates)
                (S (profileIndex s)) s) as Hspec. simpl in Hspec.
  destruct (advanceFrom E model _ _ s) as [r s']; simpl in *.
  destruct Hspec as (? & ? & ? & [k Hk] & Hr).
  repeat split; try done.
  - eexists. split; [exact Hk |].
    apply Forall_forall. intros c Hc.
    apply elem_of_take in Hc as (i & Hc & _).
    rewrite lookup_drop in Hc. by eapply list_elem_of_lookup_2.
  - destruct r as [[]|]; try done.
    destruct Hr as (k' & c' & info & Hlook & Hidx & ? & ? & Hkey & Hpid).
    rewrite lookup_drop in Hlook.
    repeat split; try done; try lia.
    + apply lookup_lt_Some in Hlook. lia.
    + exists info. split; [| done].
      replace (profileIndex s') with (S (profileIndex s) + k') by lia.
      by rewrite Hlook.
Qed.

End Controller.

(** ** Every turn of the loop is one of the four kinds *)

Section Turns.

Context (E : Env) (model : Model).

Lemma invokeExecutor_state (s : State) :
  (invokeExecutor E s).2 = log_attempt s.
Proof. apply runEmbeddedAttempt_state. Qed.

Lemma attemptedOnce_start (s : State) :
  attemptedOnce E s (log_attempt (enterTurn s)).
Proof.
  unfold attemptedOnce; simpl. repeat split; try done.
  - exists []. by rewrite app_nil_r.
  - exists []. by rewrite app_nil_r.
Qed.

Lemma attemptedOnce_store (op : StoreOp) (s s' : State) :
  attemptedOnce E s s' → attemptedOnce E s (log_store op s').
Proof.
  unfold attemptedOnce; simpl.
  intros (? & ? & ? & ? & ? & ? & [ops Hops] & ?).
  repeat split; try done.
  exists (ops ++ [op]). by rewrite Hops, app_assoc.
Qed.

Lemma attemptedOnce_advance (s s1 : State) :
  attemptedOnce E s s1 →
  (advanceAuthProfile E model s1).1 ≠ Returned true →
  attemptedOnce E s (advanceAuthProfile E model s1).2.
Proof.
  intros (Hi & Hl & Hp & Ha & Hc & Hlog & Hst & tried & Hres & Htried) Hr.
  pose proof (advanceAuthProfile_spec E model s1) as Hspec. simpl in Hspec.
  destruct (advanceAuthProfile E model s1) as [r s2]; simpl in *.
  destruct Hspec as (? & ? & ? & (tried' & Hres' & Htried') & Hkeep).
  assert (profileIndex s2 = profileIndex s1
          ∧ thinkLevel s2 = thinkLevel s1
          ∧ attemptedThinking s2 = attemptedThinking s1
          ∧ lastProfileId s2 = lastProfileId s1) as (? & ? & ? & ?).
  { destruct r as [[]|]; done. }
  destruct Hst as [ops Hops].
  unfold attemptedOnce. repeat split; try congruence.
  - exists ops. congruence.
  - exists (tried ++ tried'). split.
    + by rewrite Hres', Hres, app_assoc.
    + by apply Forall_app.
Qed.

Lemma finishRun_turn (attempt : AttemptResult) (s s1 : State) :
  attemptedOnce E s s1 → turn E model s (finishRun E model attempt s1).
Proof.
  intros Honce. unfold finishRun.
  apply turn_stop.
  destruct (lastProfileId s1) as [pid|]; [| done].
  destruct (Js.truthy pid); [| done].
  by do 2 apply attemptedOnce_store.
Qed.

Lemma afterRotation_turn (attempt : AttemptResult) (s s1 : State) :
  attemptedOnce E s s1 →
  turn E model s
    (afterRotation E model attempt (advanceAuthProfile E model s1)).
Proof.
  intros Honce.
  pose proof (attemptedOnce_advance s s1 Honce) as Hkeep.
  unfold afterRotation.
  destruct (advanceAuthProfile E model s1) as [[[]|e] s2] eqn:Hadv;
    simpl in Hkeep.
  - by eapply turn_rotate.
  - destruct (fallbackConfigured E).
    + apply turn_stop. by apply Hkeep.
    + apply finishRun_turn. by apply Hkeep.
  - apply turn_stop. by apply Hkeep.
Qed.

Lemma onCompleted_turn (attempt : AttemptResult) (s s1 : State) :
  attemptedOnce E s s1 → turn E model s (onCompleted E model attempt s1).
Proof.
  intros Honce. unfold onCompleted.
  assert (turn E model s
            (if shouldRotate E attempt
             then afterRotation E model attempt
                    (advanceAuthProfile E model
                       (recordRotationFailure E attempt s1))
             else finishRun E model attempt s1)) as Hrest.
  { destruct (shouldRotate _ attempt).
    - apply afterRotation_turn. unfold recordRotationFailure.
      destruct (lastProfileId s1) as [pid|]; [| done].
      destruct (Js.truthy pid); [| done].
      by apply attemptedOnce_store.
    - by apply finishRun_turn. }
  destruct (pickFallbackThinkingLevel _ _ _) as [level|] eqn:Hpick;
    [| done].
  destruct (ar_aborted attempt); [done |].
  by eapply turn_downgrade.
Qed.

Lemma onPromptError_turn (attempt : AttemptResult) (pe : Thrown)
    (s s1 : State) :
  attemptedOnce E s s1 → turn E model s (onPromptError E model attempt pe s1).
Proof.
  intros Honce. unfold onPromptError.
  destruct (isContextOverflowError _ _); [by apply turn_stop |].
  set (reason := classifyFailoverReason _ _).
  set (marked := match reason, lastProfileId s1 with
                 | Some r, Some pid => _
                 | _, _ => s1
                 end).
  assert (attemptedOnce E s marked) as Hmarked.
  { subst marked. destruct reason as [r|]; [| done].
    destruct (lastProfileId s1) as [pid|]; [| done].
    destruct (_ && _); [| done]. by apply attemptedOnce_store. }
  clearbody marked.
  pose proof (attemptedOnce_advance s marked Hmarked) as Hkeep.
  set (rotated := if _ && _ then _ else _).
  assert (rotated = advanceAuthProfile E model marked
          ∨ rotated = (Returned false, marked)) as [-> | ->].
  { subst rotated. destruct (_ && _); auto. }
  - destruct (advanceAuthProfile E model marked) as [[[]|e] s2] eqn:Hadv;
      simpl in Hkeep.
    + by eapply turn_rotate.
    + destruct (pickFallbackThinkingLevel _ _ _) eqn:Hpick.
      * eapply turn_downgrade; [by apply Hkeep | done].
      * apply turn_stop. by apply Hkeep.
    + apply turn_stop. by apply Hkeep.
  - destruct (pickFallbackThinkingLevel _ _ _) eqn:Hpick.
    + by eapply turn_downgrade.
    + by apply turn_stop.
Qed.

Lemma loopBody_turn (s : State) : turn E model s (loopBody E model s).
Proof.
  unfold loopBody.
  destruct (mkdirWorkspace _ _); [apply turn_idle |].
  pose proof (invokeExecutor_state (enterTurn s)) as Hstate.
  destruct (invokeExecutor E (enterTurn s)) as [[attempt|e] s2];
    simpl in Hstate; subst s2.
  - destruct (promptError attempt) as [pe|].
    + destruct (ar_aborted attempt).
      * apply onCompleted_turn, attemptedOnce_start.
      * apply onPromptError_turn, attemptedOnce_start.
    + apply onCompleted_turn, attemptedOnce_start.
  - apply turn_stop, attemptedOnce_start.
Qed.

End Turns.

(** ** Invariants of the loop *)

Lemma size_levels (X : gset ThinkLevel) : size X ≤ ladderLength.
Proof.
  transitivity (size (list_to_set (C := gset ThinkLevel) (enum ThinkLevel))).
  - apply subseteq_size. intros l _. apply elem_of_list_to_set, elem_of_enum.
  - rewrite size_list_to_set by apply NoDup_enum. done.
Qed.

Lemma size_fresh_level (l : ThinkLevel) (X : gset ThinkLevel) :
  l ∉ X → size ({[l]} ∪ X) = S (size X) ∧ size X < ladderLength.
Proof.
  intros Hl.
  assert (size ({[l]} ∪ X) = S (size X)) as Hsize.
  { rewrite size_union by set_solver. by rewrite size_singleton. }
  split; [done |]. pose proof (size_levels ({[l]} ∪ X)). lia.
Qed.

Section Invariants.

Context (E : Env) (model : Model).

Local Abbreviation candidates := (profileCandidates E).

Lemma profileCandidates_nonempty : 0 < length candidates.
Proof.
  unfold profileCandidates. case_bool_decide; [| simpl; lia].
  by rewrite length_fmap.
Qed.

Lemma Traversal_once (s s' : State) :
  Traversal E s → attemptedOnce E s s' → Traversal E s'.
Proof.
  intros (Hidx & Hcred & Hlog & Hsorted & Hres).
  intros (Hi & _ & Hp & _ & _ & Hlog' & _ & tried & Hres' & Htried).
  unfold Traversal. rewrite Hi, Hp, Hlog', Hres'.
  repeat split; try done.
  - apply Forall_app. split; [done |].
    apply Forall_singleton. by repeat split.
  - rewrite fmap_app. apply StronglySorted_app. split; [| split; [done |]].
    + intros i j Hin Hj. apply list_elem_of_singleton in Hj as ->.
      apply list_elem_of_fmap in Hin as (a & -> & Ha).
      rewrite Forall_forall in Hlog. by apply Hlog.
    + repeat constructor.
  - by apply Forall_app.
Qed.

Lemma Traversal_rotate (s s' : State) :
  Traversal E s →
  advanceAuthProfile E model s = (Returned true, s') →
  Traversal E s'.
Proof.
  intros (Hidx & Hcred & Hlog & Hsorted & Hres) Hadv.
  pose proof (advanceAuthProfile_spec E model s) as Hspec.
  rewrite Hadv in Hspec. simpl in Hspec.
  destruct Hspec as (_ & _ & Hlog' & (tried & Hres' & Htried)
                     & Hlt & Hrange & _ & _ & Hcred').
  unfold Traversal. rewrite Hlog', Hres'. repeat split; try done.
  - eapply Forall_impl; [exact Hlog |]. simpl. intros a [? ?].
    split; [lia | done].
  - by apply Forall_app.
Qed.

Lemma Traversal_turn (s : State) (st : Step) :
  Traversal E s → turn E model s st → Traversal E (stepState st).
Proof.
  intros Hinv [c | c s' Honce | message level s' Honce _ | s1 s' Honce Hadv];
    simpl.
  - exact Hinv.
  - by eapply Traversal_once.
  - by apply (Traversal_once s s').
  - eapply Traversal_rotate; [| done]. by eapply Traversal_once.
Qed.

Lemma Ladder_once (s s' : State) :
  Ladder s → freshLevel s → attemptedOnce E s s' → Ladder s'.
Proof.
  intros (Hlog & Hnodup) Hfresh.
  intros (Hi & _ & _ & Ha & _ & Hlog' & _).
  unfold Ladder. rewrite Hi, Ha, Hlog'. split.
  - apply Forall_app. split.
    + eapply Forall_impl; [exact Hlog |]. simpl. intros a [? Hin].
      split; [done |]. intros Heq. apply elem_of_union_r. by apply Hin.
    + apply Forall_singleton. simpl. split; [done |]. intros _.
      apply elem_of_union_l. by apply elem_of_singleton.
  - rewrite fmap_app. apply NoDup_app. repeat split; try done.
    + intros [i l] Hin Hnew. apply list_elem_of_singleton in Hnew.
      apply list_elem_of_fmap in Hin as (a & Heq & Hin).
      rewrite Forall_forall in Hlog. destruct (Hlog a Hin) as [_ Hlevel].
      simpl in Hnew. injection Hnew as -> ->. injection Heq as Hia Hla.
      apply Hfresh. rewrite Hla. apply Hlevel. by rewrite Hia.
    + apply NoDup_singleton.
Qed.

Lemma Ladder_rotate (s s' : State) :
  Ladder s →
  advanceAuthProfile E model s = (Returned true, s') →
  Ladder s' ∧ freshLevel s'.
Proof.
  intros (Hlog & Hnodup) Hadv.
  pose proof (advanceAuthProfile_spec E model s) as Hspec.
  rewrite Hadv in Hspec. simpl in Hspec.
  destruct Hspec as (_ & _ & Hlog' & _ & Hlt & _ & _ & Hempty & _).
  unfold Ladder, freshLevel. rewrite Hlog', Hempty. repeat split; try done.
  eapply Forall_impl; [exact Hlog |]. simpl. intros a [? _].
  split; lia.
Qed.

Lemma Ladder_turn (s : State) (st : Step) :
  picksFresh (helpers E) →
  Ladder s → freshLevel s → turn E model s st →
  Ladder (stepState st)
  ∧ match st with
    | Continue s' => freshLevel s'
    | Stop _ _ => True
    end.
Proof.
  intros Hpick Hinv Hfresh
    [c | c s' Honce | message level s' Honce Hlevel | s1 s' Honce Hadv];
    simpl.
  - split; [| done]. destruct Hinv as [Hlog Hnodup]. split; [| done].
    eapply Forall_impl; [exact Hlog |]. simpl. intros a [? Hin].
    split; [done |]. intros Heq. apply elem_of_union_r. by apply Hin.
  - split; [| done]. by eapply Ladder_once.
  - split; [by apply (Ladder_once s s') |]. by eapply Hpick.
  - eapply Ladder_rotate; [| done]. by eapply Ladder_once.
Qed.

(** Every turn that asks for another one makes exactly one attempt and
    lowers the variant. *)
Lemma attemptsLeft_turn (s s' : State) :
  Traversal E s → freshLevel s → turn E model s (Continue s') →
  attemptsLeft E s' < attemptsLeft E s
  ∧ length (attemptLog s') = S (length (attemptLog s)).
Proof.
  intros (Hidx & _) Hfresh Hturn.
  destruct (size_fresh_level _ _ Hfresh) as [Hsize Hroom].
  inversion Hturn as [| | message level s1 Honce _ | s1 s2 Honce Hadv];
    subst.
  - destruct Honce as (Hi & _ & _ & Ha & _ & Hlog & _).
    unfold attemptsLeft; simpl. rewrite Hi, Ha, Hsize, Hlog, length_app.
    split; [lia | simpl; lia].
  - destruct Honce as (Hi & _ & _ & _ & _ & Hlog & _).
    pose proof (advanceAuthProfile_spec E model s1) as Hspec.
    rewrite Hadv in Hspec. simpl in Hspec.
    destruct Hspec as (_ & _ & Hlog' & _ & Hlt & Hrange & _ & Hempty & _).
    unfold attemptsLeft. rewrite Hempty, size_empty, Hlog', Hlog, length_app.
    split; [| simpl; lia].
    assert (S (length candidates - S (profileIndex s'))
            ≤ length candidates - S (profileIndex s)) as Hle by lia.
    apply (Nat.mul_le_mono_r _ _ ladderLength) in Hle. lia.
Qed.

Lemma attemptsLeft_pos (s : State) : freshLevel s → 0 < attemptsLeft E s.
Proof.
  intros Hfresh. destruct (size_fresh_level _ _ Hfresh) as [_ Hroom].
  unfold attemptsLeft. apply Nat.lt_lt_add_l. lia.
Qed.

Lemma turn_attempts (s : State) (st : Step) :
  turn E model s st →
  length (attemptLog (stepState st)) ≤ S (length (attemptLog s)).
Proof.
  intros [c | c s' Honce | message level s' Honce _ | s1 s' Honce Hadv];
    simpl; [lia | | |].
  - destruct Honce as (_ & _ & _ & _ & _ & -> & _).
    rewrite length_app. simpl. lia.
  - destruct Honce as (_ & _ & _ & _ & _ & -> & _).
    rewrite length_app. simpl. lia.
  - pose proof (advanceAuthProfile_spec E model s1) as Hspec.
    rewrite Hadv in Hspec. simpl in Hspec.
    destruct Hspec as (_ & _ & -> & _).
    destruct Honce as (_ & _ & _ & _ & _ & -> & _).
    rewrite length_app. simpl. lia.
Qed.

End Invariants.

(** ** Whole runs *)

Lemma StronglySorted_le_lookup (l : list nat) (i j x y : nat) :
  StronglySorted le l → i ≤ j → l !! i = Some x → l !! j = Some y → x ≤ y.
Proof.
  intros Hsorted. revert i j.
  induction Hsorted as [|a l Hsorted IH Hall]; intros i j Hij Hi Hj.
  { by rewrite lookup_nil in Hi. }
  destruct i as [|i], j as [|j]; simpl in *; simplify_eq; try lia.
  - rewrite Forall_forall in Hall. apply Hall.
    by eapply list_elem_of_lookup_2.
  - eapply (IH i j); [lia | done | done].
Qed.

Section Runs.

Context (E : Env).

Local Abbreviation candidates := (profileCandidates E).

Lemma retryLoop_Traversal (model : Model) (fuel : nat) (s s' : State)
    (c : Completion EmbeddedPiRunResult) :
  Traversal E s → retryLoop E model fuel s = Some (c, s') → Traversal E s'.
Proof.
  revert s. induction fuel as [|fuel IH]; intros s Hinv Hrun; [done |].
  simpl in Hrun.
  pose proof (Traversal_turn E model s _ Hinv (loopBody_turn E model s))
    as Hnext.
  destruct (loopBody E model s) as [s1 | c1 s1]; simpl in Hnext.
  - by eapply IH.
  - by simplify_eq.
Qed.

(** A finished loop was ended by a turn. *)
Lemma retryLoop_last (model : Model) (fuel : nat) (s s' : State)
    (c : Completion EmbeddedPiRunResult) :
  retryLoop E model fuel s = Some (c, s') →
  ∃ sl, loopBody E model sl = Stop c s'.
Proof.
  revert s. induction fuel as [|fuel IH]; intros s Hrun; [done |].
  simpl in Hrun.
  destruct (loopBody E model s) as [s1 | c1 s1] eqn:Hbody.
  - by eapply IH.
  - simplify_eq. by exists s.
Qed.

Lemma retryLoop_more_fuel (model : Model) (fuel fuel' : nat) (s : State)
    (r : Completion EmbeddedPiRunResult * State) :
  retryLoop E model fuel s = Some r → fuel ≤ fuel' →
  retryLoop E model fuel' s = Some r.
Proof.
  revert fuel' s. induction fuel as [|fuel IH]; intros fuel' s Hrun Hle;
    [done |].
  destruct fuel' as [|fuel']; [lia |]. simpl in *.
  destruct (loopBody E model s); [| done].
  apply IH; [done | lia].
Qed.

(** The loop ends within [attemptsLeft] turns, keeps both invariants, and
    makes at most [attemptsLeft] further attempts. *)
Lemma retryLoop_terminates (model : Model) (fuel : nat) (s : State) :
  picksFresh (helpers E) →
  Traversal E s → Ladder s → freshLevel s →
  attemptsLeft E s ≤ fuel →
  ∃ c s',
    retryLoop E model fuel s = Some (c, s')
    ∧ Traversal E s' ∧ Ladder s'
    ∧ length (attemptLog s') ≤ length (attemptLog s) + attemptsLeft E s.
Proof.
  intros Hpick. revert s.
  induction fuel as [|fuel IH]; intros s Htrav Hlad Hfresh Hfuel.
  { pose proof (attemptsLeft_pos E s Hfresh). lia. }
  pose proof (loopBody_turn E model s) as Hturn.
  pose proof (Traversal_turn E model s _ Htrav Hturn) as Htrav'.
  pose proof (Ladder_turn E model s _ Hpick Hlad Hfresh Hturn)
    as [Hlad' Hfresh'].
  pose proof (turn_attempts E model s _ Hturn) as Hcount.
  pose proof (attemptsLeft_pos E s Hfresh) as Hpos.
  simpl. destruct (loopBody E model s) as [s1 | c1 s1]; simpl in *.
  - destruct (attemptsLeft_turn E model s s1 Htrav Hfresh Hturn)
      as [Hless Hone].
    assert (attemptsLeft E s1 ≤ fuel) as Hfuel' by lia.
    destruct (IH s1 Htrav' Hlad' Hfresh' Hfuel')
      as (c & s' & Hrun & ? & ? & Hlen).
    exists c, s'. split_and!; [done | done | done | lia].
  - exists c1, s1. split_and!; [done | done | done | lia].
Qed.

Lemma resolveInitial_spec (model : Model) (startCwd : string) :
  let r := resolveInitial E model (initialState E startCwd) in
  cwd r.2 = startCwd ∧ storeLog r.2 = [] ∧ attemptLog r.2 = []
  ∧ Forall (λ c, c ∈ candidates) (resolveLog r.2)
  ∧ match r.1 with
    | Returned _ =>
        profileIndex r.2 < length candidates
        ∧ holdsCredential E (profileIndex r.2) (lastProfileId r.2)
        ∧ thinkLevel r.2 = initialThinkLevel E
        ∧ attemptedThinking r.2 = ∅
    | Threw _ => True
    end.
Proof.
  unfold resolveInitial.
  change (profileIndex (initialState E startCwd)) with 0.
  pose proof profileCandidates_nonempty E as Hne.
  destruct candidates as [|first rest] eqn:Hcands; [simpl in Hne; lia |].
  simpl (mjoin _).
  assert (Forall (λ c, c ∈ first :: rest) [first]) as Hfirst.
  { apply Forall_singleton, list_elem_of_here. }
  pose proof (applyApiKeyInfo_spec E model first (initialState E startCwd))
    as Happly.
  destruct (applyApiKeyInfo E model first _) as [[[]|err] s1].
  - destruct Happly as ((Hi & Hl & Ha & ? & ? & ?) & Hlog & info & ? & ?).
    simpl in *. rewrite Hlog, Hi. split_and!; try done.
    exists info. by rewrite Hcands.
  - destruct Happly as ((Hi & Hl & Ha & ? & ? & ?) & Hlog & Hpid).
    simpl in *.
    destruct (Js.strict_eq first _); simpl.
    { rewrite Hlog. by split_and!. }
    pose proof (advanceAuthProfile_spec E model s1) as Hspec.
    rewrite Hcands in Hspec.
    destruct (advanceAuthProfile E model s1) as [[[]|e] s2]; simpl in *;
      destruct Hspec as (? & ? & ? & (tried & Hres & Htried) & Hkeep);
      rewrite Hres, Hlog;
      (split_and!; try congruence; try done; try (by apply Forall_app)).
    all: by destruct Hkeep as (? & ? & ? & ? & ?).
Qed.

(** Past the admission checks, the run is the loop. *)
Lemma startsLoop_run (model : Model) (fuel : nat) (startCwd : string) :
  startsLoop E model →
  runEmbeddedPiAgent E fuel startCwd
  = runLoop E model fuel (initialState E startCwd) startCwd.
Proof.
  intros (Hensure & Hmodel & Htokens & Hpinned).
  unfold runEmbeddedPiAgent. rewrite Hensure.
  destruct (resolveModel _ _ _) as [m err]. simpl in Hmodel. subst m.
  unfold evaluateContextWindowGuard; simpl.
  rewrite bool_decide_eq_false_2 by lia.
  destruct (explicitProfileId E) as [pid|]; [| done].
  destruct (Js.truthy pid); [| done]. simpl.
  by rewrite bool_decide_eq_true_2 by auto.
Qed.

(** A run that ends either never reached the credentials, or is the loop of
    some resolved model. *)
Lemma run_inversion (fuel : nat) (startCwd : string)
    (c : Completion EmbeddedPiRunResult) (s : State) :
  runEmbeddedPiAgent E fuel startCwd = Some (c, s) →
  (s = initialState E startCwd ∧ ∃ e, c = Threw e)
  ∨ ∃ model, runLoop E model fuel (initialState E startCwd) startCwd
             = Some (c, s).
Proof.
  unfold runEmbeddedPiAgent. intros Hrun.
  repeat case_match; simplify_eq; eauto.
Qed.

End Runs.

(** ** Single turns *)

Lemma loopBody_yields (E : Env) (model : Model) (s : State)
    (attempt : AttemptResult) :
  attemptYields E s attempt →
  loopBody E model s
  = match promptError attempt, ar_aborted attempt with
    | Some pe, false =>
        onPromptError E model attempt pe (log_attempt (enterTurn s))
    | _, _ => onCompleted E model attempt (log_attempt (enterTurn s))
    end.
Proof.
  intros [Hmkdir Hexec]. unfold loopBody.
  change (attemptLog (enterTurn s)) with (attemptLog s). rewrite Hmkdir.
  pose proof (invokeExecutor_state E (enterTurn s)) as Hstate.
  destruct (invokeExecutor E (enterTurn s)) as [r s2]. simpl in *.
  by subst.
Qed.

Lemma attemptYields_timedOut (E : Env) (s : State) (attempt : AttemptResult) :
  attemptYields E s attempt →
  ar_timedOut attempt = true → ar_aborted attempt = true.
Proof.
  intros [_ Hexec]. unfold invokeExecutor in Hexec.
  destruct (runEmbeddedAttempt _ _ _) as [r s2] eqn:Hrun. simpl in Hexec.
  subst r. by eapply runEmbeddedAttempt_timedOut.
Qed.

Lemma retryLoop_stop (E : Env) (model : Model) (s s' : State)
    (c : Completion EmbeddedPiRunResult) (fuel : nat) :
  loopBody E model s = Stop c s' →
  retryLoop E model (S fuel) s = Some (c, s').
Proof. intros Hbody. simpl. by rewrite Hbody. Qed.

Lemma recordRotationFailure_keeps (E : Env) (attempt : AttemptResult)
    (s : State) :
  profileIndex (recordRotationFailure E attempt s) = profileIndex s
  ∧ lastProfileId (recordRotationFailure E attempt s) = lastProfileId s
  ∧ resolveLog (recordRotationFailure E attempt s) = resolveLog s
  ∧ attemptLog (recordRotationFailure E attempt s) = attemptLog s.
Proof.
  unfold recordRotationFailure.
  destruct (lastProfileId s) as [pid|] eqn:Hpid; [| done].
  by destruct (Js.truthy pid).
Qed.

(** ** Turns of a run *)

Section RunTurns.

Context (E : Env) (model : Model).

(** The loop that gets to a turn which stops, stops there, whatever fuel is
    left. *)
Lemma retryLoop_reaches (n fuel : nat) (s1 s s' : State)
    (c : Completion EmbeddedPiRunResult) :
  turnStart E model n s1 = Some s →
  loopBody E model s = Stop c s' →
  n < fuel →
  retryLoop E model fuel s1 = Some (c, s').
Proof.
  revert fuel s1. induction n as [|n IH]; intros fuel s1 Hturn Hbody Hfuel;
    (destruct fuel as [|fuel]; [lia |]); simpl in *.
  - simplify_eq. by rewrite Hbody.
  - destruct (loopBody E model s1) as [s1' | c1 s1']; [| done].
    apply IH; [done | done | lia].
Qed.


(** The run whose turn [n] stops produces what that turn produces, in the
    directory it started in, as soon as the fuel covers [n] turns. *)
Lemma runReaches_stop (startCwd : string) (n fuel : nat) (s s' : State)
    (c : Completion EmbeddedPiRunResult) :
  runReaches E model startCwd n s →
  loopBody E model s = Stop c s' →
  n < fuel →
  runEmbeddedPiAgent E fuel startCwd = Some (c, set_cwd startCwd s').
Proof.
  intros (Hstarts & s1 & Hinit & Hturn) Hbody Hfuel.
  rewrite (startsLoop_run E model fuel startCwd Hstarts).
  unfold runLoop. rewrite Hinit.
  by rewrite (retryLoop_reaches n fuel s1 s s' c).
Qed.




End RunTurns.

(** ** The claims *)

(** C3. A run whose resolved context window is below the hard minimum raises
    the typed error (reason "unknown", with provider and model) before the
    first credential is resolved and before the retry loop starts: whatever
    the fuel, the executor is invoked zero times, no key is looked up and
    the store is not touched. *)
Theorem context_window_block (E : Env) (model : Model) (fuel : nat)
    (startCwd : string) :
  ensureClawdbotModelsJson (collaborators E) = None →
  (resolveModel (collaborators E) (provider E) (modelId E)).1 = Some model →
  cw_tokens (resolveContextWindowInfo (collaborators E) (provider E)
               (modelId E) (m_contextWindow model)
               (DEFAULT_CONTEXT_TOKENS (constants E)))
  < CONTEXT_WINDOW_HARD_MIN_TOKENS (constants E) →
  ∃ message s,
    runEmbeddedPiAgent E fuel startCwd
    = Some (Threw (FailoverError message
                     {| fe_reason := "unknown"; fe_provider := provider E;
                        fe_model := modelId E; fe_profileId := None;
                        fe_status := None |}), s)
    ∧ attemptLog s = [] ∧ resolveLog s = [] ∧ storeLog s = [].
Proof.
  intros Hensure Hmodel Htokens.
  unfold runEmbeddedPiAgent. rewrite Hensure.
  destruct (resolveModel _ _ _) as [m err]. simpl in Hmodel. subst m.
  unfold evaluateContextWindowGuard. simpl.
  rewrite bool_decide_eq_true_2 by done.
  eexists _, _. split; [reflexivity | done].
Qed.

Lemma context_window_block_witness :
  ∃ message s,
    runEmbeddedPiAgent Demo.tooSmall 0 "/home"
    = Some (Threw (FailoverError message
                     {| fe_reason := "unknown"; fe_provider := "anthropic";
                        fe_model := "claude"; fe_profileId := None;
                        fe_status := None |}), s)
    ∧ attemptLog s = [] ∧ resolveLog s = [] ∧ storeLog s = [].
Proof.
  apply (context_window_block Demo.tooSmall Demo.smallModel 0 "/home").
  - reflexivity.
  - reflexivity.
  - simpl. lia.
Defined.

(** C9. On every exit of a run, [return] or [throw], the working directory
    of the process is the one the run started in; and whatever an attempt
    returns or throws, and wherever its collaborators left the working
    directory, the attempt leaves it where it found it.  (The embedding is
    sequential: one run at a time changes the directory.) *)
Theorem working_directory_restored (E : Env) (fuel : nat) (startCwd : string)
    (c : Completion EmbeddedPiRunResult) (s : State) :
  runEmbeddedPiAgent E fuel startCwd = Some (c, s) →
  cwd s = startCwd
  ∧ ∀ sc s0, cwd (runEmbeddedAttempt (helpers E) sc s0).2 = cwd s0.
Proof.
  intros Hrun. split; [| intros sc s0; by rewrite runEmbeddedAttempt_state].
  apply run_inversion in Hrun as [[-> _] | [model Hloop]]; [done |].
  unfold runLoop in Hloop.
  pose proof (resolveInitial_spec E model startCwd) as (Hcwd & _).
  destruct (resolveInitial E model _) as [[[]|e] s1]; simpl in *.
  - destruct (retryLoop E model fuel s1) as [[c2 s2]|]; by simplify_eq.
  - by simplify_eq.
Qed.

Lemma working_directory_restored_witness :
  ∃ c s,
    runEmbeddedPiAgent Demo.straying 1 "/home" = Some (c, s)
    ∧ cwd s = "/home"
    ∧ cwd (attemptScoped Demo.theHelpers
             (Demo.withStrayChdir "/elsewhere" Demo.quiet)
             (Demo.ready Demo.straying)).2 = "/elsewhere".
Proof.
  eexists _, _. split; [vm_compute; reflexivity |]. split.
  - eapply proj1, (working_directory_restored Demo.straying 1 "/home").
    vm_compute. reflexivity.
  - reflexivity.
Defined.




(** C6. When a turn of a run gets back an attempt with [aborted = true] and
    [timedOut = false], the run ends there with a normal result whose meta
    says [aborted = true] and carries no error tag: nothing is thrown, the
    turn records no failure against any credential, no key is looked up (no
    rotation), the thinking level stays (no downgrade) and the attempt is the
    last one of the run. *)
Theorem external_abort_result (E : Env) (model : Model) (startCwd : string)
    (n : nat) (s : State) (attempt : AttemptResult) :
  runReaches E model startCwd n s →
  attemptYields E s attempt →
  ar_aborted attempt = true →
  ar_timedOut attempt = false →
  ∃ r s' ops,
    (∀ fuel, n < fuel →
       runEmbeddedPiAgent E fuel startCwd = Some (Returned r, s'))
    ∧ meta_aborted (meta r) = Some true
    ∧ meta_error (meta r) = None
    ∧ cwd s' = startCwd
    ∧ storeLog s' = storeLog s ++ ops ∧ noFailureRecorded ops
    ∧ resolveLog s' = resolveLog s
    ∧ profileIndex s' = profileIndex s
    ∧ thinkLevel s' = thinkLevel s
    ∧ attemptLog s' = attemptLog s ++ [currentCall s].
Proof.
  intros Hreach Hyields Haborted Htimed.
  pose proof (loopBody_yields E model s attempt Hyields) as Hbody.
  rewrite Haborted in Hbody.
  assert (loopBody E model s
          = finishRun E model attempt (log_attempt (enterTurn s))) as Hfinish.
  { rewrite Hbody. unfold onCompleted, shouldRotate.
    rewrite Haborted, Htimed. simpl.
    by destruct (promptError attempt), (pickFallbackThinkingLevel _ _ _). }
  clear Hbody. unfold finishRun in Hfinish. rewrite Haborted in Hfinish.
  set (s1 := log_attempt (enterTurn s)) in *.
  assert (∃ ops, match lastProfileId s1 with
                 | Some pid =>
                     if Js.truthy pid
                     then markAuthProfileUsed pid
                            (markAuthProfileGood E pid s1)
                     else s1
                 | None => s1
                 end = fold_left (λ st op, log_store op st) ops s1
                 ∧ noFailureRecorded ops) as (ops & Hmarked & Hops).
  { destruct (lastProfileId s1) as [pid|];
      [destruct (Js.truthy pid) |].
    - exists [MarkGood (provider E) pid; MarkUsed pid]. split; [done |].
      intros p r Hin.
      apply elem_of_cons in Hin as [? | Hin]; [done |].
      apply elem_of_cons in Hin as [? | Hin]; [done |].
      by apply elem_of_nil in Hin.
    - exists []. split; [done |]. intros p r Hin. by apply elem_of_nil in Hin.
    - exists []. split; [done |]. intros p r Hin. by apply elem_of_nil in Hin. }
  rewrite Hmarked in Hfinish.
  eexists _, _, ops. split.
  { intros fuel Hfuel.
    exact (runReaches_stop E model startCwd n fuel s _ _ Hreach Hfinish
             Hfuel). }
  split; [done |]. split; [done |]. split; [done |].
  clear Hfinish Hmarked. cbn [set_cwd storeLog resolveLog profileIndex
                               thinkLevel attemptLog].
  assert (∀ st, storeLog (fold_left (λ st op, log_store op st) ops st)
                = storeLog st ++ ops
                ∧ resolveLog (fold_left (λ st op, log_store op st) ops st)
                  = resolveLog st
                ∧ profileIndex (fold_left (λ st op, log_store op st) ops st)
                  = profileIndex st
                ∧ thinkLevel (fold_left (λ st op, log_store op st) ops st)
                  = thinkLevel st
                ∧ attemptLog (fold_left (λ st op, log_store op st) ops st)
                  = attemptLog st) as Hfold.
  { clear. induction ops as [|op ops IH]; intros st; simpl.
    - by rewrite app_nil_r.
    - destruct (IH (log_store op st)) as (-> & -> & -> & -> & ->). simpl.
      by rewrite <-app_assoc. }
  destruct (Hfold s1) as (-> & -> & -> & -> & ->). done.
Qed.

Lemma external_abort_result_witness :
  ∃ r s',
    runEmbeddedPiAgent Demo.cancelled 1 "/home" = Some (Returned r, s')
    ∧ meta_aborted (meta r) = Some true
    ∧ storeLog s' = [MarkGood "anthropic" "p1"; MarkUsed "p1"]
    ∧ length (attemptLog s') = 1.
Proof.
  destruct (external_abort_result Demo.cancelled Demo.theModel "/home" 0
              (Demo.ready Demo.cancelled)
              {| ar_aborted := true; ar_timedOut := false;
                 promptError := None;
                 sessionIdUsed := "s1"; lastAssistant := None;
                 assistantTexts := ["hello"];
                 ar_didSendViaMessagingTool := false;
                 ar_messagingToolSentTexts := [];
                 cloudCodeAssistFormatError := false |})
    as (r & s' & ops & Hrun & Haborted & _).
  - split; [| exists (Demo.ready Demo.cancelled); split; reflexivity].
    split_and!; [reflexivity | reflexivity | vm_compute; lia | done].
  - split; reflexivity.
  - reflexivity.
  - reflexivity.
  - exists r, s'. specialize (Hrun 1 (Nat.lt_0_succ 0)).
    split; [exact Hrun |]. split; [exact Haborted |].
    vm_compute in Hrun. injection Hrun as _ <-. split; reflexivity.
Defined.

(** C4, as the code has it.  An attempt that reports [timedOut = true] is an
    aborted one (the timer goes through [abortRun]), so neither the
    prompt-level error branch nor a downgrade is taken: the turn goes to the
    rotation branch whatever the error texts say.  The failure is recorded
    under [if (lastProfileId)]: with a profile id resolved for the current
    credential the store receives that profile with reason "timeout", with
    none it receives nothing.  Then [advanceAuthProfile] decides how the turn
    ends; when it finds a usable candidate the loop continues at a later
    index. *)
Theorem timeout_forces_rotation (E : Env) (model : Model) (s : State)
    (attempt : AttemptResult) :
  attemptYields E s attempt →
  ar_timedOut attempt = true →
  let marked := recordRotationFailure E attempt (log_attempt (enterTurn s)) in
  loopBody E model s
  = afterRotation E model attempt (advanceAuthProfile E model marked)
  ∧ storeLog marked
    = storeLog s ++ match lastProfileId s with
                    | Some pid =>
                        if Js.truthy pid then [MarkFailure pid "timeout"]
                        else []
                    | None => []
                    end
  ∧ ∀ s2, advanceAuthProfile E model marked = (Returned true, s2) →
          loopBody E model s = Continue s2
          ∧ profileIndex s < profileIndex s2.
Proof.
  intros Hyields Htimed marked.
  pose proof (attemptYields_timedOut E s attempt Hyields Htimed) as Haborted.
  pose proof (loopBody_yields E model s attempt Hyields) as Hbody.
  rewrite Haborted in Hbody.
  assert (loopBody E model s
          = afterRotation E model attempt (advanceAuthProfile E model marked))
    as Hrotate.
  { rewrite Hbody. unfold onCompleted, shouldRotate.
    rewrite Haborted, Htimed, orb_true_r.
    by destruct (promptError attempt), (pickFallbackThinkingLevel _ _ _). }
  split; [exact Hrotate |]. split.
  - subst marked. unfold recordRotationFailure, rotationReason.
    rewrite Htimed. simpl.
    destruct (lastProfileId s) as [pid|]; [| by rewrite app_nil_r].
    destruct (Js.truthy pid); [done | by rewrite app_nil_r].
  - intros s2 Hadv. rewrite Hrotate, Hadv. split; [done |].
    pose proof (advanceAuthProfile_spec E model marked) as Hspec.
    rewrite Hadv in Hspec. simpl in Hspec.
    destruct Hspec as (_ & _ & _ & _ & Hlt & _).
    pose proof (recordRotationFailure_keeps E attempt
                  (log_attempt (enterTurn s))) as (Hidx & _).
    subst marked. rewrite Hidx in Hlt. exact Hlt.
Qed.

Lemma timeout_forces_rotation_witness :
  ∃ s2,
    loopBody (Demo.timingOut None) Demo.theModel
      (Demo.ready (Demo.timingOut None)) = Stop
        (Returned
           {| payloads := Some [ {| p_text := Some "hello";
                                    p_isError := None |} ];
              meta := {| agentMeta :=
                           Some {| am_sessionId := "s1";
                                   meta_provider := "anthropic";
                                   meta_model := "claude";
                                   meta_usage := None |};
                         meta_aborted := Some true;
                         meta_error := None |};
              didSendViaMessagingTool := Some false;
              messagingToolSentTexts := Some [] |}) s2
    ∧ storeLog s2 = [MarkFailure "p1" "timeout"; MarkGood "anthropic" "p1";
                     MarkUsed "p1"].
Proof.
  destruct (timeout_forces_rotation (Demo.timingOut None) Demo.theModel
              (Demo.ready (Demo.timingOut None))
              {| ar_aborted := true; ar_timedOut := true;
                 promptError := None;
                 sessionIdUsed := "s1"; lastAssistant := None;
                 assistantTexts := ["hello"];
                 ar_didSendViaMessagingTool := false;
                 ar_messagingToolSentTexts := [];
                 cloudCodeAssistFormatError := false |})
    as (Hbody & _ & _).
  - split; reflexivity.
  - reflexivity.
  - eexists. split; [rewrite Hbody; vm_compute; reflexivity |].
    reflexivity.
Defined.

(** C4 as stated fails: with no profile configured and a key that carries no
    profile id, an attempt that timed out is followed by no failure record
    at all. *)
Lemma timeout_without_profile_unrecorded :
  ∃ attempt,
    attemptYields Demo.noProfile (Demo.ready Demo.noProfile) attempt
    ∧ promptError attempt = None
    ∧ ar_timedOut attempt = true
    ∧ storeLog (stepState (loopBody Demo.noProfile Demo.theModel
                             (Demo.ready Demo.noProfile))) = [].
Proof.
  exists {| ar_aborted := true; ar_timedOut := true;
            promptError := None;
            sessionIdUsed := "s1"; lastAssistant := None;
            assistantTexts := ["hello"];
            ar_didSendViaMessagingTool := false;
            ar_messagingToolSentTexts := [];
            cloudCodeAssistFormatError := false |}.
  split; [split; reflexivity |]. repeat split.
Qed.

(** C1, as the code has it.  When a turn of a run gets back a completed
    attempt that reaches the rotation branch and [advanceAuthProfile] finds
    no further usable candidate, the outcome of the run depends on the
    fallback chain.  With a chain configured the run throws the typed error:
    its reason is the classification of the trailing assistant error text, or
    "unknown"; it carries the provider, the model, the profile id of the
    credential in use, and the status that [resolveFailoverStatus] gives for
    the reason or else 408 when the message is a timeout message.  With no
    chain configured nothing is thrown: the run ends with a normal
    result. *)
Theorem exhausted_rotation_outcome (E : Env) (model : Model)
    (startCwd : string) (n fuel : nat) (s s2 : State)
    (attempt : AttemptResult) :
  runReaches E model startCwd n s →
  rotationDue E s attempt →
  advanceAuthProfile E model
    (recordRotationFailure E attempt (log_attempt (enterTurn s)))
  = (Returned false, s2) →
  n < fuel →
  let reason :=
    Js.nullish (classifyFailoverReason (helpers E)
                  (Js.nullish (lastAssistant attempt ≫= am_errorMessage) EmptyString))
               "unknown" in
  if fallbackConfigured E then
    ∃ message,
      runEmbeddedPiAgent E fuel startCwd
      = Some (Threw (FailoverError message
                {| fe_reason := reason;
                   fe_provider := provider E;
                   fe_model := modelId E;
                   fe_profileId := lastProfileId s;
                   fe_status :=
                     match resolveFailoverStatus (helpers E) reason with
                     | Some st => Some st
                     | None =>
                         if isTimeoutErrorMessage (helpers E) message
                         then Some 408 else None
                     end |}), set_cwd startCwd s2)
  else
    ∃ r s3, runEmbeddedPiAgent E fuel startCwd = Some (Returned r, s3)
            ∧ meta_error (meta r) = None
            ∧ meta_aborted (meta r) = Some (ar_aborted attempt).
Proof.
  intros Hreach (Hyields & Hprompt & Hpick & Hrotate) Hadv Hfuel reason.
  pose proof (loopBody_yields E model s attempt Hyields) as Hbody.
  assert (loopBody E model s
          = afterRotation E model attempt (Returned false, s2)) as Hafter.
  { rewrite Hbody, <-Hadv. unfold onCompleted.
    change (attemptedThinking (log_attempt (enterTurn s)))
      with ({[thinkLevel s]} ∪ attemptedThinking s).
    rewrite Hrotate.
    destruct Hprompt as [-> | Ha], Hpick as [-> | Ha'];
      rewrite ?Ha, ?Ha'; try done.
    all: try by destruct (promptError attempt).
    all: try by destruct (ar_aborted attempt).
    all: by destruct (promptError attempt),
              (pickFallbackThinkingLevel _ _ _). }
  unfold afterRotation in Hafter.
  destruct (fallbackConfigured E).
  - assert (lastProfileId s2 = lastProfileId s) as Hpid.
    { pose proof (advanceAuthProfile_spec E model
                    (recordRotationFailure E attempt
                       (log_attempt (enterTurn s)))) as Hspec.
      rewrite Hadv in Hspec. simpl in Hspec.
      destruct Hspec as (_ & _ & _ & _ & _ & _ & _ & ->).
      by destruct (recordRotationFailure_keeps E attempt
                     (log_attempt (enterTurn s))) as (_ & -> & _). }
    eexists.
    rewrite (runReaches_stop E model startCwd n fuel s _ _ Hreach Hafter
               Hfuel).
    unfold exhaustedError. rewrite Hpid. reflexivity.
  - unfold finishRun in Hafter. eexists _, _.
    split; [exact (runReaches_stop E model startCwd n fuel s _ _ Hreach
                     Hafter Hfuel) | done].
Qed.

Lemma exhausted_rotation_outcome_witness :
  ∃ message s,
    runEmbeddedPiAgent (Demo.timingOut (Some ["openai/gpt"])) 1 "/home"
    = Some (Threw (FailoverError message
              {| fe_reason := "unknown"; fe_provider := "anthropic";
                 fe_model := "claude"; fe_profileId := Some "p1";
                 fe_status :=
                   if isTimeoutErrorMessage Demo.theHelpers message
                   then Some 408 else None |}), s)
    ∧ storeLog s = [MarkFailure "p1" "timeout"].
Proof.
  pose (E := Demo.timingOut (Some ["openai/gpt"])).
  pose (attempt := {| ar_aborted := true; ar_timedOut := true;
       promptError := None;
       sessionIdUsed := "s1"; lastAssistant := None;
       assistantTexts := ["hello"];
       ar_didSendViaMessagingTool := false;
       ar_messagingToolSentTexts := [];
       cloudCodeAssistFormatError := false |}).
  destruct (exhausted_rotation_outcome E Demo.theModel "/home" 0 1
              (Demo.ready E)
              (recordRotationFailure E attempt
                 (log_attempt (enterTurn (Demo.ready E))))
              attempt) as [message Hrun].
  - split; [| exists (Demo.ready E); split; reflexivity].
    split_and!; [reflexivity | reflexivity | vm_compute; lia | done].
  - repeat split; try (vm_compute; reflexivity); by left.
  - vm_compute. reflexivity.
  - lia.
  - exists message. eexists. split; [exact Hrun | reflexivity].
Defined.

(** C1 as stated fails: one profile, the attempt times out, rotation is
    exhausted, no fallback chain is configured, and the run returns a normal
    result instead of throwing the typed error. *)
Lemma exhausted_without_fallback_returns :
  ∃ attempt s2 r s3,
    rotationDue (Demo.timingOut None) (Demo.ready (Demo.timingOut None))
      attempt
    ∧ advanceAuthProfile (Demo.timingOut None) Demo.theModel
        (recordRotationFailure (Demo.timingOut None) attempt
           (log_attempt (enterTurn (Demo.ready (Demo.timingOut None)))))
      = (Returned false, s2)
    ∧ runEmbeddedPiAgent (Demo.timingOut None) 1 "/home"
      = Some (Returned r, s3).
Proof.
  exists {| ar_aborted := true; ar_timedOut := true;
            promptError := None;
            sessionIdUsed := "s1"; lastAssistant := None;
            assistantTexts := ["hello"];
            ar_didSendViaMessagingTool := false;
            ar_messagingToolSentTexts := [];
            cloudCodeAssistFormatError := false |}.
  eexists _, _, _. split; [| split].
  - repeat split; try reflexivity; by left.
  - vm_compute. reflexivity.
  - vm_compute. reflexivity.
Qed.

(** A normal result of the prompt-level error branch carries an error tag. *)
Lemma onPromptError_returned (E : Env) (model : Model)
    (attempt : AttemptResult) (pe : Thrown) (s s' : State)
    (r : EmbeddedPiRunResult) :
  onPromptError E model attempt pe s = Stop (Returned r) s' →
  meta_error (meta r) ≠ None.
Proof.
  unfold onPromptError. intros Hstep.
  repeat case_match; simplify_eq; done.
Qed.

(** A normal result of the rest of the turn comes from the final return. *)
Lemma onCompleted_returned (E : Env) (model : Model)
    (attempt : AttemptResult) (s s' : State) (r : EmbeddedPiRunResult) :
  onCompleted E model attempt s = Stop (Returned r) s' →
  ∃ sx, finishRun E model attempt sx = Stop (Returned r) s'.
Proof.
  unfold onCompleted, afterRotation. intros Hstep.
  repeat case_match; simplify_eq; eauto.
Qed.

Lemma loopBody_returned (E : Env) (model : Model) (s s' : State)
    (r : EmbeddedPiRunResult) :
  loopBody E model s = Stop (Returned r) s' →
  meta_error (meta r) = None →
  ∃ attempt sx, finishRun E model attempt sx = Stop (Returned r) s'.
Proof.
  unfold loopBody. intros Hstep Hnone.
  destruct (mkdirWorkspace _ _); [done |].
  destruct (invokeExecutor E (enterTurn s)) as [[attempt|e] s2]; [| done].
  destruct (promptError attempt) as [pe|].
  - destruct (ar_aborted attempt).
    + exists attempt. by eapply onCompleted_returned.
    + by apply onPromptError_returned in Hstep.
  - exists attempt. by eapply onCompleted_returned.
Qed.

(** The final return marks the profile good and used, in that order, as the
    last two updates of the store. *)
Lemma finishRun_marks (E : Env) (model : Model) (attempt : AttemptResult)
    (sx s' : State) (c : Completion EmbeddedPiRunResult) (pid : string) :
  finishRun E model attempt sx = Stop c s' →
  lastProfileId s' = Some pid → Js.truthy pid = true →
  storeLog s' = storeLog sx ++ [MarkGood (provider E) pid; MarkUsed pid].
Proof.
  unfold finishRun. intros Hstep Hpid Htruthy.
  destruct (lastProfileId sx) as [pid'|] eqn:Hsx.
  - destruct (Js.truthy pid') eqn:Htruthy'; injection Hstep as _ <-.
    + simpl in *. rewrite Hsx in Hpid. injection Hpid as ->.
      by rewrite <-app_assoc.
    + congruence.
  - injection Hstep as _ <-. congruence.
Qed.

(** C10, as the code has it.  A run that returns a normal result without an
    error tag, with a (non-empty) profile id resolved for the credential in
    use, has sent [markAuthProfileGood] and then [markAuthProfileUsed] for
    that profile as its last two store updates.  Nothing is asked of
    [meta.aborted]: a run whose last attempt was aborted marks the profile
    all the same. *)
Theorem normal_result_marks_profile (E : Env) (fuel : nat)
    (startCwd : string) (r : EmbeddedPiRunResult) (s : State) (pid : string) :
  runEmbeddedPiAgent E fuel startCwd = Some (Returned r, s) →
  meta_error (meta r) = None →
  lastProfileId s = Some pid →
  Js.truthy pid = true →
  ∃ earlier,
    storeLog s = earlier ++ [MarkGood (provider E) pid; MarkUsed pid].
Proof.
  intros Hrun Hnone Hpid Htruthy.
  apply run_inversion in Hrun as [[_ [e ?]] | [model Hloop]]; [done |].
  unfold runLoop in Hloop.
  destruct (resolveInitial E model _) as [[[]|e] s1]; [| done].
  destruct (retryLoop E model fuel s1) as [[c2 s2]|] eqn:Hretry; [| done].
  simplify_eq.
  apply retryLoop_last in Hretry as [sl Hlast].
  apply loopBody_returned in Hlast as (attempt & sx & Hfinish); [| done].
  exists (storeLog sx). simpl in *.
  by eapply finishRun_marks.
Qed.

Lemma normal_result_marks_profile_witness :
  ∃ r s,
    runEmbeddedPiAgent Demo.cancelled 1 "/home" = Some (Returned r, s)
    ∧ meta_aborted (meta r) = Some true
    ∧ ∃ earlier,
        storeLog s = earlier ++ [MarkGood "anthropic" "p1"; MarkUsed "p1"].
Proof.
  eexists _, _. split; [vm_compute; reflexivity |].
  split; [reflexivity |].
  eapply (normal_result_marks_profile Demo.cancelled 1 "/home" _ _ "p1").
  - vm_compute. reflexivity.
  - reflexivity.
  - reflexivity.
  - reflexivity.
Defined.

(** C10 as stated fails: the soft-error result is a normal result, a profile
    id is resolved, and the store receives nothing. *)
Lemma soft_error_leaves_store_untouched :
  ∃ r s,
    runEmbeddedPiAgent Demo.overflowing 1 "/home" = Some (Returned r, s)
    ∧ lastProfileId s = Some "p1"
    ∧ storeLog s = [].
Proof. eexists _, _. split; [vm_compute; reflexivity |]. by split. Qed.

(** A run either stops before the credentials, or is the loop of the
    resolved model. *)
Lemma run_shape (E : Env) (fuel : nat) (startCwd : string) :
  (∃ e, runEmbeddedPiAgent E fuel startCwd
        = Some (Threw e, initialState E startCwd))
  ∨ ∃ model, runEmbeddedPiAgent E fuel startCwd
             = runLoop E model fuel (initialState E startCwd) startCwd.
Proof.
  unfold runEmbeddedPiAgent. repeat case_match; eauto.
Qed.

(** The traversal facts hold at the end of every run. *)
Lemma run_traversal (E : Env) (fuel : nat) (startCwd : string)
    (c : Completion EmbeddedPiRunResult) (s : State) :
  runEmbeddedPiAgent E fuel startCwd = Some (c, s) →
  StronglySorted le (ac_profileIndex <$> attemptLog s)
  ∧ Forall (usesCandidate E) (attemptLog s)
  ∧ Forall (λ candidate, candidate ∈ profileCandidates E) (resolveLog s).
Proof.
  intros Hrun.
  apply run_inversion in Hrun as [[-> _] | [model Hloop]].
  { simpl. split_and!; constructor. }
  unfold runLoop in Hloop.
  pose proof (resolveInitial_spec E model startCwd)
    as (_ & _ & Hlog & Hres & Hinit).
  destruct (resolveInitial E model _) as [[[]|e] s1]; simpl in *.
  - destruct (retryLoop E model fuel s1) as [[c2 s2]|] eqn:Hretry;
      [| done].
    simplify_eq. simpl.
    destruct Hinit as (Hidx & Hcred & _).
    assert (Traversal E s1) as Htrav.
    { unfold Traversal. rewrite Hlog. split_and!; try done; constructor. }
    apply (retryLoop_Traversal E model fuel s1 s2 c Htrav) in Hretry
      as (_ & _ & Hcalls & Hsorted & Hresolved).
    split_and!; try done.
    eapply Forall_impl; [exact Hcalls |]. by intros a [_ ?].
  - simplify_eq. rewrite Hlog. split_and!; try done; constructor.
Qed.

(** C7. In a run without a pinned profile, the credential indices of the
    successive attempts never decrease; a credential that the run has moved
    away from is never used again; and every attempt runs at an index of the
    configured candidate order, with the credential resolved for the
    candidate at that index. *)
Theorem credential_traversal (E : Env) (fuel : nat) (startCwd : string)
    (c : Completion EmbeddedPiRunResult) (s : State) :
  explicitProfileId E = None →
  runEmbeddedPiAgent E fuel startCwd = Some (c, s) →
  let used := ac_profileIndex <$> attemptLog s in
  StronglySorted le used
  ∧ (∀ i j k x, i ≤ j → j ≤ k →
       used !! i = Some x → used !! k = Some x → used !! j = Some x)
  ∧ Forall (usesCandidate E) (attemptLog s).
Proof.
  intros _ Hrun used.
  destruct (run_traversal E fuel startCwd c s Hrun) as (Hsorted & Hcalls & _).
  split_and!; try done.
  intros i j k x Hij Hjk Hi Hk.
  destruct (used !! j) as [y|] eqn:Hj.
  - f_equal. apply Nat.le_antisymm.
    + by eapply (StronglySorted_le_lookup used j k).
    + by eapply (StronglySorted_le_lookup used i j).
  - apply lookup_ge_None in Hj. apply lookup_lt_Some in Hk. lia.
Qed.

Lemma credential_traversal_witness :
  ∃ c s,
    runEmbeddedPiAgent Demo.threeProfiles 3 "/home" = Some (c, s)
    ∧ ac_profileIndex <$> attemptLog s = [0; 1; 2]
    ∧ StronglySorted le (ac_profileIndex <$> attemptLog s).
Proof.
  eexists _, _. split; [vm_compute; reflexivity |].
  split; [reflexivity |].
  eapply proj1, (credential_traversal Demo.threeProfiles 3 "/home").
  - reflexivity.
  - vm_compute. reflexivity.
Defined.

Lemma pickLower_fresh : picksFresh Demo.theHelpers.
Proof.
  intros message attempted level. simpl. unfold Demo.pickLower.
  case_bool_decide; [| done].
  intros Hhead. apply head_Some_elem_of in Hhead.
  by apply list_elem_of_filter in Hhead as [? _].
Qed.

(** C8.  Provided the helper only proposes thinking levels outside the set
    of attempted ones, every run ends: fuel for (number of candidates) times
    (ladder length) turns is enough for [runEmbeddedPiAgent] to produce its
    outcome, the executor is invoked at most that many times, and no
    credential index sees the same thinking level twice. *)
Theorem retry_loop_bounded (E : Env) (fuel : nat) (startCwd : string) :
  picksFresh (helpers E) →
  length (profileCandidates E) * ladderLength ≤ fuel →
  ∃ c s,
    runEmbeddedPiAgent E fuel startCwd = Some (c, s)
    ∧ length (attemptLog s) ≤ length (profileCandidates E) * ladderLength
    ∧ NoDup ((λ a, (ac_profileIndex a, ac_thinkLevel a)) <$> attemptLog s).
Proof.
  intros Hpick Hfuel.
  destruct (run_shape E fuel startCwd) as [[e ->] | [model ->]].
  { eexists _, _. split; [reflexivity |]. simpl.
    split; [lia | constructor]. }
  unfold runLoop.
  pose proof (resolveInitial_spec E model startCwd)
    as (_ & _ & Hlog & Hres & Hinit).
  destruct (resolveInitial E model _) as [[[]|e] s1]; simpl in *.
  - destruct Hinit as (Hidx & Hcred & Hlevel & Hempty).
    assert (Traversal E s1) as Htrav.
    { unfold Traversal. rewrite Hlog. split_and!; try done; constructor. }
    assert (Ladder s1) as Hlad.
    { unfold Ladder. rewrite Hlog. split; constructor. }
    assert (freshLevel s1) as Hfresh.
    { unfold freshLevel. rewrite Hempty. apply not_elem_of_empty. }
    assert (attemptsLeft E s1 ≤ length (profileCandidates E) * ladderLength)
      as Hleft.
    { unfold attemptsLeft. rewrite Hempty, size_empty, Nat.sub_0_r.
      assert (S (length (profileCandidates E) - S (profileIndex s1))
              ≤ length (profileCandidates E)) as Hle by lia.
      apply (Nat.mul_le_mono_r _ _ ladderLength) in Hle. lia. }
    destruct (retryLoop_terminates E model fuel s1 Hpick Htrav Hlad Hfresh)
      as (c & s2 & -> & _ & [_ Hnodup] & Hcount); [lia |].
    exists c, (set_cwd startCwd s2). split; [done |]. simpl.
    split; [| done]. rewrite Hlog in Hcount. simpl in Hcount. lia.
  - exists (Threw e), s1. rewrite Hlog. simpl.
    split; [done |]. split; [lia | constructor].
Qed.

Lemma retry_loop_bounded_witness :
  ∃ c s,
    runEmbeddedPiAgent Demo.pickyModel 6 "/home" = Some (c, s)
    ∧ length (attemptLog s) ≤ 6
    ∧ NoDup ((λ a, (ac_profileIndex a, ac_thinkLevel a)) <$> attemptLog s).
Proof.
  apply (retry_loop_bounded Demo.pickyModel 6 "/home").
  - apply pickLower_fresh.
  - vm_compute. lia.
Defined.




(** ** The scenarios of the specification, run on the embedding *)

Example ladder_has_six_levels : ladderLength = 6.
Proof. reflexivity. Qed.

(** Scenario A: three profiles, the first two rate limited. *)
Example scenario_three_profiles :
  ∃ r s,
    runEmbeddedPiAgent Demo.threeProfiles 3 "/home" = Some (Returned r, s)
    ∧ lastProfileId s = Some "p3"
    ∧ storeLog s = [MarkFailure "p1" "rate_limit";
                    MarkFailure "p2" "rate_limit";
                    MarkGood "anthropic" "p3"; MarkUsed "p3"].
Proof. eexists _, _. split; [vm_compute; reflexivity |]. by split. Qed.

(** Scenario C: the thinking level is downgraded until the model accepts
    it; no failure is recorded against the credential. *)
Example scenario_downgrade :
  ∃ r s,
    runEmbeddedPiAgent Demo.pickyModel 3 "/home" = Some (Returned r, s)
    ∧ ac_thinkLevel <$> attemptLog s = [high; medium; low]
    ∧ thinkLevel s = low
    ∧ storeLog s = [MarkGood "anthropic" "p1"; MarkUsed "p1"].
Proof. eexists _, _. split; [vm_compute; reflexivity |]. by split_and!. Qed.

(** Rotation exhausted with a fallback chain configured: the typed error. *)
Example scenario_exhausted_with_fallback :
  ∃ s,
    runEmbeddedPiAgent (Demo.timingOut (Some ["openai/gpt"])) 1 "/home"
    = Some (Threw (FailoverError "LLM request timed out."
                     {| fe_reason := "unknown"; fe_provider := "anthropic";
                        fe_model := "claude"; fe_profileId := Some "p1";
                        fe_status := Some 408 |}), s)
    ∧ storeLog s = [MarkFailure "p1" "timeout"].
Proof. eexists. split; [vm_compute; reflexivity | done]. Qed.

(** Two turns are not enough fuel for three attempts. *)
Example scenario_out_of_fuel :
  runEmbeddedPiAgent Demo.threeProfiles 2 "/home" = None.
Proof. vm_compute. reflexivity. Qed.

(** * Bookkeeping of a run *)

(** ** The key lookups of a rotation *)

Section Keys.

Context (E : Env) (model : Model).

Local Abbreviation candidates := (profileCandidates E).

Lemma applyApiKeyInfo_key (candidate : option string) (s : State) :
  let r := applyApiKeyInfo E model candidate s in
  match r.1 with
  | Returned _ =>
      resolves E model candidate = true
      ∧ ∃ info,
          getApiKeyForModel (collaborators E) candidate = inr info
          ∧ lastProfileId r.2 = ak_profileId info
          ∧ runtimeApiKey r.2 = runtimeKeyFor E model info
          ∧ is_Some (runtimeApiKey r.2)
  | Threw _ =>
      resolves E model candidate = false
      ∧ runtimeApiKey r.2 = runtimeApiKey s
  end.
Proof.
  unfold applyApiKeyInfo, resolves, runtimeKeyFor.
  destruct (getApiKeyForModel _ candidate) as [err|info]; simpl; [done |].
  case_bool_decide; simpl.
  - destruct (resolveCopilotApiToken _ _) as [err|token] eqn:Htoken; simpl;
      [done |].
    split; [done |]. exists info. rewrite Htoken. by split_and!.
  - split; [done |]. exists info. by split_and!.
Qed.

Lemma advanceFrom_lands (rest : list (option string)) (next : nat)
    (s : State) :
  let r := advanceFrom E model rest next s in
  match r.1 with
  | Returned true =>
      ∃ k candidate info,
        rest !! k = Some candidate
        ∧ profileIndex r.2 = next + k
        ∧ (∀ j c, j < k → rest !! j = Some c → resolves E model c = false)
        ∧ resolves E model candidate = true
        ∧ resolveLog r.2 = resolveLog s ++ take (S k) rest
        ∧ getApiKeyForModel (collaborators E) candidate = inr info
        ∧ lastProfileId r.2 = ak_profileId info
        ∧ runtimeApiKey r.2 = runtimeKeyFor E model info
        ∧ is_Some (runtimeApiKey r.2)
  | Returned false =>
      Forall (λ c, resolves E model c = false) rest
      ∧ resolveLog r.2 = resolveLog s ++ rest
      ∧ runtimeApiKey r.2 = runtimeApiKey s
  | Threw _ => runtimeApiKey r.2 = runtimeApiKey s
  end.
Proof.
  revert next s. induction rest as [|candidate rest IH]; intros next s; simpl.
  { by rewrite app_nil_r. }
  pose proof (applyApiKeyInfo_key candidate s) as Hkey.
  pose proof (applyApiKeyInfo_spec E model candidate s) as Hspec.
  simpl in Hkey, Hspec.
  destruct (applyApiKeyInfo E model candidate s) as [[[]|err] s1]; simpl in *.
  - destruct Hkey as (Hres & info & Hget & Hpid & Hrun & Hsome).
    destruct Hspec as (_ & Hlog & _).
    exists 0, candidate, info. rewrite Nat.add_0_r, take_0.
    split_and!; try done. intros j c Hj. lia.
  - destruct Hkey as (Hres & Hrun). destruct Hspec as (_ & Hlog & _).
    destruct (Js.truthy_opt candidate && Js.strict_eq candidate _); simpl.
    { done. }
    specialize (IH (S next) s1).
    destruct (advanceFrom E model rest (S next) s1) as [[[]|e] s2];
      simpl in *.
    + destruct IH as (k & c' & info & Hlook & Hidx & Hskip & ? & Hl & ?).
      exists (S k), c', info.
      split; [done |]. split; [lia |]. split.
      { intros [|j] c Hj Hc; simpl in Hc; [by simplify_eq |].
        eapply (Hskip j); [lia | done]. }
      split; [done |]. split; [| done].
      rewrite Hl, Hlog, <-app_assoc. done.
    + destruct IH as (Hall & Hl & Hk).
      split; [by constructor |]. split; [| congruence].
      rewrite Hl, Hlog, <-app_assoc. done.
    + congruence.
Qed.

Lemma advanceAuthProfile_key (s : State) :
  (advanceAuthProfile E model s).1 ≠ Returned true →
  runtimeApiKey (advanceAuthProfile E model s).2 = runtimeApiKey s.
Proof.
  unfold advanceAuthProfile. intros Hr.
  pose proof (advanceFrom_lands (drop (S (profileIndex s)) candidates)
                (S (profileIndex s)) s) as Hl. simpl in Hl.
  destruct (advanceFrom E model _ _ s) as [[[]|e] s']; simpl in *;
    [done | by destruct Hl as (_ & _ & ?) | done].
Qed.

End Keys.

(** ** What a turn leaves in the store *)

Section Outcomes.

Context (E : Env) (model : Model).

Lemma settled_start (s : State) : settled E s (log_attempt (enterTurn s)).
Proof.
  split; [apply attemptedOnce_start |]. split; [done |]. by left.
Qed.

Lemma settled_marked (s : State) (pid reason : string) :
  lastProfileId s = Some pid →
  settled E s (markAuthProfileFailure pid reason (log_attempt (enterTurn s))).
Proof.
  intros Hpid. split; [apply attemptedOnce_store, attemptedOnce_start |].
  split; [done |]. right. by exists pid, reason.
Qed.

Lemma settled_advance (s s1 : State) :
  settled E s s1 →
  (advanceAuthProfile E model s1).1 ≠ Returned true →
  settled E s (advanceAuthProfile E model s1).2.
Proof.
  intros (Honce & Hkey & Hstore) Hr.
  pose proof (advanceAuthProfile_spec E model s1) as (_ & Hst & _).
  split; [by apply attemptedOnce_advance |].
  rewrite advanceAuthProfile_key by done. split; [done |].
  simpl in Hst. by rewrite Hst.
Qed.

Lemma afterRotation_outcome (attempt : AttemptResult) (s s1 : State) :
  settled E s s1 →
  outcome E model s
    (afterRotation E model attempt (advanceAuthProfile E model s1)).
Proof.
  intros Hs.
  pose proof (settled_advance s s1 Hs) as Hkeep.
  unfold afterRotation.
  destruct (advanceAuthProfile E model s1) as [[[]|e] s2] eqn:Hadv;
    simpl in Hkeep.
  - by eapply outcome_rotate.
  - destruct (fallbackConfigured E).
    + apply outcome_threw. by apply Hkeep.
    + apply outcome_finish. by apply Hkeep.
  - apply outcome_threw. by apply Hkeep.
Qed.

Lemma onCompleted_outcome (attempt : AttemptResult) (s : State) :
  outcome E model s
    (onCompleted E model attempt (log_attempt (enterTurn s))).
Proof.
  unfold onCompleted.
  assert (outcome E model s
            (if shouldRotate E attempt
             then afterRotation E model attempt
                    (advanceAuthProfile E model
                       (recordRotationFailure E attempt
                          (log_attempt (enterTurn s))))
             else finishRun E model attempt (log_attempt (enterTurn s))))
    as Hrest.
  { destruct (shouldRotate _ attempt).
    - apply afterRotation_outcome. unfold recordRotationFailure.
      change (lastProfileId (log_attempt (enterTurn s)))
        with (lastProfileId s).
      destruct (lastProfileId s) as [pid|] eqn:Hpid;
        [| apply settled_start].
      destruct (Js.truthy pid); [| apply settled_start].
      by apply settled_marked.
    - apply outcome_finish, settled_start. }
  destruct (pickFallbackThinkingLevel _ _ _) as [level|]; [| done].
  destruct (ar_aborted attempt); [done |].
  apply outcome_downgrade, settled_start.
Qed.

Lemma onPromptError_outcome (attempt : AttemptResult) (pe : Thrown)
    (s : State) :
  outcome E model s
    (onPromptError E model attempt pe (log_attempt (enterTurn s))).
Proof.
  unfold onPromptError.
  destruct (isContextOverflowError _ _).
  { apply outcome_soft; simpl; [done | done | by eexists]. }
  set (reason := classifyFailoverReason _ _).
  change (lastProfileId (log_attempt (enterTurn s))) with (lastProfileId s).
  set (marked := match reason, lastProfileId s with
                 | Some r, Some pid => _
                 | _, _ => log_attempt (enterTurn s)
                 end).
  assert (settled E s marked) as Hmarked.
  { subst marked. destruct reason as [r|]; [| apply settled_start].
    destruct (lastProfileId s) as [pid|] eqn:Hpid; [| apply settled_start].
    destruct (_ && _); [| apply settled_start]. by apply settled_marked. }
  clearbody marked.
  pose proof (settled_advance s marked Hmarked) as Hkeep.
  set (rotated := if _ && _ then _ else _).
  assert (rotated = advanceAuthProfile E model marked
          ∨ rotated = (Returned false, marked)) as [-> | ->].
  { subst rotated. destruct (_ && _); auto. }
  - destruct (advanceAuthProfile E model marked) as [[[]|e] s2] eqn:Hadv;
      simpl in Hkeep.
    + by eapply outcome_rotate.
    + destruct (pickFallbackThinkingLevel _ _ _).
      * apply outcome_downgrade. by apply Hkeep.
      * apply outcome_threw. by apply Hkeep.
    + apply outcome_threw. by apply Hkeep.
  - destruct (pickFallbackThinkingLevel _ _ _).
    + by apply outcome_downgrade.
    + by apply outcome_threw.
Qed.

Lemma loopBody_outcome (s : State) : outcome E model s (loopBody E model s).
Proof.
  unfold loopBody.
  destruct (mkdirWorkspace _ _); [apply outcome_unprepared |].
  pose proof (invokeExecutor_state E (enterTurn s)) as Hstate.
  destruct (invokeExecutor E (enterTurn s)) as [[attempt|e] s2];
    simpl in Hstate; subst s2.
  - destruct (promptError attempt) as [pe|].
    + destruct (ar_aborted attempt).
      * apply onCompleted_outcome.
      * apply onPromptError_outcome.
    + apply onCompleted_outcome.
  - apply outcome_threw, settled_start.
Qed.

End Outcomes.

(** ** The bookkeeping invariant *)

Section Ledgers.

Context (E : Env) (model : Model).

Local Abbreviation candidates := (profileCandidates E).

Lemma Ledger_settled (s s' : State) :
  Ledger E model s → settled E s s' → Ledger E model s'.
Proof.
  intros (Hcred & Hatt & Hst & Hlen) (Honce & Hkey & Hstore).
  destruct Honce as (Hi & _ & Hp & _ & _ & Hlog & _ & _).
  assert (Forall (λ op, ∃ pid reason,
                    op = MarkFailure pid reason
                    ∧ Some pid ∈ ac_profileId <$> attemptLog s')
                 (storeLog s)) as Hold.
  { eapply Forall_impl; [exact Hst |]. intros op (pid & reason & ? & Hin).
    exists pid, reason. split; [done |].
    rewrite Hlog, fmap_app. apply elem_of_app. by left. }
  unfold Ledger. rewrite Hi, Hp, Hkey. split; [done |]. split.
  { rewrite Hlog. apply Forall_app. split; [done |].
    constructor; [exact Hcred | constructor]. }
  destruct Hstore as [Heq | (pid & reason & Hpid & Heq)]; rewrite Heq.
  - split; [done |]. rewrite Hlog, length_app. simpl. lia.
  - split.
    + apply Forall_app. split; [done |]. constructor; [| constructor].
      exists pid, reason. split; [done |].
      rewrite Hlog, fmap_app. apply elem_of_app. right. simpl.
      rewrite Hpid. by constructor.
    + rewrite Hlog, !length_app. simpl. lia.
Qed.

Lemma advance_Ledger (s s' : State) :
  Forall (holdsKey E model) (attemptLog s) →
  Forall (λ op, ∃ pid reason,
            op = MarkFailure pid reason
            ∧ Some pid ∈ ac_profileId <$> attemptLog s) (storeLog s) →
  length (storeLog s) ≤ length (attemptLog s) →
  advanceAuthProfile E model s = (Returned true, s') →
  Ledger E model s'.
Proof.
  intros Hatt Hst Hlen Hadv.
  pose proof (advanceAuthProfile_spec E model s) as (_ & Hs & Ha & _).
  rewrite Hadv in Hs, Ha.
  unfold advanceAuthProfile in Hadv.
  pose proof (advanceFrom_lands E model (drop (S (profileIndex s)) candidates)
                (S (profileIndex s)) s) as Hl.
  rewrite Hadv in Hl. simpl in Hs, Ha, Hl.
  destruct Hl as (k & c & info & Hlook & Hidx & _ & _ & _ & Hget & ?).
  rewrite lookup_drop in Hlook.
  unfold Ledger. rewrite Hs, Ha. split; [| done].
  exists info.
  replace (profileIndex s') with (S (profileIndex s) + k) by (simpl; lia).
  rewrite Hlook. done.
Qed.

Lemma Ledger_rotate (s s' : State) :
  Ledger E model s →
  advanceAuthProfile E model s = (Returned true, s') →
  Ledger E model s'.
Proof. intros (_ & ? & ? & ?). by apply advance_Ledger. Qed.

Lemma Ledger_continue (s s' : State) :
  Ledger E model s → outcome E model s (Continue s') → Ledger E model s'.
Proof.
  intros HL Hout.
  inversion Hout as [| | | |level s1 Hs|s1 s2 Hs Hadv]; subst.
  - by apply (Ledger_settled s s1).
  - apply (Ledger_rotate s1); [| done]. by apply (Ledger_settled s).
Qed.

Lemma finishRun_store (attempt : AttemptResult) (s1 s' : State)
    (c : Completion EmbeddedPiRunResult) :
  finishRun E model attempt s1 = Stop c s' →
  storeLog s' = storeLog s1 ++ closingMarks E c s'
  ∧ attemptLog s' = attemptLog s1
  ∧ lastProfileId s' = lastProfileId s1
  ∧ ∃ r, c = Returned r ∧ payloads r ≠ Some []
         ∧ is_Some (agentMeta (meta r)) ∧ meta_error (meta r) = None.
Proof.
  unfold finishRun. intros Heq. injection Heq as <- <-.
  unfold closingMarks, goodMarks; simpl.
  assert (∀ l : list Payload,
            (if bool_decide (0 < length l) then Some l else None)
            ≠ Some []) as Hne.
  { intros l. case_bool_decide; [| done]. intros [= ->]. simpl in *. lia. }
  destruct (lastProfileId s1) as [pid|] eqn:Hpid; simpl.
  - destruct (Js.truthy pid) eqn:Ht; simpl; rewrite Hpid.
    + rewrite Ht, <-app_assoc. simpl. split_and!; try done.
      eexists. split; [done |]. simpl. by split_and!.
    + rewrite Ht, app_nil_r. split_and!; try done.
      eexists. split; [done |]. simpl. by split_and!.
  - rewrite Hpid, app_nil_r. split_and!; try done.
    eexists. split; [done |]. simpl. by split_and!.
Qed.

End Ledgers.

(** ** The books of a finished run *)

Section Closing.

Context (E : Env).

Local Abbreviation candidates := (profileCandidates E).

Lemma Ledger_Books (model : Model) (s : State) (e : Thrown) :
  Ledger E model s → Books E model (Threw e) s.
Proof.
  intros (_ & Hatt & Hst & Hlen). split; [| done].
  exists (storeLog s). simpl. by rewrite app_nil_r.
Qed.

Lemma outcome_Books (model : Model) (s s' : State)
    (c : Completion EmbeddedPiRunResult) :
  Ledger E model s → outcome E model s (Stop c s') → Books E model c s'.
Proof.
  intros HL Hout. remember (Stop c s') as st eqn:Hst.
  destruct Hout as [e|e s1 Hs|r Herr Hpay Hmeta|attempt s1 Hs|level s1 Hs
                    |s1 s2 Hs Hadv]; try discriminate.
  - injection Hst as <- <-. by apply Ledger_Books.
  - injection Hst as <- <-. apply Ledger_Books. by apply (Ledger_settled E model s).
  - injection Hst as <- <-.
    pose proof (Ledger_settled E model s _ HL (settled_start E s))
      as (_ & Hatt & Hstore & Hlen).
    split; [| split; [done |]].
    + exists (storeLog (log_attempt (enterTurn s))). simpl.
      destruct (meta_error (meta r)); [| done]. by rewrite app_nil_r.
    + intros r' [= <-]. split_and!; [| by rewrite Hpay | done].
      simpl. by destruct (attemptLog s).
  - apply finishRun_store in Hst
      as (Hstore & Hatt & Hpid & r & -> & Hpay & Hmeta & Herr).
    pose proof (Ledger_settled E model s s1 HL Hs) as (_ & Ha1 & Hs1 & Hlen).
    rewrite <-Hatt in Ha1, Hs1, Hlen.
    split; [by exists (storeLog s1) |]. split; [done |].
    intros r' [= <-]. split_and!; try done.
    destruct Hs as ((_ & _ & _ & _ & _ & Hlog & _) & _).
    rewrite Hatt, Hlog. by destruct (attemptLog s).
Qed.

Lemma retryLoop_Books (model : Model) (fuel : nat) (s s' : State)
    (c : Completion EmbeddedPiRunResult) :
  Ledger E model s → retryLoop E model fuel s = Some (c, s') →
  Books E model c s'.
Proof.
  revert s. induction fuel as [|fuel IH]; intros s HL Hrun; [done |].
  simpl in Hrun. pose proof (loopBody_outcome E model s) as Hout.
  destruct (loopBody E model s) as [s1|c1 s1].
  - apply (IH s1); [| done]. by apply (Ledger_continue E model s).
  - injection Hrun as <- <-. by apply (outcome_Books model s).
Qed.

End Closing.

Section Opening.

Context (E : Env).

Local Abbreviation candidates := (profileCandidates E).

Lemma resolveInitial_Ledger (model : Model) (startCwd : string) (s1 : State) :
  resolveInitial E model (initialState E startCwd) = (Returned (), s1) →
  Ledger E model s1.
Proof.
  unfold resolveInitial.
  change (profileIndex (initialState E startCwd)) with 0.
  set (s0 := initialState E startCwd).
  set (candidate := mjoin (candidates !! 0)).
  pose proof (applyApiKeyInfo_key E model candidate s0) as Hkey.
  pose proof (applyApiKeyInfo_spec E model candidate s0) as Hspec.
  simpl in Hkey, Hspec.
  destruct (applyApiKeyInfo E model candidate s0) as [[[]|err] s'];
    simpl in *.
  - intros [= <-].
    destruct Hspec as ((Hi & _ & _ & _ & Hst & Hatt) & _).
    destruct Hkey as (_ & info & ? & ? & ? & ?).
    unfold Ledger. rewrite Hi, Hst, Hatt. simpl.
    split; [by exists info |]. by split_and!.
  - destruct (Js.strict_eq candidate _); [done |].
    destruct Hspec as ((Hi & _ & _ & _ & Hst & Hatt) & _).
    destruct (advanceAuthProfile E model s') as [[[]|e] s2] eqn:Hadv;
      try done.
    intros [= <-]. apply (advance_Ledger E model s'); [| | | done].
    + rewrite Hatt. constructor.
    + rewrite Hst. constructor.
    + by rewrite Hst, Hatt.
Qed.

Lemma run_model (fuel : nat) (startCwd : string)
    (c : Completion EmbeddedPiRunResult) (s : State) :
  runEmbeddedPiAgent E fuel startCwd = Some (c, s) →
  (s = initialState E startCwd ∧ ∃ e, c = Threw e)
  ∨ ∃ model,
      (resolveModel (collaborators E) (provider E) (modelId E)).1
      = Some model
      ∧ runLoop E model fuel (initialState E startCwd) startCwd
        = Some (c, s).
Proof.
  unfold runEmbeddedPiAgent.
  destruct (ensureClawdbotModelsJson _); [intros [= <- <-]; eauto |].
  destruct (resolveModel _ _ _) as [[model|] error];
    [| intros [= <- <-]; eauto].
  destruct (shouldBlock _); [intros [= <- <-]; eauto |].
  destruct (explicitProfileId E) as [pid|]; [| by eauto].
  destruct (_ && _); [intros [= <- <-]; eauto | by eauto].
Qed.

Lemma runLoop_Books (model : Model) (fuel : nat) (startCwd : string)
    (c : Completion EmbeddedPiRunResult) (s : State) :
  runLoop E model fuel (initialState E startCwd) startCwd = Some (c, s) →
  Books E model c s.
Proof.
  unfold runLoop.
  pose proof (resolveInitial_spec E model startCwd) as Hinit.
  pose proof (resolveInitial_Ledger model startCwd) as HL.
  simpl in Hinit.
  destruct (resolveInitial E model (initialState E startCwd))
    as [[[]|e] s1]; simpl in *.
  - destruct (retryLoop E model fuel s1) as [[c2 s2]|] eqn:Hloop; [| done].
    intros [= <- <-].
    apply retryLoop_Books in Hloop; [| by apply HL]. exact Hloop.
  - intros [= <- <-]. destruct Hinit as (_ & Hst & Hatt & _).
    unfold Books. rewrite Hst, Hatt. split; [| done].
    exists []. by split_and!.
Qed.

Lemma run_Books (fuel : nat) (startCwd : string)
    (c : Completion EmbeddedPiRunResult) (s : State) (model : Model) :
  (resolveModel (collaborators E) (provider E) (modelId E)).1 = Some model →
  runEmbeddedPiAgent E fuel startCwd = Some (c, s) →
  Books E model c s.
Proof.
  intros Hmodel Hrun.
  apply run_model in Hrun as [[-> [e ->]] | (m & Hm & Hrun)].
  - split; [| done]. exists []. by split_and!.
  - rewrite Hmodel in Hm. injection Hm as <-. by apply runLoop_Books in Hrun.
Qed.

End Opening.

(** ** Theorems on the books *)

(** X1.  The store log of a finished run is a series of failure records
    followed by the closing marks: markGood and markUsed for the profile in
    use when the run returns a result without an error tag, and nothing when
    it throws or returns a soft-error result.  A profile is never marked good
    in the middle of a run. *)
Theorem store_log_shape (E : Env) (fuel : nat) (startCwd : string)
    (c : Completion EmbeddedPiRunResult) (s : State) :
  runEmbeddedPiAgent E fuel startCwd = Some (c, s) →
  ∃ failures,
    storeLog s = failures ++ closingMarks E c s
    ∧ Forall (λ op, isFailure op = true) failures.
Proof.
  intros Hrun.
  assert (∃ model, Books E model c s) as (model & (fs & Hst & Hfs & _) & _).
  { apply run_model in Hrun as [[-> [e ->]] | (m & _ & Hrun)].
    - exists Demo.theModel. split; [| done]. exists []. by split_and!.
    - exists m. by apply runLoop_Books in Hrun. }
  exists fs. split; [done |].
  eapply Forall_impl; [exact Hfs |]. by intros op (pid & reason & -> & _).
Qed.

Lemma store_log_shape_witness :
  ∃ c s failures,
    runEmbeddedPiAgent Demo.threeProfiles 3 "/home" = Some (c, s)
    ∧ storeLog s
      = failures ++ [MarkGood "anthropic" "p3"; MarkUsed "p3"]
    ∧ Forall (λ op, isFailure op = true) failures.
Proof.
  let v := eval vm_compute in (runEmbeddedPiAgent Demo.threeProfiles 3 "/home")
  in assert (runEmbeddedPiAgent Demo.threeProfiles 3 "/home" = v) as Hrun
    by (vm_compute; reflexivity).
  destruct (store_log_shape _ _ _ _ _ Hrun) as (failures & Hst & Hfs).
  eexists _, _, failures. split; [exact Hrun |]. split; [exact Hst | exact Hfs].
Defined.

(** X2.  Every failure that a finished run recorded in the store names the
    profile id under which one of its attempts ran, and the run recorded no
    more failures than it made attempts. *)
Theorem failures_name_attempted_profiles (E : Env) (fuel : nat)
    (startCwd : string) (c : Completion EmbeddedPiRunResult) (s : State) :
  runEmbeddedPiAgent E fuel startCwd = Some (c, s) →
  (∀ pid reason,
     MarkFailure pid reason ∈ storeLog s →
     ∃ a, a ∈ attemptLog s ∧ ac_profileId a = Some pid)
  ∧ length (filter (λ op, isFailure op = true) (storeLog s))
    ≤ length (attemptLog s).
Proof.
  intros Hrun.
  assert (∃ model, Books E model c s)
    as (model & (fs & Hst & Hfs & Hlen) & _).
  { apply run_model in Hrun as [[-> [e ->]] | (m & _ & Hrun)].
    - exists Demo.theModel. split; [| done]. exists []. by split_and!.
    - exists m. by apply runLoop_Books in Hrun. }
  assert (filter (λ op, isFailure op = true) (closingMarks E c s) = [])
    as Hclose.
  { unfold closingMarks, goodMarks. destruct c as [r|]; [| done].
    destruct (meta_error (meta r)); [done |].
    destruct (lastProfileId s) as [pid|]; [| done].
    by destruct (Js.truthy pid). }
  split.
  - intros pid reason Hin. rewrite Hst in Hin.
    apply elem_of_app in Hin as [Hin | Hin].
    + rewrite Forall_forall in Hfs.
      destruct (Hfs _ Hin) as (pid' & reason' & [= <- <-] & Hpid).
      apply list_elem_of_fmap in Hpid as (a & ? & ?). by exists a.
    + assert (MarkFailure pid reason
              ∈ filter (λ op, isFailure op = true) (closingMarks E c s))
        as Hf by (by apply list_elem_of_filter).
      rewrite Hclose in Hf. by apply elem_of_nil in Hf.
  - rewrite Hst, filter_app, Hclose, app_nil_r.
    etrans; [apply length_filter | done].
Qed.

Lemma failures_name_attempted_profiles_witness :
  ∃ c s,
    runEmbeddedPiAgent Demo.threeProfiles 3 "/home" = Some (c, s)
    ∧ (∃ a, a ∈ attemptLog s ∧ ac_profileId a = Some "p2")
    ∧ length (filter (λ op, isFailure op = true) (storeLog s))
      ≤ length (attemptLog s).
Proof.
  let v := eval vm_compute in (runEmbeddedPiAgent Demo.threeProfiles 3 "/home")
  in assert (runEmbeddedPiAgent Demo.threeProfiles 3 "/home" = v) as Hrun
    by (vm_compute; reflexivity).
  destruct (failures_name_attempted_profiles _ _ _ _ _ Hrun) as (Hin & Hlen).
  eexists _, _. split; [exact Hrun |]. split; [| exact Hlen].
  apply (Hin "p2" "rate_limit").
  apply (list_elem_of_lookup_2 _ 1). vm_compute. reflexivity.
Defined.

(** X3.  A result is returned only after the executor was invoked at least
    once; it always carries its agent meta data, and its payload list is
    absent rather than empty. *)
Theorem returned_result_wellformed (E : Env) (fuel : nat)
    (startCwd : string) (r : EmbeddedPiRunResult) (s : State) :
  runEmbeddedPiAgent E fuel startCwd = Some (Returned r, s) →
  attemptLog s ≠ []
  ∧ payloads r ≠ Some []
  ∧ is_Some (agentMeta (meta r)).
Proof.
  intros Hrun.
  apply run_model in Hrun as [[_ [e [=]]] | (m & _ & Hrun)].
  apply runLoop_Books in Hrun as (_ & _ & Hr). by apply Hr.
Qed.

Lemma returned_result_wellformed_witness :
  ∃ r s,
    runEmbeddedPiAgent Demo.overflowing 1 "/home" = Some (Returned r, s)
    ∧ attemptLog s ≠ []
    ∧ payloads r ≠ Some []
    ∧ is_Some (agentMeta (meta r)).
Proof.
  let v := eval vm_compute in (runEmbeddedPiAgent Demo.overflowing 1 "/home")
  in assert (runEmbeddedPiAgent Demo.overflowing 1 "/home" = v) as Hrun
    by (vm_compute; reflexivity).
  eexists _, _. split; [exact Hrun |].
  exact (returned_result_wellformed _ _ _ _ _ Hrun).
Defined.

(** X4.  Every attempt of a finished run was handed the profile id and the
    runtime key of the credential resolved for the candidate at its index:
    the stored key itself or, when the model's provider is github-copilot,
    the token exchanged for it; an attempt never runs without a key. *)
Theorem attempts_run_with_resolved_key (E : Env) (model : Model)
    (fuel : nat) (startCwd : string) (c : Completion EmbeddedPiRunResult)
    (s : State) :
  (resolveModel (collaborators E) (provider E) (modelId E)).1 = Some model →
  runEmbeddedPiAgent E fuel startCwd = Some (c, s) →
  Forall (holdsKey E model) (attemptLog s).
Proof.
  intros Hmodel Hrun. by apply (run_Books E fuel startCwd c s model).
Qed.

Lemma attempts_run_with_resolved_key_witness :
  ∃ c s,
    runEmbeddedPiAgent Cases.copilot 1 "/home" = Some (c, s)
    ∧ ac_apiKey <$> attemptLog s = [Some "token-for-key-p1"]
    ∧ Forall (holdsKey Cases.copilot Cases.copilotModel) (attemptLog s).
Proof.
  let v := eval vm_compute in (runEmbeddedPiAgent Cases.copilot 1 "/home")
  in assert (runEmbeddedPiAgent Cases.copilot 1 "/home" = v) as Hrun
    by (vm_compute; reflexivity).
  eexists _, _. split; [exact Hrun |]. split; [reflexivity |].
  refine (attempts_run_with_resolved_key _ _ _ _ _ _ _ Hrun). reflexivity.
Defined.

(** ** The thinking level after a rotation *)

Section Resets.

Context (E : Env) (model : Model).

Lemma Reset_once (s s' s'' : State) :
  Reset E s → attemptedOnce E s s' →
  attemptLog s'' = attemptLog s' → profileIndex s'' = profileIndex s' →
  Reset E s''.
Proof.
  intros [Hfirsts Hnext] (Hi & _ & _ & _ & _ & Hlog & _) Hlog' Hi'.
  unfold Reset. rewrite Hlog', Hi', Hlog, Hi. split.
  - intros k a Hk Hfirst.
    destruct (decide (k < length (attemptLog s))) as [Hlt | Hge].
    + rewrite lookup_app_l in Hk by done.
      apply (Hfirsts k a Hk). intros j a0 b Hj Hb Ha0.
      apply (Hfirst j a0 b Hj); rewrite lookup_app_l; (lia || done).
    + pose proof Hk as Hk'.
      rewrite lookup_app_r in Hk' by lia.
      apply list_lookup_singleton_Some in Hk' as [_ <-].
      simpl. apply Hnext. intros b Hb.
      apply list_elem_of_lookup in Hb as [j Hj].
      assert (j < length (attemptLog s)) by by eapply lookup_lt_Some.
      apply (Hfirst j (currentCall s) b); [lia | | done].
      by rewrite lookup_app_l.
  - intros Hall. exfalso. apply (Hall (currentCall s)); [| done].
    apply elem_of_app. right. by constructor.
Qed.

Lemma Reset_rotate (s s' : State) :
  Reset E s →
  advanceAuthProfile E model s = (Returned true, s') →
  Reset E s'.
Proof.
  intros [Hfirsts _] Hadv.
  pose proof (advanceAuthProfile_spec E model s) as (_ & _ & Hlog & _ & Hr).
  rewrite Hadv in Hlog, Hr. simpl in Hlog, Hr.
  destruct Hr as (_ & _ & Hlevel & _).
  unfold Reset. rewrite Hlog. by split.
Qed.

Lemma Reset_turn (s : State) (st : Step) :
  Reset E s → turn E model s st → Reset E (stepState st).
Proof.
  intros HR [c|c s' Honce|message level s' Honce _|s1 s' Honce Hadv]; simpl.
  - exact HR.
  - by apply (Reset_once s s').
  - by apply (Reset_once s s').
  - apply (Reset_rotate s1); [| done]. by apply (Reset_once s s1).
Qed.

Lemma retryLoop_Reset (fuel : nat) (s s' : State)
    (c : Completion EmbeddedPiRunResult) :
  Reset E s → retryLoop E model fuel s = Some (c, s') → Reset E s'.
Proof.
  revert s. induction fuel as [|fuel IH]; intros s HR Hrun; [done |].
  simpl in Hrun. pose proof (loopBody_turn E model s) as Hturn.
  apply (Reset_turn s _ HR) in Hturn.
  destruct (loopBody E model s) as [s1|c1 s1]; simpl in Hturn.
  - by apply (IH s1).
  - by injection Hrun as <- <-.
Qed.

End Resets.

(** X5.  A rotation resets the thinking level: in the attempt log of a
    finished run, the first attempt made under each credential index ran at
    the thinking level the caller asked for (or "off"), whatever downgrades
    happened under the credentials before it. *)
Theorem rotation_resets_thinking_level (E : Env) (fuel : nat)
    (startCwd : string) (c : Completion EmbeddedPiRunResult) (s : State)
    (k : nat) (a : AttemptCall) :
  runEmbeddedPiAgent E fuel startCwd = Some (c, s) →
  attemptLog s !! k = Some a →
  firstUnderCredential (attemptLog s) k →
  ac_thinkLevel a = initialThinkLevel E.
Proof.
  intros Hrun.
  cut (attemptLog s = [] ∨ Reset E s).
  { intros [Hnil | [Hfirsts _]]; [by rewrite Hnil | by apply Hfirsts]. }
  apply run_inversion in Hrun as [[-> _] | (model & Hrun)]; [by left |].
  unfold runLoop in Hrun.
  pose proof (resolveInitial_spec E model startCwd) as Hinit.
  simpl in Hinit.
  destruct (resolveInitial E model (initialState E startCwd))
    as [[[]|e] s1]; simpl in *.
  - destruct (retryLoop E model fuel s1) as [[c2 s2]|] eqn:Hloop; [| done].
    injection Hrun as <- <-. right.
    apply retryLoop_Reset in Hloop; [exact Hloop |].
    destruct Hinit as (_ & _ & Hatt & _ & _ & _ & Hlevel & _).
    unfold Reset. rewrite Hatt. split; [by intros ? ? ? | done].
  - injection Hrun as <- <-. left. by destruct Hinit as (_ & _ & Hatt & _).
Qed.

Lemma rotation_resets_thinking_level_witness :
  ∃ c s a,
    runEmbeddedPiAgent Cases.downgradeThenRotate 3 "/home" = Some (c, s)
    ∧ ac_thinkLevel <$> attemptLog s = [high; medium; high]
    ∧ ac_profileIndex <$> attemptLog s = [0; 0; 1]
    ∧ attemptLog s !! 2 = Some a
    ∧ ac_thinkLevel a = high.
Proof.
  let v := eval vm_compute in
    (runEmbeddedPiAgent Cases.downgradeThenRotate 3 "/home")
  in assert (runEmbeddedPiAgent Cases.downgradeThenRotate 3 "/home" = v)
    as Hrun by (vm_compute; reflexivity).
  eexists _, _, _. split; [exact Hrun |].
  split; [reflexivity |]. split; [reflexivity |]. split; [reflexivity |].
  refine (rotation_resets_thinking_level _ _ _ _ _ 2 _ Hrun _ _);
    [reflexivity |].
  intros [|[|j]] a b Hj Hb Ha; [| | lia];
    vm_compute in Hb, Ha; injection Hb as <-; injection Ha as <-;
    vm_compute; lia.
Defined.

(** ** The candidates a rotation passes over *)

Lemma advanceFrom_threw (E : Env) (model : Model)
    (rest : list (option string)) (next : nat) (s : State) (e : Thrown) :
  (advanceFrom E model rest next s).1 = Threw e →
  ∃ pid, explicitProfileId E = Some pid ∧ Some pid ∈ rest
         ∧ resolves E model (Some pid) = false.
Proof.
  revert next s. induction rest as [|candidate rest IH]; intros next s; simpl;
    [done |].
  pose proof (applyApiKeyInfo_key E model candidate s) as Hkey.
  simpl in Hkey.
  destruct (applyApiKeyInfo E model candidate s) as [[[]|err] s1];
    simpl in *; [done |].
  destruct Hkey as [Hres _].
  destruct (Js.truthy_opt candidate && Js.strict_eq candidate _) eqn:Hpin.
  - intros _. apply andb_true_iff in Hpin as [Ht Heq].
    apply bool_decide_eq_true in Heq.
    destruct candidate as [pid|]; [| done].
    exists pid. split; [done |]. split; [by constructor | done].
  - intros Hthrew. destruct (IH _ _ Hthrew) as (pid & ? & ? & ?).
    exists pid. split; [done |]. split; [by constructor | done].
Qed.

(** X6.  A rotation takes the first usable credential: [advanceAuthProfile]
    looks the candidates after the current index up once each, in order; it
    lands on the first one whose key resolves, having passed over only
    candidates whose key does not; it reports exhaustion only after every
    remaining candidate failed to resolve; and it throws only on reaching the
    pinned profile when that one fails to resolve. *)
Theorem rotation_takes_first_usable_candidate (E : Env) (model : Model)
    (s : State) :
  let r := advanceAuthProfile E model s in
  let rest := drop (S (profileIndex s)) (profileCandidates E) in
  match r.1 with
  | Returned true =>
      ∃ k candidate,
        rest !! k = Some candidate
        ∧ resolves E model candidate = true
        ∧ Forall (λ c, resolves E model c = false) (take k rest)
        ∧ profileIndex r.2 = S (profileIndex s) + k
        ∧ resolveLog r.2 = resolveLog s ++ take (S k) rest
  | Returned false =>
      Forall (λ c, resolves E model c = false) rest
      ∧ profileIndex r.2 = profileIndex s
      ∧ resolveLog r.2 = resolveLog s ++ rest
  | Threw _ =>
      ∃ pid, explicitProfileId E = Some pid ∧ Some pid ∈ rest
             ∧ resolves E model (Some pid) = false
  end.
Proof.
  intros r rest. subst r. unfold advanceAuthProfile. fold rest.
  pose proof (advanceFrom_lands E model rest (S (profileIndex s)) s) as Hl.
  pose proof (advanceFrom_spec E model rest (S (profileIndex s)) s) as Hs.
  pose proof (advanceFrom_threw E model rest (S (profileIndex s)) s) as Ht.
  simpl in Hl, Hs.
  destruct (advanceFrom E model rest (S (profileIndex s)) s)
    as [[[]|e] s']; simpl in *.
  - destruct Hl as (k & candidate & info & Hlook & Hidx & Hskip & Hres
                    & Hlog & _).
    exists k, candidate. split_and!; try done.
    apply Forall_forall. intros c Hc.
    apply elem_of_take in Hc as (j & Hc & Hj). by apply (Hskip j).
  - destruct Hl as (Hall & Hlog & _).
    destruct Hs as (_ & _ & _ & _ & Hi & _). done.
  - by apply (Ht e).
Qed.

(** X7.  When no profile is pinned and no candidate's key resolves, the run
    throws the error of the first candidate (not the last one tried), after
    looking every candidate up exactly once in the configured order; no
    attempt is made and the store is not touched. *)
Theorem unresolvable_credentials_rethrow_first_error (E : Env)
    (model : Model) (fuel : nat) (startCwd : string) :
  startsLoop E model →
  explicitProfileId E = None →
  Forall (λ c, resolves E model c = false) (profileCandidates E) →
  ∃ err s,
    (applyApiKeyInfo E model (mjoin (profileCandidates E !! 0))
       (initialState E startCwd)).1 = Threw err
    ∧ runEmbeddedPiAgent E fuel startCwd = Some (Threw err, s)
    ∧ resolveLog s = profileCandidates E
    ∧ attemptLog s = [] ∧ storeLog s = [].
Proof.
  intros Hstart Hpin Hall.
  rewrite (startsLoop_run E model fuel startCwd Hstart).
  unfold runLoop, resolveInitial.
  change (profileIndex (initialState E startCwd)) with 0.
  set (s0 := initialState E startCwd).
  pose proof (profileCandidates_nonempty E) as Hne.
  destruct (profileCandidates E) as [|c0 rest] eqn:Hcs; [simpl in Hne; lia |].
  simpl. fold s0.
  assert (match c0 with Some _ => True | None => rest = [] end) as Hc0.
  { unfold profileCandidates in Hcs. case_bool_decide.
    - destruct (profileOrder E); simpl in Hcs; by simplify_eq.
    - by simplify_eq. }
  pose proof (applyApiKeyInfo_key E model c0 s0) as Hkey.
  pose proof (applyApiKeyInfo_spec E model c0 s0) as Hspec.
  simpl in Hkey, Hspec.
  apply Forall_cons in Hall as [Hc Hrest].
  destruct (applyApiKeyInfo E model c0 s0) as [[[]|err] s1]; simpl in *.
  { destruct Hkey as [Hres _]. congruence. }
  destruct Hspec as ((Hi & _ & _ & _ & Hst & Hatt) & Hlog & _).
  exists err. rewrite Hpin.
  destruct c0 as [p|].
  - change (Js.strict_eq (Some p) None) with false. cbv iota.
    unfold advanceAuthProfile. rewrite Hcs, Hi. simpl. rewrite drop_0.
    pose proof (advanceFrom_lands E model rest 1 s1) as Hl.
    pose proof (advanceFrom_spec E model rest 1 s1) as Hs.
    pose proof (advanceFrom_threw E model rest 1 s1) as Ht.
    simpl in Hl, Hs.
    destruct (advanceFrom E model rest 1 s1) as [[[]|e] s2]; simpl in *.
    + destruct Hl as (k & c & info & Hlook & _ & _ & Hres & _).
      rewrite Forall_forall in Hrest.
      rewrite Hrest in Hres; [done |]. by eapply list_elem_of_lookup_2.
    + destruct Hl as (_ & Hlog2 & _). destruct Hs as (_ & Hst2 & Hatt2 & _).
      eexists. split_and!; try done; [| congruence | congruence].
      by rewrite Hlog2, Hlog.
    + destruct (Ht e eq_refl) as (pid & Hpid & _). congruence.
  - change (Js.strict_eq None None) with true. cbv iota. subst rest.
    eexists. by split_and!.
Qed.

Lemma unresolvable_credentials_rethrow_first_error_witness :
  ∃ s,
    runEmbeddedPiAgent Cases.noKeys 5 "/home"
    = Some (Threw (JsError "no credentials for p1"), s)
    ∧ resolveLog s = [Some "p1"; Some "p2"]
    ∧ attemptLog s = [] ∧ storeLog s = [].
Proof.
  destruct (unresolvable_credentials_rethrow_first_error Cases.noKeys
              Demo.theModel 5 "/home")
    as (err & s & Herr & Hrun & Hlog & Hatt & Hst).
  - split_and!; [reflexivity | reflexivity | vm_compute; lia | done].
  - reflexivity.
  - repeat constructor.
  - vm_compute in Herr. injection Herr as <-.
    exists s. split; [exact Hrun |]. split; [exact Hlog |]. by split.
Defined.

(** ** Errors of the prompt itself *)

(** X8.  A prompt error whose text classifies as a timeout is not held
    against the credential: when the attempt was not aborted and the text is
    not a context overflow, the turn records no failure, looks no key up and
    keeps the credential index; it either retries at the thinking level
    picked by [pickFallbackThinkingLevel] or rethrows the prompt's own
    error. *)
Theorem prompt_timeout_keeps_credential (E : Env) (model : Model)
    (s : State) (attempt : AttemptResult) (pe : Thrown) :
  attemptYields E s attempt →
  promptError attempt = Some pe →
  ar_aborted attempt = false →
  isContextOverflowError (helpers E) (describeUnknownError (helpers E) pe)
  = false →
  classifyFailoverReason (helpers E) (describeUnknownError (helpers E) pe)
  = Some "timeout" →
  ∃ s',
    storeLog s' = storeLog s
    ∧ resolveLog s' = resolveLog s
    ∧ profileIndex s' = profileIndex s
    ∧ attemptLog s' = attemptLog s ++ [currentCall s]
    ∧ loopBody E model s
      = match pickFallbackThinkingLevel (helpers E)
                (Some (describeUnknownError (helpers E) pe))
                ({[thinkLevel s]} ∪ attemptedThinking s) with
        | Some level => Continue s'
        | None => Stop (Threw pe) s'
        end
    ∧ match pickFallbackThinkingLevel (helpers E)
              (Some (describeUnknownError (helpers E) pe))
              ({[thinkLevel s]} ∪ attemptedThinking s) with
      | Some level => thinkLevel s' = level
      | None => thinkLevel s' = thinkLevel s
      end.
Proof.
  intros Hyield Hpe Hab Hover Hclass.
  rewrite (loopBody_yields E model s attempt Hyield), Hpe, Hab.
  unfold onPromptError. rewrite Hover, Hclass.
  change (Js.strict_eq (Some "timeout") (Some "timeout")) with true.
  rewrite !andb_false_r. simpl.
  destruct (lastProfileId s);
    destruct (pickFallbackThinkingLevel _ _ _) as [level|];
    [exists (set_thinkLevel level (log_attempt (enterTurn s)))
    |exists (log_attempt (enterTurn s))
    |exists (set_thinkLevel level (log_attempt (enterTurn s)))
    |exists (log_attempt (enterTurn s))];
    by split_and!.
Qed.

Lemma prompt_timeout_keeps_credential_witness :
  ∃ s',
    loopBody Cases.promptTimeout Demo.theModel
      (Demo.ready Cases.promptTimeout)
    = Stop (Threw (JsError "request timed out")) s'
    ∧ storeLog s' = [] ∧ resolveLog s' = [Some "p1"] ∧ profileIndex s' = 0.
Proof.
  destruct (prompt_timeout_keeps_credential Cases.promptTimeout Demo.theModel
              (Demo.ready Cases.promptTimeout)
              {| ar_aborted := false; ar_timedOut := false;
                 promptError := Some (JsError "request timed out");
                 sessionIdUsed := "s1"; lastAssistant := None;
                 assistantTexts := ["hello"];
                 ar_didSendViaMessagingTool := false;
                 ar_messagingToolSentTexts := [];
                 cloudCodeAssistFormatError := false |}
              (JsError "request timed out"))
    as (s' & Hst & Hlog & Hi & _ & Hbody & _).
  - split; reflexivity.
  - reflexivity.
  - reflexivity.
  - reflexivity.
  - reflexivity.
  - exists s'. split; [exact Hbody |]. split; [exact Hst |].
    split; [exact Hlog | exact Hi].
Defined.

(** X9.  A prompt error that classifies as a failover reason other than a
    timeout is held against the credential before anything else happens: the
    failure is recorded once, with the classified reason, against the profile
    in use; then, the text being a failover message, the next usable
    candidate is taken.  When the candidates are exhausted the turn retries
    at a lower thinking level or rethrows the prompt's own error: no result
    is returned and no typed failover error is built on this path. *)
Theorem prompt_failover_records_then_rotates (E : Env) (model : Model)
    (s : State) (attempt : AttemptResult) (pe : Thrown)
    (reason pid : string) :
  attemptYields E s attempt →
  promptError attempt = Some pe →
  ar_aborted attempt = false →
  isContextOverflowError (helpers E) (describeUnknownError (helpers E) pe)
  = false →
  classifyFailoverReason (helpers E) (describeUnknownError (helpers E) pe)
  = Some reason →
  Js.truthy reason = true →
  reason ≠ "timeout" →
  lastProfileId s = Some pid →
  Js.truthy pid = true →
  isFailoverErrorMessage (helpers E) (describeUnknownError (helpers E) pe)
  = true →
  let marked :=
    markAuthProfileFailure pid reason (log_attempt (enterTurn s)) in
  storeLog (stepState (loopBody E model s))
  = storeLog s ++ [MarkFailure pid reason]
  ∧ match advanceAuthProfile E model marked with
    | (Returned true, s2) =>
        loopBody E model s = Continue s2
        ∧ profileIndex s < profileIndex s2
    | (Returned false, s2) =>
        loopBody E model s
        = match pickFallbackThinkingLevel (helpers E)
                  (Some (describeUnknownError (helpers E) pe))
                  (attemptedThinking s2) with
          | Some level => Continue (set_thinkLevel level s2)
          | None => Stop (Threw pe) s2
          end
    | (Threw e, s2) => loopBody E model s = Stop (Threw e) s2
    end.
Proof.
  intros Hyield Hpe Hab Hover Hclass Hreason Hnot Hpid Htruthy Hmsg marked.
  rewrite (loopBody_yields E model s attempt Hyield), Hpe, Hab.
  unfold onPromptError. rewrite Hover, Hclass, Hmsg.
  change (lastProfileId (log_attempt (enterTurn s))) with (lastProfileId s).
  rewrite Hpid, Hreason, Htruthy.
  assert (Js.strict_eq (Some reason) (Some "timeout") = false) as ->.
  { apply bool_decide_eq_false. congruence. }
  simpl. fold marked.
  pose proof (advanceAuthProfile_spec E model marked) as Hspec.
  simpl in Hspec.
  destruct (advanceAuthProfile E model marked) as [[[]|e] s2]; simpl in *.
  - destruct Hspec as (_ & Hst & _ & _ & Hlt & _). by rewrite Hst.
  - destruct Hspec as (_ & Hst & _).
    by destruct (pickFallbackThinkingLevel _ _ _).
  - by destruct Hspec as (_ & Hst & _).
Qed.

Lemma prompt_failover_records_then_rotates_witness :
  ∃ s2,
    loopBody Cases.promptRateLimited Demo.theModel
      (Demo.ready Cases.promptRateLimited) = Continue s2
    ∧ storeLog s2 = [MarkFailure "p1" "rate_limit"]
    ∧ 0 < profileIndex s2.
Proof.
  pose proof (prompt_failover_records_then_rotates Cases.promptRateLimited
                Demo.theModel (Demo.ready Cases.promptRateLimited)
                {| ar_aborted := false; ar_timedOut := false;
                   promptError := Some (JsError "rate limit exceeded");
                   sessionIdUsed := "s1"; lastAssistant := None;
                   assistantTexts := ["hello"];
                   ar_didSendViaMessagingTool := false;
                   ar_messagingToolSentTexts := [];
                   cloudCodeAssistFormatError := false |}
                (JsError "rate limit exceeded") "rate_limit" "p1") as Hthm.
  destruct Hthm as (Hst & Hadv).
  - split; reflexivity.
  - reflexivity.
  - reflexivity.
  - reflexivity.
  - reflexivity.
  - reflexivity.
  - discriminate.
  - reflexivity.
  - reflexivity.
  - reflexivity.
  - destruct (advanceAuthProfile Cases.promptRateLimited Demo.theModel _)
      as [[[]|e] s2] eqn:Hrot; try (vm_compute in Hrot; discriminate Hrot).
    destruct Hadv as (Hbody & Hlt).
    exists s2. rewrite Hbody in Hst. split; [exact Hbody |].
    split; [exact Hst | exact Hlt].
Defined.

(** ** A pinned profile that is not configured *)

Section Lookups.

Context (E : Env) (model : Model).

(** A turn only adds to the key lookups. *)
Lemma turn_lookups (s : State) (st : Step) :
  turn E model s st →
  ∃ tried, resolveLog (stepState st) = resolveLog s ++ tried.
Proof.
  assert (∀ s1, attemptedOnce E s s1 →
                ∃ tried, resolveLog s1 = resolveLog s ++ tried) as Honce.
  { intros s1 (_ & _ & _ & _ & _ & _ & _ & tried & Hres & _). by exists tried. }
  intros [c | c s' Hs | message level s' Hs _ | s1 s' Hs Hadv]; simpl.
  - exists []. by rewrite app_nil_r.
  - by apply Honce.
  - by apply Honce.
  - destruct (Honce s1 Hs) as [tried Htried].
    pose proof (advanceAuthProfile_spec E model s1) as Hspec.
    rewrite Hadv in Hspec. simpl in Hspec.
    destruct Hspec as (_ & _ & _ & (more & Hmore & _) & _).
    exists (tried ++ more). by rewrite Hmore, Htried, app_assoc.
Qed.

Lemma retryLoop_lookups (fuel : nat) (s s' : State)
    (c : Completion EmbeddedPiRunResult) :
  retryLoop E model fuel s = Some (c, s') →
  ∃ tried, resolveLog s' = resolveLog s ++ tried.
Proof.
  revert s. induction fuel as [|fuel IH]; intros s Hrun; [done |].
  simpl in Hrun.
  destruct (turn_lookups s _ (loopBody_turn E model s)) as [tried Htried].
  destruct (loopBody E model s) as [s1 | c1 s1]; simpl in Htried.
  - destruct (IH s1 Hrun) as [more Hmore].
    exists (tried ++ more). by rewrite Hmore, Htried, app_assoc.
  - simplify_eq. by exists tried.
Qed.

(** A run that reaches the credentials looks the first candidate up before
    anything else. *)
Lemma runLoop_lookups (fuel : nat) (startCwd : string) (s : State)
    (c : Completion EmbeddedPiRunResult) :
  runLoop E model fuel (initialState E startCwd) startCwd = Some (c, s) →
  ∃ tried,
    resolveLog s = mjoin (profileCandidates E !! 0) :: tried.
Proof.
  unfold runLoop, resolveInitial.
  change (profileIndex (initialState E startCwd)) with 0.
  pose proof (applyApiKeyInfo_spec E model
                (mjoin (profileCandidates E !! 0)) (initialState E startCwd))
    as (_ & Hfirst & _).
  destruct (applyApiKeyInfo E model _ _) as [[[]|err] s1]; simpl in Hfirst.
  - destruct (retryLoop E model fuel s1) as [[c2 s2]|] eqn:Hretry; [| done].
    intros [= <- <-]. apply retryLoop_lookups in Hretry as [tried Htried].
    exists tried. simpl. by rewrite Htried, Hfirst.
  - destruct (Js.strict_eq _ _).
    { intros [= <- <-]. exists []. by rewrite Hfirst. }
    pose proof (advanceAuthProfile_spec E model s1)
      as (_ & _ & _ & (tried & Htried & _) & _).
    destruct (advanceAuthProfile E model s1) as [[[]|e] s2];
      simpl in Htried.
    + destruct (retryLoop E model fuel s2) as [[c2 s3]|] eqn:Hretry;
        [| done].
      intros [= <- <-]. apply retryLoop_lookups in Hretry as [more Hmore].
      exists (tried ++ more). simpl.
      by rewrite Hmore, Htried, Hfirst, <-app_assoc.
    + intros [= <- <-]. exists tried. by rewrite Htried, Hfirst.
    + intros [= <- <-]. exists tried. by rewrite Htried, Hfirst.
Qed.

End Lookups.

(** X10.  The pinned profile is checked, in its trimmed form, before any
    credential is touched.  A run that pins a (non-blank) auth profile which
    is not in the order resolved for the provider is rejected with the "is
    not configured" error once the model and its context window have been
    accepted: for every fuel it throws before any key lookup, attempt or
    store update, leaving the working directory where it was.  And this is
    the only way for such a run to end without a key lookup: every other run
    has looked up the key of the first candidate before it ends, whatever
    its outcome. *)
Theorem unconfigured_pinned_profile_rejected (E : Env) (model : Model)
    (fuel : nat) (startCwd : string) :
  ensureClawdbotModelsJson (collaborators E) = None →
  (resolveModel (collaborators E) (provider E) (modelId E)).1 = Some model →
  cw_tokens (resolveContextWindowInfo (collaborators E) (provider E)
               (modelId E) (m_contextWindow model)
               (DEFAULT_CONTEXT_TOKENS (constants E)))
  ≥ CONTEXT_WINDOW_HARD_MIN_TOKENS (constants E) →
  (∀ pid,
     explicitProfileId E = Some pid →
     Js.truthy pid = true →
     pid ∉ profileOrder E →
     ∃ s,
       runEmbeddedPiAgent E fuel startCwd
       = Some (Threw (JsError ("Auth profile " +:+ dquote +:+ pid +:+ dquote
                               +:+ " is not configured for " +:+ provider E
                               +:+ ".")), s)
       ∧ resolveLog s = [] ∧ attemptLog s = [] ∧ storeLog s = []
       ∧ cwd s = startCwd)
  ∧ (∀ c s,
       runEmbeddedPiAgent E fuel startCwd = Some (c, s) →
       (∃ pid, explicitProfileId E = Some pid ∧ Js.truthy pid = true
               ∧ pid ∉ profileOrder E)
       ∨ ∃ tried, resolveLog s = mjoin (profileCandidates E !! 0) :: tried).
Proof.
  intros Hjson Hmodel Hctx. split.
  - intros pid Hpin Htruthy Hnot.
    unfold runEmbeddedPiAgent. rewrite Hjson.
    destruct (resolveModel _ _ _) as [m error]. simpl in Hmodel. subst m.
    unfold evaluateContextWindowGuard; simpl.
    rewrite bool_decide_eq_false_2 by lia.
    rewrite Hpin, Htruthy, bool_decide_eq_false_2 by done. simpl.
    eexists. by split_and!.
  - intros c s.
    destruct (explicitProfileId E) as [pid|] eqn:Hpin.
    + destruct (Js.truthy pid) eqn:Htruthy.
      * destruct (decide (pid ∈ profileOrder E)) as [Hin | Hnot].
        -- rewrite (startsLoop_run E model fuel startCwd).
           ++ intros Hrun. right. by eapply runLoop_lookups.
           ++ split_and!; try done. by rewrite Hpin.
        -- intros _. left. by exists pid.
      * rewrite (startsLoop_run E model fuel startCwd).
        -- intros Hrun. right. by eapply runLoop_lookups.
        -- split_and!; try done. rewrite Hpin. congruence.
    + rewrite (startsLoop_run E model fuel startCwd).
      * intros Hrun. right. by eapply runLoop_lookups.
      * split_and!; try done. by rewrite Hpin.
Qed.

Lemma unconfigured_pinned_profile_rejected_witness :
  explicitProfileId Cases.pinnedUnknown = Some "px"
  ∧ (∃ message s,
       runEmbeddedPiAgent Cases.pinnedUnknown 3 "/home"
       = Some (Threw (JsError message), s)
       ∧ resolveLog s = [] ∧ attemptLog s = [] ∧ storeLog s = []
       ∧ cwd s = "/home")
  ∧ explicitProfileId Cases.pinnedPadded = Some "p1"
  ∧ ∃ r s tried,
      runEmbeddedPiAgent Cases.pinnedPadded 3 "/home" = Some (Returned r, s)
      ∧ resolveLog s = Some "p1" :: tried.
Proof.
  split; [reflexivity |]. split; [| split; [reflexivity |]].
  - destruct (unconfigured_pinned_profile_rejected Cases.pinnedUnknown
                Demo.theModel 3 "/home") as [Hrejected _].
    + reflexivity.
    + reflexivity.
    + vm_compute. lia.
    + destruct (Hrejected "px") as (s & Hrun & Hrest).
      * reflexivity.
      * reflexivity.
      * intros Hin. apply list_elem_of_singleton in Hin. discriminate Hin.
      * eexists _, s. split; [exact Hrun | exact Hrest].
  - destruct (unconfigured_pinned_profile_rejected Cases.pinnedPadded
                Demo.theModel 3 "/home") as [_ Hother].
    + reflexivity.
    + reflexivity.
    + vm_compute. lia.
    + let v := eval vm_compute in
               (runEmbeddedPiAgent Cases.pinnedPadded 3 "/home") in
      assert (runEmbeddedPiAgent Cases.pinnedPadded 3 "/home" = v) as Hrun
        by (vm_compute; reflexivity).
      destruct (Hother _ _ Hrun) as [(pid & Hpid & _ & Hnot) | [tried Hlog]].
      * exfalso. apply Hnot. injection Hpid as <-. by left.
      * eexists _, _, tried. split; [exact Hrun | exact Hlog].
Defined.

(** ** The abort flags of an attempt *)

Lemma fold_abortRun_flags (l : list bool) (f : AbortFlags) :
  let f' := fold_left (λ f b, abortRun b f) l f in
  (timedOut f' = true ↔ timedOut f = true ∨ true ∈ l)
  ∧ (aborted f' = true ↔ aborted f = true ∨ l ≠ []).
Proof.
  revert f. induction l as [|b l IH]; intros f; simpl.
  { split; split; try tauto; intros [? | Hin]; try done.
    by apply elem_of_nil in Hin. }
  destruct (IH (abortRun b f)) as [Ht Ha]. simpl in Ht, Ha. split.
  - rewrite Ht. unfold abortRun; simpl. destruct b.
    + split; [intros _; right; by constructor | by left].
    + split.
      * intros [? | ?]; [by left | right; by constructor].
      * intros [? | Hin]; [by left |]. right.
        apply elem_of_cons in Hin as [? | ?]; done.
  - rewrite Ha. simpl. split; [intros _; by right | by left].
Qed.

(** X11.  The flags an attempt reports: [timedOut] is set exactly when the
    timeout timer called [abortRun(true)], so an abort by the caller alone
    never counts as a timeout; [aborted] is set exactly when the caller's
    signal was already aborted at the start or [abortRun] was called at
    all. *)
Theorem attempt_flags_reflect_aborts (H : Helpers) (sc : AttemptScript)
    (s s' : State) (attempt : AttemptResult) :
  runEmbeddedAttempt H sc s = (Returned attempt, s') →
  (ar_timedOut attempt = true ↔ true ∈ as_aborts sc)
  ∧ (ar_aborted attempt = true
     ↔ as_signalAborted sc = true ∨ as_aborts sc ≠ []).
Proof.
  intros Hrun.
  destruct (runEmbeddedAttempt_flags H sc s s' attempt Hrun) as [-> ->].
  unfold attemptFlags.
  set (started := if as_signalAborted sc then _ else _).
  destruct (fold_abortRun_flags (as_aborts sc) started) as [Ht Ha].
  simpl in Ht, Ha. rewrite Ht, Ha. subst started.
  destruct (as_signalAborted sc); simpl; intuition congruence.
Qed.

Lemma attempt_flags_reflect_aborts_witness :
  ∃ attempt s',
    runEmbeddedAttempt Demo.theHelpers (Demo.withAborts [false] Demo.quiet)
      (Demo.ready Demo.cancelled) = (Returned attempt, s')
    ∧ ar_aborted attempt = true ∧ ar_timedOut attempt = false.
Proof.
  let v := eval vm_compute in
    (runEmbeddedAttempt Demo.theHelpers (Demo.withAborts [false] Demo.quiet)
       (Demo.ready Demo.cancelled))
  in assert (runEmbeddedAttempt Demo.theHelpers
               (Demo.withAborts [false] Demo.quiet)
               (Demo.ready Demo.cancelled) = v) as Hrun
    by (vm_compute; reflexivity).
  destruct (attempt_flags_reflect_aborts _ _ _ _ _ Hrun) as [Ht Ha].
  eexists _, _. split; [exact Hrun |]. split; reflexivity.
Defined.

(** * The chat command registry *)

Section RegistryFacts.

Import Registry.

Lemma union_singleton_swap (x : string) (A B : gset string) :
  A ∪ ({[x]} ∪ B) = {[x]} ∪ A ∪ B.
Proof.
  by rewrite (assoc_L (∪)), (comm_L (∪) A {[x]}).
Qed.

Lemma fresh_nil (X : gset string) : fresh X [].
Proof.
  split; [constructor |]. intros x Hx. by apply elem_of_nil in Hx.
Qed.

Lemma fresh_cons (X : gset string) (x : string) (l : list string) :
  fresh X (x :: l) ↔ (x ∉ X) ∧ fresh ({[x]} ∪ X) l.
Proof.
  unfold fresh. rewrite NoDup_cons. split.
  - intros [[Hx Hl] Hout]. split; [apply Hout; by left |].
    split; [done |]. intros y Hy. rewrite not_elem_of_union.
    split; [| apply Hout; by right].
    rewrite elem_of_singleton. by intros ->.
  - intros [Hx [Hl Hout]]. split; [split; [| done] |].
    + intros Hin. apply (Hout x Hin).
      apply elem_of_union_l. by apply elem_of_singleton.
    + intros y Hy. apply elem_of_cons in Hy as [-> | Hy]; [done |].
      intros HX. apply (Hout y Hy). by apply elem_of_union_r.
Qed.

Lemma fresh_app (X : gset string) (l1 l2 : list string) :
  fresh X (l1 ++ l2) ↔ fresh X l1 ∧ fresh (list_to_set l1 ∪ X) l2.
Proof.
  revert X. induction l1 as [|x l1 IH]; intros X; simpl.
  - rewrite (left_id_L ∅ (∪)). split; [| by intros [_ ?]].
    split; [apply fresh_nil | done].
  - rewrite !fresh_cons, IH, union_singleton_swap. tauto.
Qed.

Context (toLowerCase : string → string).

Local Abbreviation checkAlias := (Registry.checkAlias toLowerCase).
Local Abbreviation checkAliases := (Registry.checkAliases toLowerCase).
Local Abbreviation checkNativeName := (Registry.checkNativeName toLowerCase).
Local Abbreviation nativeKeyOf := (Registry.nativeKeyOf toLowerCase).
Local Abbreviation checkCommand := (Registry.checkCommand toLowerCase).
Local Abbreviation checkCommands := (Registry.checkCommands toLowerCase).
Local Abbreviation passes := (Registry.passes toLowerCase).
Local Abbreviation seenAfter := (Registry.seenAfter toLowerCase).
Local Abbreviation consistentFrom := (Registry.consistentFrom toLowerCase).
Local Abbreviation Consistent := (Registry.Consistent toLowerCase).

Lemma checkAliases_spec (seen : gset string) (aliases : list string) :
  match checkAliases seen aliases with
  | inr seen' =>
      (Forall (λ alias, JsText.startsWith alias "/" = true) aliases
       ∧ fresh seen (toLowerCase <$> aliases))
      ∧ seen' = list_to_set (toLowerCase <$> aliases) ∪ seen
  | inl _ =>
      ¬ (Forall (λ alias, JsText.startsWith alias "/" = true) aliases
         ∧ fresh seen (toLowerCase <$> aliases))
  end.
Proof.
  revert seen. induction aliases as [|alias rest IH]; intros seen; simpl.
  { split; [split; [constructor | apply fresh_nil] |].
    by rewrite (left_id_L ∅ (∪)). }
  unfold Registry.checkAlias.
  destruct (JsText.startsWith alias "/") eqn:Hslash; simpl.
  2:{ intros [Hall _]. apply Forall_cons in Hall as [? _]. congruence. }
  case_bool_decide as Hseen.
  { rewrite fresh_cons. tauto. }
  specialize (IH ({[toLowerCase alias]} ∪ seen)).
  destruct (checkAliases _ rest) as [e|seen'].
  - rewrite fresh_cons, Forall_cons. tauto.
  - destruct IH as [[Hall Hfresh] ->].
    rewrite fresh_cons, Forall_cons. split; [tauto |].
    apply union_singleton_swap.
Qed.

Lemma checkNativeName_spec (names : gset string)
    (c : ChatCommandDefinition) :
  let named := Js.truthy_opt (Js.trim <$> nativeName c) in
  let ok :=
    (if bool_decide (scope c = text)
     then named = false ∧ textAliases c ≠ []
     else named = true)
    ∧ fresh names (option_list (nativeKeyOf c)) in
  match checkNativeName names c with
  | inr names' =>
      ok ∧ names' = list_to_set (option_list (nativeKeyOf c)) ∪ names
  | inl _ => ¬ ok
  end.
Proof.
  unfold Registry.checkNativeName, Registry.nativeKeyOf. simpl.
  case_bool_decide as Hscope; simpl.
  - destruct (Js.truthy_opt _); [by intros [[? _] _] |].
    case_bool_decide as Hlen.
    + intros [[_ Hne] _]. by destruct (textAliases c).
    + split; [| by rewrite (left_id_L ∅ (∪))].
      split; [| apply fresh_nil]. split; [done |].
      intros Hnil. by rewrite Hnil in Hlen.
  - destruct (nativeName c) as [name|]; simpl; [| by intros [? _]].
    destruct (Js.truthy (Js.trim name)); [| by intros [? _]].
    case_bool_decide as Hin.
    + rewrite fresh_cons. tauto.
    + rewrite fresh_cons. split; [| by rewrite (right_id_L ∅ (∪))].
      split; [done |]. split; [done | apply fresh_nil].
Qed.

Lemma checkCommand_spec (seen : Seen) (c : ChatCommandDefinition) :
  match checkCommand seen c with
  | inr seen' => passes seen c ∧ seen' = seenAfter seen c
  | inl _ => ¬ passes seen c
  end.
Proof.
  unfold Registry.checkCommand, Registry.passes, scopeCoherent.
  case_bool_decide as Hkey; [tauto |].
  pose proof (checkNativeName_spec (seenNativeNames seen) c) as Hname.
  pose proof (checkAliases_spec (seenAliases seen) (textAliases c)) as Hal.
  simpl in Hname.
  destruct (checkNativeName _ c) as [e|names].
  { intros (_ & [Hscope _] & Hfresh & _). apply Hname. split; [| done].
    case_bool_decide as Ht; [by rewrite Ht in Hscope |].
    by destruct (scope c); try tauto. }
  destruct Hname as [[Hnamed Hfresh] ->].
  destruct (bool_decide (scope c = native)
            && bool_decide (0 < length (textAliases c))) eqn:Hnative.
  { apply andb_true_iff in Hnative as [Hn Hlen].
    apply bool_decide_eq_true in Hn. apply bool_decide_eq_true in Hlen.
    rewrite Hn. intros (_ & [[_ Hnil] _] & _). rewrite Hnil in Hlen.
    simpl in Hlen. lia. }
  destruct (checkAliases _ _) as [e|aliases]; [tauto |].
  destruct Hal as [[Hslash Hfa] ->]. split; [| done].
  split_and!; try done.
  destruct (scope c) eqn:Hsc; simpl in *.
  - done.
  - apply bool_decide_eq_false in Hnative.
    split; [done |]. destruct (textAliases c); [done | simpl in *; lia].
  - done.
Qed.

Lemma consistentFrom_cons (seen : Seen) (c : ChatCommandDefinition)
    (cs : list ChatCommandDefinition) :
  consistentFrom seen (c :: cs)
  ↔ passes seen c ∧ consistentFrom (seenAfter seen c) cs.
Proof.
  unfold Registry.consistentFrom, Registry.passes, Registry.seenAfter.
  cbn [seenKeys seenNativeNames seenAliases].
  assert (omap nativeKeyOf (c :: cs)
          = option_list (nativeKeyOf c) ++ omap nativeKeyOf cs) as ->.
  { simpl. by destruct (nativeKeyOf c). }
  assert ((c :: cs) ≫= textAliases
          = textAliases c ++ (cs ≫= textAliases)) as -> by done.
  rewrite fmap_cons, fmap_app, fresh_cons, !fresh_app, Forall_cons. tauto.
Qed.

Lemma checkCommands_spec (seen : Seen) (cs : list ChatCommandDefinition) :
  match checkCommands seen cs with
  | inr _ => consistentFrom seen cs
  | inl _ => ¬ consistentFrom seen cs
  end.
Proof.
  revert seen. induction cs as [|c cs IH]; intros seen; simpl.
  { unfold Registry.consistentFrom. simpl. split_and!; try apply fresh_nil.
    constructor. }
  pose proof (checkCommand_spec seen c) as Hc.
  destruct (checkCommand seen c) as [e|seen'].
  - rewrite consistentFrom_cons. tauto.
  - destruct Hc as [Hpass ->]. specialize (IH (seenAfter seen c)).
    destruct (checkCommands _ cs); rewrite consistentFrom_cons; tauto.
Qed.

Lemma consistentFrom_nothing (cs : list ChatCommandDefinition) :
  consistentFrom nothingSeen cs ↔ Consistent cs.
Proof.
  unfold Registry.consistentFrom, Registry.Consistent, fresh. simpl.
  split.
  - intros ([? _] & [? _] & [? _] & ?). done.
  - intros (? & ? & ? & ?).
    split_and!; try done; intros x _; apply not_elem_of_empty.
Qed.

End RegistryFacts.

(** X12.  [assertCommandRegistry] accepts exactly the consistent
    registries: it returns without throwing if and only if the command keys
    are pairwise distinct, the native names of the commands that are not
    text-only are distinct up to letter case, the text aliases of all
    commands are distinct up to letter case and start with a slash, a
    text-only command has no native name and at least one alias, every other
    command has a non-blank native name, and a native-only command has no
    alias. *)
Theorem registry_check_accepts_consistent
    (toLowerCase : string → string)
    (commands : list Registry.ChatCommandDefinition) :
  Registry.assertCommandRegistry toLowerCase commands = inr ()
  ↔ Registry.Consistent toLowerCase commands.
Proof.
  unfold Registry.assertCommandRegistry.
  rewrite <-consistentFrom_nothing.
  pose proof (checkCommands_spec toLowerCase Registry.nothingSeen commands)
    as Hspec.
  destruct (Registry.checkCommands _ _ commands); split; try done.
Qed.

(** ** Trimming a string twice *)

Lemma string_app_cons (x : Ascii.ascii) (a b : string) :
  String x a +:+ b = String x (a +:+ b).
Proof. reflexivity. Qed.

Lemma string_app_assoc (a b c : string) : (a +:+ b) +:+ c = a +:+ (b +:+ c).
Proof.
  induction a as [|x a IH]; [reflexivity |].
  by rewrite !string_app_cons, IH.
Qed.

Lemma string_app_empty_r (a : string) : a +:+ EmptyString = a.
Proof.
  induction a as [|x a IH]; [reflexivity |]. by rewrite string_app_cons, IH.
Qed.

Lemma string_rev_app (s1 s2 : string) :
  String.rev_app s1 s2 = String.rev s1 +:+ s2.
Proof.
  revert s2. induction s1 as [|x s1 IH]; intros s2; [reflexivity |].
  unfold String.rev.
  change (String.rev_app s1 (String x s2)
          = String.rev_app s1 (String x EmptyString) +:+ s2).
  rewrite (IH (String x s2)), (IH (String x EmptyString)).
  by rewrite string_app_assoc.
Qed.

Lemma string_rev_cons (x : Ascii.ascii) (s : string) :
  String.rev (String x s) = String.rev s +:+ String x EmptyString.
Proof. apply (string_rev_app s (String x EmptyString)). Qed.

Lemma string_rev_snoc (s : string) (x : Ascii.ascii) :
  String.rev (s +:+ String x EmptyString) = String x (String.rev s).
Proof.
  induction s as [|y s IH]; [reflexivity |].
  by rewrite string_app_cons, !string_rev_cons, IH.
Qed.

Lemma string_rev_involutive (s : string) : String.rev (String.rev s) = s.
Proof.
  induction s as [|x s IH]; [reflexivity |].
  by rewrite string_rev_cons, string_rev_snoc, IH.
Qed.

Lemma string_rev_append (a b : string) :
  String.rev (a +:+ b) = String.rev b +:+ String.rev a.
Proof.
  induction a as [|x a IH].
  - change (String.rev b = String.rev b +:+ EmptyString).
    by rewrite string_app_empty_r.
  - by rewrite string_app_cons, !string_rev_cons, IH, string_app_assoc.
Qed.

Lemma string_prefix_app (p a w : string) :
  String.prefix p a = true → String.prefix p (a +:+ w) = true.
Proof.
  revert a. induction p as [|x p IH]; intros a.
  - intros _. by destruct (a +:+ w).
  - destruct a as [|y a]; simpl; [done |].
    destruct (Ascii.ascii_dec x y); [apply IH | done].
Qed.

Lemma string_prefix_empty (p : string) :
  String.prefix p EmptyString = true → p = EmptyString.
Proof. by destruct p. Qed.

Section Strip.

Context (pats : list string) (Hne : EmptyString ∉ pats).

Lemma matchLength_clear (s : string) :
  match Js.matchLength pats s with
  | Some (S _) => ∃ p, p ∈ pats ∧ String.prefix p s = true
  | _ => ∀ p, p ∈ pats → String.prefix p s = false
  end.
Proof using Hne.
  unfold Js.matchLength.
  destruct (list_find _ pats) as [[i p]|] eqn:Hfind; simpl.
  - apply list_find_Some in Hfind as (Hlook & Hp & _).
    apply list_elem_of_lookup_2 in Hlook.
    destruct p as [|x p]; [done |]. simpl. by exists (String x p).
  - apply list_find_None in Hfind. rewrite Forall_forall in Hfind.
    intros p Hp. specialize (Hfind p Hp).
    by destruct (String.prefix p s).
Qed.

Lemma stripStart_fixed (s : string) :
  (∀ p, p ∈ pats → String.prefix p s = false) →
  Js.stripStart pats 0 s = s.
Proof using Hne.
  intros Hclear. destruct s as [|c rest]; [done |]. simpl.
  pose proof (matchLength_clear (String c rest)) as Hm.
  destruct (Js.matchLength pats (String c rest)) as [[|k]|]; try done.
  destruct Hm as (p & Hp & Hpre). rewrite (Hclear p Hp) in Hpre. done.
Qed.

Lemma stripStart_clear (skip : nat) (s : string) (p : string) :
  p ∈ pats → String.prefix p (Js.stripStart pats skip s) = false.
Proof using Hne.
  intros Hp. revert skip. induction s as [|c rest IH]; intros skip.
  - simpl. destruct (String.prefix p EmptyString) eqn:Hpre; [| done].
    apply string_prefix_empty in Hpre. by subst p.
  - cbn [Js.stripStart]. destruct skip as [|k]; [| apply IH].
    pose proof (matchLength_clear (String c rest)) as Hm.
    destruct (Js.matchLength pats (String c rest)) as [[|k]|];
      [by apply Hm | apply IH | by apply Hm].
Qed.

Lemma stripStart_suffix (skip : nat) (s : string) :
  ∃ u, s = u +:+ Js.stripStart pats skip s.
Proof.
  revert skip. induction s as [|c rest IH]; intros skip.
  - by exists EmptyString.
  - cbn [Js.stripStart].
    assert (∀ k, ∃ u, String c rest = u +:+ Js.stripStart pats k rest)
      as Hskip.
    { intros k. destruct (IH k) as [u Hu]. exists (String c u).
      by rewrite string_app_cons, <-Hu. }
    destruct skip as [|k]; [| apply Hskip].
    destruct (Js.matchLength pats (String c rest)) as [[|k]|];
      [by exists EmptyString | apply Hskip | by exists EmptyString].
Qed.

Lemma stripStart_idemp (s : string) :
  Js.stripStart pats 0 (Js.stripStart pats 0 s) = Js.stripStart pats 0 s.
Proof using Hne. apply stripStart_fixed. intros p. apply stripStart_clear. Qed.

End Strip.

Lemma whiteBytes_nonempty : EmptyString ∉ Js.whiteBytes.
Proof. by apply (bool_decide_unpack _). Qed.

Lemma whiteBytes_rev_nonempty : EmptyString ∉ String.rev <$> Js.whiteBytes.
Proof. by apply (bool_decide_unpack _). Qed.

Lemma trimEnd_prefix (s : string) : ∃ w, s = Js.trimEnd s +:+ w.
Proof.
  unfold Js.trimEnd.
  destruct (stripStart_suffix (String.rev <$> Js.whiteBytes) 0
              (String.rev s)) as [u Hu].
  exists (String.rev u).
  by rewrite <-string_rev_append, <-Hu, string_rev_involutive.
Qed.

Lemma trimEnd_idemp (s : string) : Js.trimEnd (Js.trimEnd s) = Js.trimEnd s.
Proof.
  unfold Js.trimEnd. rewrite string_rev_involutive.
  by rewrite (stripStart_idemp _ whiteBytes_rev_nonempty).
Qed.

(** Trimming is idempotent. *)
Lemma trim_idemp (s : string) : Js.trim (Js.trim s) = Js.trim s.
Proof.
  unfold Js.trim.
  assert (Js.trimStart (Js.trimEnd (Js.trimStart s))
          = Js.trimEnd (Js.trimStart s)) as ->; [| apply trimEnd_idemp].
  apply (stripStart_fixed _ whiteBytes_nonempty). intros p Hp.
  destruct (String.prefix p (Js.trimEnd (Js.trimStart s))) eqn:Hpre; [| done].
  destruct (trimEnd_prefix (Js.trimStart s)) as [w Hw].
  apply (string_prefix_app _ _ w) in Hpre. rewrite <-Hw in Hpre.
  unfold Js.trimStart in Hpre.
  by rewrite (stripStart_clear _ whiteBytes_nonempty) in Hpre.
Qed.

(** ** Registering aliases *)

Lemma pushAlias_fold (toLowerCase : string → string)
    (aliases : list string) (existing : gset string) (old : list string) :
  let st :=
    fold_left (Registry.pushAlias toLowerCase) aliases (existing, old) in
  existing = list_to_set (Registry.aliasKey toLowerCase <$> old) →
  ∃ added,
    st.2 = old ++ added
    ∧ Forall (λ a, Js.truthy a = true ∧ Js.trim a = a
                   ∧ ∃ b, b ∈ aliases ∧ a = Js.trim b) added
    ∧ (NoDup (Registry.aliasKey toLowerCase <$> old) →
       NoDup (Registry.aliasKey toLowerCase <$> st.2))
    ∧ (∀ b, b ∈ aliases → Js.truthy (Js.trim b) = true →
            Registry.aliasKey toLowerCase b
            ∈ Registry.aliasKey toLowerCase <$> st.2).
Proof.
  revert existing old.
  induction aliases as [|alias rest IH]; intros existing old; simpl.
  { intros _. exists []. rewrite app_nil_r. split_and!; try done.
    intros b Hb. by apply elem_of_nil in Hb. }
  intros Hex.
  assert (∀ added' st',
            st' = fold_left (Registry.pushAlias toLowerCase) rest
                    (list_to_set
                       (Registry.aliasKey toLowerCase <$> (old ++ added')),
                     old ++ added') →
            Forall (λ a, Js.truthy a = true ∧ Js.trim a = a
                         ∧ a = Js.trim alias) added' →
            (NoDup (Registry.aliasKey toLowerCase <$> old) →
             NoDup (Registry.aliasKey toLowerCase <$> (old ++ added'))) →
            (Js.truthy (Js.trim alias) = true →
             Registry.aliasKey toLowerCase alias
             ∈ Registry.aliasKey toLowerCase <$> (old ++ added')) →
            ∃ added,
              st'.2 = old ++ added
              ∧ Forall (λ a, Js.truthy a = true ∧ Js.trim a = a
                             ∧ ∃ b, b ∈ alias :: rest ∧ a = Js.trim b) added
              ∧ (NoDup (Registry.aliasKey toLowerCase <$> old) →
                 NoDup (Registry.aliasKey toLowerCase <$> st'.2))
              ∧ (∀ b, b ∈ alias :: rest → Js.truthy (Js.trim b) = true →
                      Registry.aliasKey toLowerCase b
                      ∈ Registry.aliasKey toLowerCase <$> st'.2))
    as Hstep.
  { intros added' st' -> Hadded Hnodup Hhere.
    destruct (IH _ (old ++ added') eq_refl)
      as (added & Heq & Hall & Hnd & Hin).
    exists (added' ++ added). rewrite Heq, app_assoc. split; [done |].
    split; [| split].
    - apply Forall_app. split.
      + eapply Forall_impl; [exact Hadded |].
        intros a (? & ? & ->). split_and!; try done.
        exists alias. split; [by left | done].
      + eapply Forall_impl; [exact Hall |].
        intros a (? & ? & b & ? & ->). split_and!; try done.
        exists b. split; [by right | done].
    - intros Hold. rewrite <-Heq. apply Hnd. by apply Hnodup.
    - intros b Hb Ht. rewrite <-Heq.
      apply elem_of_cons in Hb as [-> | Hb]; [| by apply Hin].
      rewrite Heq, fmap_app. apply elem_of_app. left. by apply Hhere. }
  destruct (Registry.pushAlias toLowerCase (existing, old) alias)
    as [ex1 old1] eqn:Hpush.
  unfold Registry.pushAlias in Hpush. simpl in Hpush.
  destruct (Js.truthy (Js.trim alias)) eqn:Htruthy; simpl in Hpush.
  2:{ injection Hpush as <- <-.
      apply (Hstep []); rewrite ?app_nil_r; try done. by rewrite Hex. }
  case_bool_decide as Hseen; injection Hpush as <- <-.
  - apply (Hstep []); rewrite ?app_nil_r; try done; [by rewrite Hex |].
    intros _. rewrite Hex in Hseen.
    by apply elem_of_list_to_set in Hseen.
  - assert (Registry.aliasKey toLowerCase (Js.trim alias)
            = Registry.aliasKey toLowerCase alias) as Hkey
      by (unfold Registry.aliasKey; by rewrite trim_idemp).
    apply (Hstep [Js.trim alias]).
    + rewrite fmap_app. simpl. rewrite Hkey, list_to_set_app_L. simpl.
      rewrite Hex, (right_id_L ∅ (∪)), (comm_L (∪)). done.
    + constructor; [| constructor].
      split_and!; [done | apply trim_idemp | done].
    + intros Hold. rewrite fmap_app. simpl. rewrite Hkey.
      apply NoDup_app. split; [done |]. split; [| apply NoDup_singleton].
      intros x Hx Hx'. apply list_elem_of_singleton in Hx'. subst x.
      apply Hseen. rewrite Hex. by apply elem_of_list_to_set.
    + intros _. rewrite fmap_app. apply elem_of_app. right. simpl.
      rewrite Hkey. by constructor.
Qed.

(** X13.  [registerAlias] throws exactly when no command has the key.
    Otherwise only the first command with that key changes: its aliases are
    kept in place and order and the new ones are appended; each appended
    alias is the trimmed, non-blank form of a requested one; every requested
    alias that is not blank is present afterwards up to letter case and
    surrounding white space; and aliases that were distinct up to letter
    case and white space stay so (no duplicate is ever added). *)
Theorem register_alias_extends (toLowerCase : string → string)
    (commands : list Registry.ChatCommandDefinition) (k : string)
    (aliases : list string) :
  match Registry.registerAlias toLowerCase commands k aliases with
  | inl _ => ∀ c, c ∈ commands → Registry.key c ≠ k
  | inr commands' =>
      ∃ i c added,
        commands !! i = Some c
        ∧ Registry.key c = k
        ∧ (∀ j c', j < i → commands !! j = Some c' → Registry.key c' ≠ k)
        ∧ commands'
          = <[i := Registry.withAliases (Registry.textAliases c ++ added) c]>
              commands
        ∧ Forall (λ a, Js.truthy a = true ∧ Js.trim a = a
                       ∧ ∃ b, b ∈ aliases ∧ a = Js.trim b) added
        ∧ (NoDup (Registry.aliasKey toLowerCase <$> Registry.textAliases c) →
           NoDup (Registry.aliasKey toLowerCase
                  <$> (Registry.textAliases c ++ added)))
        ∧ (∀ b, b ∈ aliases → Js.truthy (Js.trim b) = true →
                Registry.aliasKey toLowerCase b
                ∈ Registry.aliasKey toLowerCase
                  <$> (Registry.textAliases c ++ added))
  end.
Proof.
  unfold Registry.registerAlias.
  destruct (list_find _ commands) as [[i c]|] eqn:Hfind.
  - apply list_find_Some in Hfind as (Hlook & Hkey & Hfirst).
    destruct (pushAlias_fold toLowerCase aliases
                (list_to_set
                   (Registry.aliasKey toLowerCase <$> Registry.textAliases c))
                (Registry.textAliases c) eq_refl)
      as (added & Heq & Hadded & Hnd & Hin).
    exists i, c, added. rewrite <-Heq. split_and!; try done.
    intros j c' Hj Hc'. by apply (Hfirst j).
  - apply list_find_None in Hfind. rewrite Forall_forall in Hfind. done.
Qed.

(** ** Defining a command *)

(** X14.  A command built by [defineChatCommand] has only trimmed,
    non-blank aliases.  When no scope is given, the scope it chooses passes
    the scope checks of [assertCommandRegistry] in every case but two: a
    native name that consists of white space only, and a command with
    neither a native name nor an alias; what is left to check is the
    leading slash of the aliases. *)
Theorem defined_command_scope_coherent
    (input : Registry.DefineChatCommandInput) :
  Registry.in_scope input = None →
  let c := Registry.defineChatCommand input in
  Forall (λ a, Js.truthy a = true ∧ Js.trim a = a) (Registry.textAliases c)
  ∧ (Registry.scopeCoherent c
     ↔ Forall (λ a, JsText.startsWith a "/" = true) (Registry.textAliases c)
       ∧ match Registry.in_nativeName input with
         | Some name =>
             if Js.truthy name then Js.truthy (Js.trim name) = true
             else Registry.textAliases c ≠ []
         | None => Registry.textAliases c ≠ []
         end).
Proof.
  intros Hscope c. split.
  - subst c. unfold Registry.defineChatCommand, JsText.filterTruthy. simpl.
    apply Forall_forall. intros a Ha.
    apply list_elem_of_filter in Ha as [Ht Ha].
    apply list_elem_of_fmap in Ha as (b & -> & _).
    split; [done | apply trim_idemp].
  - unfold Registry.scopeCoherent.
    set (aliases := Registry.textAliases c).
    assert (Registry.nativeName c = Registry.in_nativeName input) as ->
      by done.
    assert (Registry.scope c
            = if Js.truthy_opt (Registry.in_nativeName input)
              then (if bool_decide (0 < length aliases)
                    then Registry.both else Registry.native)
              else Registry.text) as ->.
    { subst c aliases. unfold Registry.defineChatCommand. simpl.
      by rewrite Hscope. }
    destruct (Registry.in_nativeName input) as [name|]; simpl.
    + destruct (Js.truthy name) eqn:Hname.
      * case_bool_decide as Hlen; [tauto |].
        destruct aliases; [tauto | simpl in Hlen; lia].
      * assert (Js.truthy (Js.trim name) = false) as ->.
        { unfold Js.truthy in Hname.
          apply negb_false_iff, bool_decide_eq_true in Hname.
          by subst name. }
        tauto.
    + tauto.
Qed.

Lemma defined_command_scope_coherent_witness :
  let input :=
    {| Registry.in_key := "think"; Registry.in_nativeName := Some "think";
       Registry.in_description := "Set thinking level.";
       Registry.in_acceptsArgs := Some true;
       Registry.in_textAlias := Some " /think ";
       Registry.in_textAliases := None; Registry.in_scope := None |} in
  Registry.textAliases (Registry.defineChatCommand input) = ["/think"]
  ∧ Registry.scope (Registry.defineChatCommand input) = Registry.both
  ∧ Registry.scopeCoherent (Registry.defineChatCommand input).
Proof.
  intros input. split; [reflexivity |]. split; [reflexivity |].
  apply (defined_command_scope_coherent input eq_refl).
  split; [| reflexivity]. by repeat constructor.
Defined.

(** * The chat command handlers *)

Section CommandFacts.

Import Commands.

Context (X : Externals).

Lemma infoHandlers_no_reply (handler : CommandHandler)
    (params : HandleCommandsParams) (allow : bool)
    (result : CommandHandlerResult) :
  handler ∈ infoHandlers X →
  isAuthorizedSender (command params) = false →
  handler params allow = Some result →
  reply result = None.
Proof.
  intros Hin Hauth. unfold infoHandlers in Hin.
  repeat (apply elem_of_cons in Hin as [-> | Hin]);
    [| | | | | by apply elem_of_nil in Hin].
  - unfold handleHelpCommand. rewrite Hauth.
    destruct allow; simpl; [| done]. case_bool_decide; simpl;
      first [done | by intros [= <-]].
  - unfold handleCommandsListCommand. rewrite Hauth.
    destruct allow; simpl; [| done]. case_bool_decide; simpl;
      first [done | by intros [= <-]].
  - unfold handleStatusCommand. rewrite Hauth.
    destruct allow; simpl; [| done].
    destruct (_ || _); simpl; first [done | by intros [= <-]].
  - unfold handleContextCommand. rewrite Hauth.
    destruct allow; simpl; [| done].
    destruct (_ && _); simpl; first [done | by intros [= <-]].
  - unfold handleWhoamiCommand. rewrite Hauth.
    destruct allow; simpl; [| done]. case_bool_decide; simpl;
      first [done | by intros [= <-]].
Qed.

Lemma firstResult_Some (handlers : list CommandHandler)
    (params : HandleCommandsParams) (allow : bool)
    (result : CommandHandlerResult) :
  firstResult handlers params allow = Some result →
  ∃ handler, handler ∈ handlers ∧ handler params allow = Some result.
Proof.
  induction handlers as [|h rest IH]; simpl; [done |].
  destruct (h params allow) as [r|] eqn:Hh.
  - intros [= <-]. exists h. split; [by left | done].
  - intros Hrest. destruct (IH Hrest) as (h' & ? & ?).
    exists h'. split; [by right | done].
Qed.

Lemma HANDLERS_split (handler : CommandHandler) :
  handler ∈ HANDLERS X →
  handler ∈ importedHandlers X ∨ handler ∈ infoHandlers X.
Proof.
  unfold HANDLERS, importedHandlers, infoHandlers. intros Hin.
  repeat (apply elem_of_cons in Hin as [-> | Hin]);
    try (by apply elem_of_nil in Hin);
    first [left; solve [repeat (first [by left | right])]
          |right; solve [repeat (first [by left | right])]].
Qed.

End CommandFacts.

(** X15.  None of the five information commands (/help, /commands, /status,
    /context, /whoami) answers a sender who is not authorized: whenever one
    of their handlers takes the message of such a sender, it stops the
    message without any reply. *)
Theorem info_commands_silent_for_unauthorized (X : Commands.Externals)
    (handler : Commands.CommandHandler)
    (params : Commands.HandleCommandsParams) (allow : bool)
    (result : Commands.CommandHandlerResult) :
  handler ∈ Commands.infoHandlers X →
  Commands.isAuthorizedSender (Commands.command params) = false →
  handler params allow = Some result →
  result = Commands.stopSilently.
Proof.
  intros Hin Hauth. unfold Commands.infoHandlers in Hin.
  repeat (apply elem_of_cons in Hin as [-> | Hin]);
    [| | | | | by apply elem_of_nil in Hin].
  - unfold Commands.handleHelpCommand. rewrite Hauth.
    destruct allow; simpl; [| done]. case_bool_decide; simpl; congruence.
  - unfold Commands.handleCommandsListCommand. rewrite Hauth.
    destruct allow; simpl; [| done]. case_bool_decide; simpl; congruence.
  - unfold Commands.handleStatusCommand. rewrite Hauth.
    destruct allow; simpl; [| done].
    destruct (_ || _); simpl; congruence.
  - unfold Commands.handleContextCommand. rewrite Hauth.
    destruct allow; simpl; [| done].
    destruct (_ && _); simpl; congruence.
  - unfold Commands.handleWhoamiCommand. rewrite Hauth.
    destruct allow; simpl; [| done]. case_bool_decide; simpl; congruence.
Qed.

Lemma info_commands_silent_for_unauthorized_witness :
  ∃ result,
    Commands.handleWhoamiCommand (CommandCases.message "/whoami" false) true
    = Some result
    ∧ result = Commands.stopSilently.
Proof.
  exists Commands.stopSilently. split; [reflexivity |].
  apply (info_commands_silent_for_unauthorized CommandCases.plain
           Commands.handleWhoamiCommand
           (CommandCases.message "/whoami" false) true).
  - unfold Commands.infoHandlers. do 4 right. by left.
  - reflexivity.
  - reflexivity.
Defined.

(** X16.  [handleCommands] never answers a sender who is not authorized on
    its own account: if none of the imported handlers replies to the
    message, the result carries no reply, whatever the command, the
    directives and the send policy. *)
Theorem unauthorized_sender_gets_no_reply (X : Commands.Externals)
    (params : Commands.HandleCommandsParams) :
  Commands.isAuthorizedSender (Commands.command params) = false →
  (∀ handler result,
     handler ∈ Commands.importedHandlers X →
     handler params (Commands.shouldHandleTextCommands X params)
     = Some result →
     Commands.reply result = None) →
  Commands.reply (Commands.handleCommands X params) = None.
Proof.
  intros Hauth Himported. unfold Commands.handleCommands.
  destruct (_ && _); [done |].
  destruct (Commands.firstResult _ _ _) as [result|] eqn:Hfirst.
  - apply firstResult_Some in Hfirst as (handler & Hin & Hrun).
    apply HANDLERS_split in Hin as [Hin | Hin].
    + by apply (Himported handler).
    + by apply (infoHandlers_no_reply X handler params
                  (Commands.shouldHandleTextCommands X params) result).
  - by case_bool_decide.
Qed.

Lemma unauthorized_sender_gets_no_reply_witness :
  Commands.handleCommands CommandCases.plain
    (CommandCases.message "/status" false)
  = Commands.stopSilently
  ∧ Commands.reply
      (Commands.handleCommands CommandCases.plain
         (CommandCases.message "/status" false)) = None.
Proof.
  split; [reflexivity |].
  apply unauthorized_sender_gets_no_reply; [reflexivity |].
  intros handler result Hin.
  unfold Commands.importedHandlers in Hin.
  repeat (apply elem_of_cons in Hin as [-> | Hin]);
    try (by apply elem_of_nil in Hin); discriminate.
Defined.

(** * Session entries *)

(** X17.  Merging a patch into an existing session entry keeps its identity
    and its clock: the session id changes only if the patch carries one (the
    random id is not used), the time stamp never goes back, neither behind
    the stored one nor behind the patch's nor behind the current time, a
    field named in the patch takes the patch's value, even an explicit
    [undefined], and every other field keeps its value. *)
Theorem merge_keeps_identity_and_clock {V : Type}
    (e : Sessions.SessionEntry V) (patch : Sessions.SessionPatch V)
    (randomUUID : string) (now : N) :
  let merged := Sessions.mergeSessionEntry (Some e) patch randomUUID now in
  Sessions.sessionId merged
  = Js.nullish (Sessions.patch_sessionId patch) (Sessions.sessionId e)
  ∧ (Sessions.updatedAt e ≤ Sessions.updatedAt merged)%N
  ∧ (Js.nullish (Sessions.patch_updatedAt patch) 0 ≤ Sessions.updatedAt merged)%N
  ∧ (now ≤ Sessions.updatedAt merged)%N
  ∧ ∀ name,
      Sessions.field name merged
      = match Sessions.patch_fields patch !! name with
        | Some v => v
        | None => Sessions.field name e
        end.
Proof.
  simpl. split_and!; try lia; [done |].
  intros name. unfold Sessions.field. simpl.
  rewrite lookup_union.
  destruct (Sessions.patch_fields patch !! name) as [v|];
    by destruct (Sessions.fields e !! name).
Qed.

(** X18.  Merging the same patch a second time changes nothing but the
    clock: the session id and all fields are those of the first merge, also
    when the first merge made up a random id, and the time stamp is the
    later of the first merge's and the current time. *)
Theorem merge_twice_moves_only_the_clock {V : Type}
    (existing : option (Sessions.SessionEntry V))
    (patch : Sessions.SessionPatch V) (uuid uuid' : string)
    (now now' : N) :
  let once := Sessions.mergeSessionEntry existing patch uuid now in
  let twice := Sessions.mergeSessionEntry (Some once) patch uuid' now' in
  Sessions.sessionId twice = Sessions.sessionId once
  ∧ Sessions.fields twice = Sessions.fields once
  ∧ Sessions.updatedAt twice = N.max (Sessions.updatedAt once) now'.
Proof.
  destruct existing as [e|]; simpl; split_and!.
  - by destruct (Sessions.patch_sessionId patch).
  - by rewrite (assoc (∪)), (idemp (∪)).
  - lia.
  - by destruct (Sessions.patch_sessionId patch).
  - apply (idemp (∪)).
  - lia.
Qed.

(** * Phone control *)

(** ** The order of code units *)

Lemma unitsLe_total (a b : list N) :
  Js.unitsLe a b = true ∨ Js.unitsLe b a = true.
Proof.
  revert b. induction a as [|x a IH]; intros b; [by left |].
  destruct b as [|y b]; [by right |]. simpl.
  destruct (decide (x = y)) as [-> | Hne].
  - rewrite !bool_decide_eq_true_2 by done. apply IH.
  - rewrite !(bool_decide_eq_false_2 (_ = _)) by done.
    rewrite !bool_decide_eq_true. lia.
Qed.

Lemma unitsLe_trans (a b c : list N) :
  Js.unitsLe a b = true → Js.unitsLe b c = true → Js.unitsLe a c = true.
Proof.
  revert b c. induction a as [|x a IH]; intros b c; [done |].
  destruct b as [|y b]; [done |]. destruct c as [|z c]; [done |]. simpl.
  repeat case_bool_decide; subst; try done; try lia.
  apply IH.
Qed.

#[local] Instance Js_le_total : Total Js.le.
Proof. intros a b. apply unitsLe_total. Qed.

#[local] Instance Js_le_trans : Transitive Js.le.
Proof. intros a b c. apply unitsLe_trans. Qed.

Section PhoneFacts.

Import PhoneControl.

Lemma uniqSorted_normSet (values : list string) :
  uniqSorted values = merge_sort Js.le (elements (normSet values)).
Proof. reflexivity. Qed.

Lemma list_to_set_uniqSorted (values : list string) :
  list_to_set (uniqSorted values) =@{gset string} normSet values.
Proof.
  rewrite uniqSorted_normSet. apply set_eq. intros x.
  rewrite elem_of_list_to_set, merge_sort_Permutation.
  apply elem_of_elements.
Qed.

Lemma normSet_clean (values : list string) : clean (normSet values).
Proof.
  intros x Hx. unfold normSet, JsText.filterTruthy in Hx.
  apply elem_of_list_to_set, list_elem_of_filter in Hx as [Ht Hx].
  apply list_elem_of_fmap in Hx as (y & -> & _).
  split; [done | apply trim_idemp].
Qed.

Lemma normSet_clean_list (values : list string) :
  clean (list_to_set values) → normSet values = list_to_set values.
Proof.
  intros Hclean. apply set_eq. intros x. unfold normSet, JsText.filterTruthy.
  rewrite !elem_of_list_to_set, list_elem_of_filter, list_elem_of_fmap.
  split.
  - intros (Ht & y & -> & Hy).
    destruct (Hclean y) as [_ Hy']; [by apply elem_of_list_to_set |].
    by rewrite Hy'.
  - intros Hx. destruct (Hclean x) as [Ht Htrim];
      [by apply elem_of_list_to_set |].
    split; [done |]. exists x. by rewrite Htrim.
Qed.

Lemma normSet_elements (X : gset string) :
  clean X → normSet (elements X) = X.
Proof.
  intros Hclean. rewrite normSet_clean_list; rewrite list_to_set_elements_L;
    done.
Qed.

Lemma normSet_uniqSorted (values : list string) :
  normSet (uniqSorted values) = normSet values.
Proof.
  rewrite normSet_clean_list; rewrite list_to_set_uniqSorted;
    [done | apply normSet_clean].
Qed.

Lemma uniqSorted_elements (X : gset string) :
  clean X → uniqSorted (elements X) = merge_sort Js.le (elements X).
Proof. intros Hclean. by rewrite uniqSorted_normSet, normSet_elements. Qed.

End PhoneFacts.

(** X19.  [uniqSorted] gives a canonical list: it is sorted in the order of
    code units and has no duplicates; it holds exactly the trimmed forms of
    the given values that are not blank; normalising a second time changes
    nothing; and two lists whose values have the same trimmed forms, in any
    order and with any repetitions, normalise to the same list. *)
Theorem uniq_sorted_canonical (values : list string) :
  StronglySorted Js.le (PhoneControl.uniqSorted values)
  ∧ NoDup (PhoneControl.uniqSorted values)
  ∧ (∀ x, x ∈ PhoneControl.uniqSorted values
          ↔ Js.truthy x = true ∧ ∃ y, y ∈ values ∧ x = Js.trim y)
  ∧ PhoneControl.uniqSorted (PhoneControl.uniqSorted values)
    = PhoneControl.uniqSorted values
  ∧ ∀ values',
      (∀ x, x ∈ Js.trim <$> values ↔ x ∈ Js.trim <$> values') →
      PhoneControl.uniqSorted values = PhoneControl.uniqSorted values'.
Proof.
  split_and!.
  - apply (StronglySorted_merge_sort _).
  - unfold PhoneControl.uniqSorted. rewrite merge_sort_Permutation.
    apply NoDup_elements.
  - intros x. unfold PhoneControl.uniqSorted, JsText.filterTruthy.
    rewrite merge_sort_Permutation, elem_of_elements, elem_of_list_to_set,
      list_elem_of_filter, list_elem_of_fmap.
    split; intros (? & y & ? & ?); (split; [done |]); by exists y.
  - by rewrite (uniqSorted_normSet (PhoneControl.uniqSorted values)),
      normSet_uniqSorted.
  - intros values' Hsame. rewrite !uniqSorted_normSet. f_equal. f_equal.
    apply set_eq. intros x. unfold PhoneControl.normSet, JsText.filterTruthy.
    rewrite !elem_of_list_to_set, !list_elem_of_filter. by rewrite Hsame.
Qed.

(** ** Arming and disarming *)

Section ArmDisarm.

Import PhoneControl.

#[local] Set Warnings "-clear-no-such-hyp".

Lemma armStep_fold (commands : list string) (A D : gset string)
    (added rfd : list string) :
  let st := fold_left armStep commands ((A, D), (added, rfd)) in
  let C : gset string := list_to_set commands in
  st.1.1 = A ∪ C
  ∧ st.1.2 = D ∖ C
  ∧ list_to_set st.2.1 =@{gset string} list_to_set added ∪ (C ∖ A)
  ∧ list_to_set st.2.2 =@{gset string} list_to_set rfd ∪ (C ∩ D).
Proof.
  cbv zeta. revert A D added rfd.
  induction commands as [|c commands IH]; intros A D added rfd.
  { cbn [fold_left fst snd]. rewrite list_to_set_nil.
    split_and!; set_solver. }
  cbn [fold_left]. rewrite list_to_set_cons.
  assert (armStep (A, D, (added, rfd)) c
          = ((if bool_decide (c ∈ A) then A else {[c]} ∪ A,
              if bool_decide (c ∈ D) then D ∖ {[c]} else D),
             (if bool_decide (c ∈ A) then added else added ++ [c],
              if bool_decide (c ∈ D) then rfd ++ [c] else rfd))) as ->.
  { unfold armStep. cbn [fst snd]. by do 2 case_bool_decide. }
  do 2 case_bool_decide;
    match goal with
    | |- context [fold_left armStep commands ((?a, ?d), (?x, ?y))] =>
        destruct (IH a d x y) as (-> & -> & -> & ->)
    end;
    rewrite ?list_to_set_app_L, ?list_to_set_cons, ?list_to_set_nil;
    split_and!; apply set_eq; intros x;
    destruct (decide (x = c)) as [-> | Hne]; set_unfold;
      intuition congruence.
Qed.

Lemma removeAllowed_fold (added : list string) (A : gset string)
    (removed : list string) :
  let st := fold_left removeAllowed added (A, removed) in
  st.1 = A ∖ list_to_set added
  ∧ list_to_set st.2
    =@{gset string} list_to_set removed ∪ (list_to_set added ∩ A).
Proof.
  cbv zeta. revert A removed.
  induction added as [|c added IH]; intros A removed.
  { cbn [fold_left fst snd]. rewrite list_to_set_nil. split; set_solver. }
  cbn [fold_left]. rewrite list_to_set_cons.
  assert (removeAllowed (A, removed) c
          = if bool_decide (c ∈ A) then (A ∖ {[c]}, removed ++ [c])
            else (A, removed)) as -> by done.
  case_bool_decide.
  - destruct (IH (A ∖ {[c]}) (removed ++ [c])) as [-> ->].
    rewrite list_to_set_app_L, list_to_set_cons, list_to_set_nil.
    split; apply set_eq; intros x;
      destruct (decide (x = c)) as [-> | Hne]; set_unfold;
      intuition congruence.
  - destruct (IH A removed) as [-> ->].
    split; apply set_eq; intros x;
      destruct (decide (x = c)) as [-> | Hne]; set_unfold;
      intuition congruence.
Qed.

Lemma restoreDenied_fold (rfd : list string) (D : gset string)
    (restored : list string) :
  let st := fold_left restoreDenied rfd (D, restored) in
  st.1 = D ∪ list_to_set rfd
  ∧ list_to_set st.2
    =@{gset string} list_to_set restored ∪ (list_to_set rfd ∖ D).
Proof.
  cbv zeta. revert D restored.
  induction rfd as [|c rfd IH]; intros D restored.
  { cbn [fold_left fst snd]. rewrite list_to_set_nil. split; set_solver. }
  cbn [fold_left]. rewrite list_to_set_cons.
  assert (restoreDenied (D, restored) c
          = if bool_decide (c ∈ D) then (D, restored)
            else ({[c]} ∪ D, restored ++ [c])) as -> by done.
  case_bool_decide.
  - destruct (IH D restored) as [-> ->].
    split; apply set_eq; intros x;
      destruct (decide (x = c)) as [-> | Hne]; set_unfold;
      intuition congruence.
  - destruct (IH ({[c]} ∪ D) (restored ++ [c])) as [-> ->].
    rewrite list_to_set_app_L, list_to_set_cons, list_to_set_nil.
    split; apply set_eq; intros x;
      destruct (decide (x = c)) as [-> | Hne]; set_unfold;
      intuition congruence.
Qed.

Lemma list_to_set_nonempty (l : list string) :
  0 < length l ↔ list_to_set l ≠@{gset string} ∅.
Proof.
  destruct l as [|x l]; simpl.
  - split; [lia | done].
  - split; [| lia]. intros _ Hempty.
    assert (x ∈@{gset string} ∅) as Hx;
      [| by apply not_elem_of_empty in Hx].
    rewrite <-Hempty. apply elem_of_union_l. by apply elem_of_singleton.
Qed.

Lemma clean_subseteq (X Y : gset string) : clean Y → X ⊆ Y → clean X.
Proof. intros Hclean Hsub x Hx. apply Hclean. by apply Hsub. Qed.

Lemma clean_union (X Y : gset string) : clean X → clean Y → clean (X ∪ Y).
Proof.
  intros HX HY x Hx. apply elem_of_union in Hx as [? | ?]; auto.
Qed.

Lemma allowSet_normalize (cfg : Config) :
  list_to_set (normalizeAllowList cfg) = allowSet cfg.
Proof. apply list_to_set_uniqSorted. Qed.

Lemma denySet_normalize (cfg : Config) :
  list_to_set (normalizeDenyList cfg) = denySet cfg.
Proof. apply list_to_set_uniqSorted. Qed.

Lemma commands_clean (group : ArmGroup) :
  clean (list_to_set (resolveCommandsForGroup group)).
Proof.
  unfold resolveCommandsForGroup.
  case_bool_decide; rewrite list_to_set_uniqSorted; apply normSet_clean.
Qed.

(** What arming leaves in the two files. *)
Lemma armNow_spec (group : ArmGroup) (duration : option string) (now : N)
    (w : World) :
  let armed := (armNow group duration now w).2 in
  let A := allowSet (config w) in
  let D := denySet (config w) in
  let C : gset string := list_to_set (resolveCommandsForGroup group) in
  ∃ commands added rfd,
    armState armed
    = Some (ArmStateFileV2 now
              (jsonNumber
                 (plus now (Js.nullish (parseDurationMs duration)
                              (finite (10 * 60000)))))
              group commands added rfd)
    ∧ list_to_set added = C ∖ A
    ∧ list_to_set rfd = C ∩ D
    ∧ allowCommands (config armed) = Some (uniqSorted (elements (A ∪ C)))
    ∧ denyCommands (config armed) = Some (uniqSorted (elements (D ∖ C))).
Proof.
  cbv zeta. unfold armNow. cbn [snd config armState].
  rewrite allowSet_normalize, denySet_normalize.
  pose proof (armStep_fold (resolveCommandsForGroup group)
                (allowSet (config w)) (denySet (config w)) [] [])
    as (H1 & H2 & H3 & H4).
  cbv zeta in H1, H2, H3, H4.
  rewrite list_to_set_nil, (left_id_L ∅ (∪)) in H3, H4.
  eexists _, _, _. split; [reflexivity |].
  pose proof (commands_clean group) as Hclean.
  rewrite !list_to_set_uniqSorted, H1, H2.
  rewrite !normSet_clean_list; rewrite ?H3, ?H4; try done.
  - eapply clean_subseteq; [exact Hclean | set_solver].
  - eapply clean_subseteq; [exact Hclean | set_solver].
Qed.

(** What disarming leaves, for a state of version 2 whose recorded names
    are clean. *)
Lemma disarmNow_spec (w : World) (armedAt : N) (expires : option N)
    (group : ArmGroup) (commands added rfd : list string) :
  armState w = Some (ArmStateFileV2 armedAt expires group commands added rfd) →
  let A := allowSet (config w) in
  let D := denySet (config w) in
  let disarmed := (disarmNow w).2 in
  armState disarmed = None
  ∧ ((list_to_set added ∩ A ≠ ∅ ∨ list_to_set rfd ∖ D ≠ ∅) →
     allowCommands (config disarmed)
     = Some (uniqSorted (elements (A ∖ list_to_set added)))
     ∧ denyCommands (config disarmed)
       = Some (uniqSorted (elements (D ∪ list_to_set rfd))))
  ∧ (list_to_set added ∩ A = ∅ → list_to_set rfd ∖ D = ∅ →
     config disarmed = config w).
Proof.
  intros Hstate. cbv zeta. unfold disarmNow. rewrite Hstate.
  cbn [snd config armState removedFromDeny].
  rewrite allowSet_normalize, denySet_normalize.
  pose proof (removeAllowed_fold added (allowSet (config w)) [])
    as [HA Hremoved].
  pose proof (restoreDenied_fold rfd (denySet (config w)) [])
    as [HD Hrestored].
  cbv zeta in HA, Hremoved, HD, Hrestored.
  rewrite list_to_set_nil, (left_id_L ∅ (∪)) in Hremoved, Hrestored.
  set (allowed := fold_left removeAllowed added _) in *.
  set (denied := fold_left restoreDenied rfd _) in *.
  split; [done |].
  assert (bool_decide (0 < length allowed.2)
          || bool_decide (0 < length denied.2) = true
          ↔ list_to_set added ∩ allowSet (config w) ≠ ∅
            ∨ list_to_set rfd ∖ denySet (config w) ≠ ∅) as Hchanged.
  { rewrite orb_true_iff, !bool_decide_eq_true, !list_to_set_nonempty.
    by rewrite Hremoved, Hrestored. }
  destruct (bool_decide (0 < length allowed.2)
            || bool_decide (0 < length denied.2)) eqn:Hb.
  - split.
    + intros _. cbn [allowCommands denyCommands patchConfigNodeLists].
      by rewrite HA, HD.
    + intros H1 H2. destruct (proj1 Hchanged eq_refl); done.
  - split; [| done]. intros Hne. apply Hchanged in Hne. done.
Qed.

Lemma sets_back_allow (A C : gset string) : (A ∪ C) ∖ (C ∖ A) = A.
Proof.
  apply set_eq. intros x. destruct (decide (x ∈ A)); set_unfold; intuition.
Qed.

Lemma sets_back_deny (D C : gset string) : (D ∖ C) ∪ (C ∩ D) = D.
Proof.
  apply set_eq. intros x. destruct (decide (x ∈ C)); set_unfold; intuition.
Qed.

Lemma sets_same_allow (A C : gset string) :
  (C ∖ A) ∩ (A ∪ C) = ∅ → A ∪ C = A.
Proof.
  intros Hempty. apply set_eq. intros x.
  assert (x ∉ (C ∖ A) ∩ (A ∪ C)) as Hx
    by (rewrite Hempty; apply not_elem_of_empty).
  destruct (decide (x ∈ A)); set_unfold; intuition.
Qed.

Lemma sets_same_deny (D C : gset string) :
  (C ∩ D) ∖ (D ∖ C) = ∅ → D ∖ C = D.
Proof.
  intros Hempty. apply set_eq. intros x.
  assert (x ∉ (C ∩ D) ∖ (D ∖ C)) as Hx
    by (rewrite Hempty; apply not_elem_of_empty).
  destruct (decide (x ∈ C)); set_unfold; intuition.
Qed.

(** Arming and then disarming gives back the normalised lists. *)
Lemma arm_disarm_lists (group : ArmGroup) (duration : option string)
    (now : N) (w : World) :
  let armed := (armNow group duration now w).2 in
  let disarmed := (disarmNow armed).2 in
  allowCommands (config disarmed) = Some (normalizeAllowList (config w))
  ∧ denyCommands (config disarmed) = Some (normalizeDenyList (config w))
  ∧ armState disarmed = None.
Proof.
  cbv zeta.
  destruct (armNow_spec group duration now w)
    as (commands & added & rfd & Hstate & Hadded & Hrfd & Hallow & Hdeny).
  cbv zeta in Hstate, Hadded, Hrfd, Hallow, Hdeny.
  unfold normalizeAllowList, normalizeDenyList.
  rewrite !uniqSorted_normSet.
  fold (allowSet (config w)). fold (denySet (config w)).
  pose proof (normSet_clean (Js.nullish (allowCommands (config w)) []))
    as HcA. fold (allowSet (config w)) in HcA.
  pose proof (normSet_clean (Js.nullish (denyCommands (config w)) []))
    as HcD. fold (denySet (config w)) in HcD.
  pose proof (commands_clean group) as HcC.
  set (A := allowSet (config w)) in *.
  set (D := denySet (config w)) in *.
  set (C := list_to_set (resolveCommandsForGroup group) : gset string) in *.
  set (armed := (armNow group duration now w).2) in *.
  clearbody A D C armed.
  assert (allowSet (config armed) = A ∪ C) as HA1.
  { unfold allowSet. rewrite Hallow. cbn [Js.nullish].
    rewrite normSet_uniqSorted, normSet_elements; [done |].
    by apply clean_union. }
  assert (clean (D ∖ C)) as HcDC.
  { eapply clean_subseteq; [exact HcD |]. apply subseteq_difference_l.
    done. }
  assert (denySet (config armed) = D ∖ C) as HD1.
  { unfold denySet. rewrite Hdeny. cbn [Js.nullish].
    by rewrite normSet_uniqSorted, normSet_elements. }
  destruct (disarmNow_spec armed _ _ _ _ _ _ Hstate)
    as (Hnone & Hchanged & Hsame).
  cbv zeta in Hchanged, Hsame.
  rewrite HA1, HD1, Hadded, Hrfd in Hchanged, Hsame.
  rewrite sets_back_allow, sets_back_deny in Hchanged.
  split_and!; [| | done];
    (destruct (decide ((C ∖ A) ∩ (A ∪ C) = ∅ ∧ (C ∩ D) ∖ (D ∖ C) = ∅))
      as [[H1 H2] | Hne];
     [rewrite (Hsame H1 H2) | apply not_and_l in Hne]).
  - rewrite Hallow, (sets_same_allow A C H1). by rewrite uniqSorted_elements.
  - destruct Hchanged as [-> _]; [tauto |]. by rewrite uniqSorted_elements.
  - rewrite Hdeny, (sets_same_deny D C H2). by rewrite uniqSorted_elements.
  - destruct Hchanged as [_ ->]; [tauto |]. by rewrite uniqSorted_elements.
Qed.

End ArmDisarm.

Lemma elem_of_uniqSorted_elements (X : gset string) (x : string) :
  PhoneControl.clean X → x ∈ PhoneControl.uniqSorted (elements X) ↔ x ∈ X.
Proof.
  intros Hclean. rewrite uniqSorted_elements by done.
  rewrite merge_sort_Permutation. apply elem_of_elements.
Qed.

Lemma uniqSorted_idemp (values : list string) :
  PhoneControl.uniqSorted (PhoneControl.uniqSorted values)
  = PhoneControl.uniqSorted values.
Proof.
  by rewrite (uniqSorted_normSet (PhoneControl.uniqSorted values)),
    normSet_uniqSorted.
Qed.

(** Whole numbers up to 2^53 are Number values. *)
Lemma fl_exact (v : N) :
  (v ≤ 2 ^ 53)%N → PhoneControl.fl v = PhoneControl.finite v.
Proof.
  intros Hv. unfold PhoneControl.fl. case_bool_decide as Hlt; [done |].
  assert (v = 2 ^ 53)%N as -> by lia. reflexivity.
Qed.

(** X20.  Arming a group allows exactly that group on top of what was
    allowed: afterwards the allow list holds the (normalised) names that
    were allowed before and the commands of the group, and the deny list
    holds the names that were denied before except the commands of the
    group.  The state file records the expiry.  With the duration that
    [parseDurationMs] reads from the argument, ten minutes when it reads
    none, the expiry is the time of arming plus that duration whenever the
    sum is at most 2^53, where floating point is exact; when the duration
    has overflowed to [Infinity] no expiry is recorded at all; and in every
    case it is the sum as floating point rounds it, written to the file. *)
Theorem arming_allows_the_group (group : PhoneControl.ArmGroup)
    (duration : option string) (now : N) (w : PhoneControl.World) :
  let armed := (PhoneControl.armNow group duration now w).2 in
  let durationMs :=
    Js.nullish (PhoneControl.parseDurationMs duration)
      (PhoneControl.finite (10 * 60000)) in
  ∃ allow deny,
    PhoneControl.allowCommands (PhoneControl.config armed) = Some allow
    ∧ PhoneControl.denyCommands (PhoneControl.config armed) = Some deny
    ∧ (∀ x, x ∈ allow
            ↔ x ∈ PhoneControl.normalizeAllowList (PhoneControl.config w)
              ∨ x ∈ PhoneControl.resolveCommandsForGroup group)
    ∧ (∀ x, x ∈ deny
            ↔ x ∈ PhoneControl.normalizeDenyList (PhoneControl.config w)
              ∧ x ∉ PhoneControl.resolveCommandsForGroup group)
    ∧ (∀ d, durationMs = PhoneControl.finite d → (now + d ≤ 2 ^ 53)%N →
            PhoneControl.expiresAtMs <$> PhoneControl.armState armed
            = Some (Some (now + d)%N))
    ∧ (durationMs = PhoneControl.Infinity →
       PhoneControl.expiresAtMs <$> PhoneControl.armState armed
       = Some None)
    ∧ PhoneControl.expiresAtMs <$> PhoneControl.armState armed
      = Some (PhoneControl.jsonNumber (PhoneControl.plus now durationMs)).
Proof.
  cbv zeta.
  destruct (armNow_spec group duration now w)
    as (commands & added & rfd & Hstate & _ & _ & Hallow & Hdeny).
  cbv zeta in Hstate, Hallow, Hdeny.
  eexists _, _. split; [exact Hallow |]. split; [exact Hdeny |].
  pose proof (normSet_clean
                (Js.nullish (PhoneControl.allowCommands
                               (PhoneControl.config w)) [])) as HcA.
  pose proof (normSet_clean
                (Js.nullish (PhoneControl.denyCommands
                               (PhoneControl.config w)) [])) as HcD.
  pose proof (commands_clean group) as HcC.
  split_and!.
  - intros x. rewrite elem_of_uniqSorted_elements by (by apply clean_union).
    rewrite elem_of_union, <-allowSet_normalize, !elem_of_list_to_set. done.
  - intros x. rewrite elem_of_uniqSorted_elements.
    + rewrite elem_of_difference, <-denySet_normalize, !elem_of_list_to_set.
      done.
    + eapply clean_subseteq; [exact HcD |]. by apply subseteq_difference_l.
  - intros d Hd Hsum. rewrite Hstate, Hd. simpl.
    by rewrite (fl_exact _ Hsum).
  - intros Hd. by rewrite Hstate, Hd.
  - by rewrite Hstate.
Qed.

Lemma arming_allows_the_group_witness :
  let w :=
    {| PhoneControl.config :=
         {| PhoneControl.allowCommands := None;
            PhoneControl.denyCommands := Some ["camera.snap"] |};
       PhoneControl.armState := None |} in
  PhoneControl.parseDurationMs (Some "90s")
  = Some (PhoneControl.finite 90000)
  ∧ PhoneControl.expiresAtMs
    <$> PhoneControl.armState
          (PhoneControl.armNow PhoneControl.camera (Some "90s") 1000 w).2
    = Some (Some 91000%N).
Proof.
  intros w. split; [reflexivity |].
  destruct (arming_allows_the_group PhoneControl.camera (Some "90s") 1000 w)
    as (allow & deny & _ & _ & _ & _ & Hexpiry & _).
  apply (Hexpiry 90000%N); [reflexivity | vm_compute; discriminate].
Defined.

(** X21.  Arming and then disarming is a round trip on the configuration:
    whatever the lists and the state file held before, after [armNow]
    followed by [disarmNow] the allow list and the deny list are the
    normalised lists from before the arming and nothing is armed.  The
    expiry timer does the same by itself while the expiry, the time of
    arming plus the duration read by [parseDurationMs] (ten minutes when it
    reads none), is at most 2^53: a tick before the expiry changes nothing,
    a tick at or after it disarms.  When the duration has overflowed to
    [Infinity], no tick ever disarms.  In every case the timer goes by the
    expiry that the state file holds: the sum as floating point rounds it. *)
Theorem arm_then_disarm_restores (group : PhoneControl.ArmGroup)
    (duration : option string) (now : N) (w : PhoneControl.World) :
  let armed := (PhoneControl.armNow group duration now w).2 in
  let disarmed := (PhoneControl.disarmNow armed).2 in
  let durationMs :=
    Js.nullish (PhoneControl.parseDurationMs duration)
      (PhoneControl.finite (10 * 60000)) in
  PhoneControl.allowCommands (PhoneControl.config disarmed)
  = Some (PhoneControl.normalizeAllowList (PhoneControl.config w))
  ∧ PhoneControl.denyCommands (PhoneControl.config disarmed)
    = Some (PhoneControl.normalizeDenyList (PhoneControl.config w))
  ∧ PhoneControl.armState disarmed = None
  ∧ (∀ d t, durationMs = PhoneControl.finite d → (now + d ≤ 2 ^ 53)%N →
            PhoneControl.tick t armed
            = if bool_decide (t < now + d)%N then armed else disarmed)
  ∧ (durationMs = PhoneControl.Infinity →
     ∀ t, PhoneControl.tick t armed = armed)
  ∧ (∀ t, PhoneControl.tick t armed
          = match PhoneControl.jsonNumber (PhoneControl.plus now durationMs)
            with
            | Some e => if bool_decide (t < e)%N then armed else disarmed
            | None => armed
            end).
Proof.
  cbv zeta.
  destruct (arm_disarm_lists group duration now w) as (Ha & Hd & Hs).
  split_and!; [done | done | done | | |].
  - intros d t Hdur Hsum. unfold PhoneControl.tick, PhoneControl.armNow.
    cbn [snd PhoneControl.armState PhoneControl.expiresAtMs].
    rewrite Hdur. cbn [PhoneControl.plus].
    by rewrite (fl_exact _ Hsum).
  - intros Hdur t. unfold PhoneControl.tick, PhoneControl.armNow.
    cbn [snd PhoneControl.armState PhoneControl.expiresAtMs].
    by rewrite Hdur.
  - intros t. unfold PhoneControl.tick, PhoneControl.armNow.
    cbn [snd PhoneControl.armState PhoneControl.expiresAtMs].
    by destruct (PhoneControl.jsonNumber _).
Qed.

Lemma arm_then_disarm_restores_witness :
  let w :=
    {| PhoneControl.config :=
         {| PhoneControl.allowCommands := None;
            PhoneControl.denyCommands := Some ["camera.snap"] |};
       PhoneControl.armState := None |} in
  let armed :=
    (PhoneControl.armNow PhoneControl.camera (Some "90s") 1000 w).2 in
  PhoneControl.tick 90999 armed = armed
  ∧ PhoneControl.tick 91000 armed
    = {| PhoneControl.config :=
           {| PhoneControl.allowCommands := Some [];
              PhoneControl.denyCommands := Some ["camera.snap"] |};
         PhoneControl.armState := None |}.
Proof.
  intros w armed. subst armed.
  destruct (arm_then_disarm_restores PhoneControl.camera (Some "90s") 1000 w)
    as (_ & _ & _ & Htick & _).
  split.
  - rewrite (Htick 90000%N 90999%N);
      [reflexivity | reflexivity | vm_compute; discriminate].
  - rewrite (Htick 90000%N 91000%N);
      [vm_compute; reflexivity | reflexivity | vm_compute; discriminate].
Defined.

(** X22.  Arming again while armed forgets the first arming.  The second
    [armNow] overwrites the state file, so the next [disarmNow] undoes the
    second arming only: it leaves the configuration exactly as the first
    arming made it, with nothing armed any more.  The commands of the first
    group stay on the allow list although phone control reports
    "disarmed". *)
Theorem rearming_forgets_first_arming
    (group1 group2 : PhoneControl.ArmGroup)
    (duration1 duration2 : option string) (now1 now2 : N)
    (w : PhoneControl.World) :
  let first := (PhoneControl.armNow group1 duration1 now1 w).2 in
  let second := (PhoneControl.armNow group2 duration2 now2 first).2 in
  let disarmed := (PhoneControl.disarmNow second).2 in
  PhoneControl.config disarmed = PhoneControl.config first
  ∧ PhoneControl.armState disarmed = None
  ∧ ∀ x, x ∈ PhoneControl.resolveCommandsForGroup group1 →
         x ∈ Js.nullish
               (PhoneControl.allowCommands (PhoneControl.config disarmed)) [].
Proof.
  cbv zeta.
  set (first := (PhoneControl.armNow group1 duration1 now1 w).2).
  destruct (arm_disarm_lists group2 duration2 now2 first) as (Ha & Hd & Hs).
  destruct (armNow_spec group1 duration1 now1 w)
    as (commands & added & rfd & _ & _ & _ & Hallow & Hdeny).
  cbv zeta in Ha, Hd, Hs, Hallow, Hdeny. fold first in Hallow, Hdeny.
  unfold PhoneControl.normalizeAllowList in Ha.
  unfold PhoneControl.normalizeDenyList in Hd.
  rewrite Hallow in Ha. rewrite Hdeny in Hd.
  cbn [Js.nullish] in Ha, Hd. rewrite uniqSorted_idemp in Ha, Hd.
  assert (PhoneControl.config
            (PhoneControl.disarmNow
               (PhoneControl.armNow group2 duration2 now2 first).2).2
          = PhoneControl.config first) as Hcfg.
  { destruct (PhoneControl.config _) as [a d], (PhoneControl.config first)
      as [a' d']. simpl in *. congruence. }
  split_and!; try done.
  intros x Hx. rewrite Hcfg, Hallow. cbn [Js.nullish].
  pose proof (normSet_clean
                (Js.nullish (PhoneControl.allowCommands
                               (PhoneControl.config w)) [])) as HcA.
  rewrite elem_of_uniqSorted_elements.
  - apply elem_of_union_r. by apply elem_of_list_to_set.
  - apply clean_union; [exact HcA | apply commands_clean].
Qed.

(** ** Runs of the phone control handler *)

Example phone_arm_disarm_scenario :
  let w :=
    {| PhoneControl.config :=
         {| PhoneControl.allowCommands := Some [" b.cmd "; "a.cmd"; "a.cmd"];
            PhoneControl.denyCommands := Some ["camera.snap"; "zzz"] |};
       PhoneControl.armState := None |} in
  let armed := (PhoneControl.handler (Some "  ARM  Camera 90s ") 1000 w).2 in
  PhoneControl.config armed
  = {| PhoneControl.allowCommands :=
         Some ["a.cmd"; "b.cmd"; "camera.clip"; "camera.snap"];
       PhoneControl.denyCommands := Some ["zzz"] |}
  ∧ PhoneControl.expiresAtMs <$> PhoneControl.armState armed
    = Some (Some 91000%N)
  ∧ PhoneControl.handler (Some "disarm") 2000 armed
    = (Some ("Phone control: disarmed." +:+ Commands.newline
             +:+ "Removed allowlist: camera.clip, camera.snap"
             +:+ Commands.newline +:+ "Restored denylist: camera.snap"),
       {| PhoneControl.config :=
            {| PhoneControl.allowCommands := Some ["a.cmd"; "b.cmd"];
               PhoneControl.denyCommands := Some ["camera.snap"; "zzz"] |};
          PhoneControl.armState := None |}).
Proof. vm_compute. done. Qed.

Example phone_rearm_scenario :
  let w :=
    {| PhoneControl.config :=
         {| PhoneControl.allowCommands := None;
            PhoneControl.denyCommands := Some ["camera.snap"] |};
       PhoneControl.armState := None |} in
  let first := (PhoneControl.handler (Some "arm camera") 1000 w).2 in
  let second := (PhoneControl.handler (Some "arm camera 1h") 2000 first).2 in
  PhoneControl.handler (Some "disarm") 3000 second
  = (Some "Phone control: disarmed.",
     {| PhoneControl.config :=
          {| PhoneControl.allowCommands :=
               Some ["camera.clip"; "camera.snap"];
             PhoneControl.denyCommands := Some [] |};
        PhoneControl.armState := None |}).
Proof. vm_compute. done. Qed.

(** White space is the white space of Unicode: a no-break space and an
    ideographic space separate the words of the command and are trimmed from
    the names of the lists. *)
Example phone_unicode_space_scenario :
  let nbsp := Js.utf8 0xA0 in
  let wide := Js.utf8 0x3000 in
  let w :=
    {| PhoneControl.config :=
         {| PhoneControl.allowCommands := Some [nbsp +:+ "a.cmd" +:+ wide];
            PhoneControl.denyCommands := Some [wide; nbsp] |};
       PhoneControl.armState := None |} in
  PhoneControl.config
    (PhoneControl.handler (Some (nbsp +:+ "arm" +:+ wide +:+ "screen")) 0 w).2
  = {| PhoneControl.allowCommands := Some ["a.cmd"; "screen.record"];
       PhoneControl.denyCommands := Some [] |}.
Proof. vm_compute. done. Qed.

(** Names are sorted by code units: U+1F600, a surrogate pair, comes before
    U+FF5E. *)
Example code_unit_order_scenario :
  PhoneControl.uniqSorted [Js.utf8 0xFF5E; "b"; Js.utf8 0x1F600; " a "]
  = ["a"; "b"; Js.utf8 0x1F600; Js.utf8 0xFF5E].
Proof. vm_compute. done. Qed.

(** Durations are floating point numbers: above 2^53 the digits are rounded,
    and a duration that overflows leaves the state without an expiry, which
    no tick of the timer ever ends. *)
Example phone_duration_scenario :
  let w :=
    {| PhoneControl.config :=
         {| PhoneControl.allowCommands := None;
            PhoneControl.denyCommands := None |};
       PhoneControl.armState := None |} in
  let huge := String.concat EmptyString (replicate 310 "9") +:+ "d" in
  let large := String.concat EmptyString (replicate 302 "9") +:+ "d" in
  PhoneControl.parseDurationMs (Some "9007199254740993s")
  = Some (PhoneControl.finite 9007199254740992000)
  ∧ PhoneControl.parseDurationMs (Some huge) = None
  ∧ PhoneControl.parseDurationMs (Some large) = Some PhoneControl.Infinity
  ∧ PhoneControl.expiresAtMs
    <$> PhoneControl.armState
          (PhoneControl.armNow PhoneControl.camera (Some large) 1000 w).2
    = Some None
  ∧ (PhoneControl.armNow PhoneControl.camera (Some large) 1000 w).1
    = Some ("Phone control: armed for Infinityd." +:+ Commands.newline
            +:+ "Temporarily allowed: camera.clip, camera.snap"
            +:+ Commands.newline +:+ "To disarm early: /phone disarm").
Proof. vm_compute. done. Qed.

(** ** Runs of the registry functions *)

Example registry_scenario :
  let think :=
    Registry.defineChatCommand
      {| Registry.in_key := "think"; Registry.in_nativeName := Some "think";
         Registry.in_description := "Set thinking level.";
         Registry.in_acceptsArgs := Some true;
         Registry.in_textAlias := Some "/think";
         Registry.in_textAliases := None; Registry.in_scope := None |} in
  let shout :=
    Registry.defineChatCommand
      {| Registry.in_key := "shout"; Registry.in_nativeName := None;
         Registry.in_description := "Shout.";
         Registry.in_acceptsArgs := None;
         Registry.in_textAlias := Some "/THINK";
         Registry.in_textAliases := None; Registry.in_scope := None |} in
  Registry.registerAlias JsText.toLowerCase [think] "think"
    ["/thinking"; " /T "; "/Think"]
  = inr [Registry.withAliases ["/think"; "/thinking"; "/T"] think]
  ∧ Registry.registerAlias JsText.toLowerCase [think] "thnik" ["/t"]
    = inl "registerAlias: unknown command key: thnik"
  ∧ Registry.assertCommandRegistry JsText.toLowerCase [think] = inr ()
  ∧ Registry.assertCommandRegistry JsText.toLowerCase [think; shout]
    = inl "Duplicate command alias: /THINK".
Proof. vm_compute. done. Qed.

(** An alias padded with no-break spaces is trimmed like any other, and one
    that consists of them only is dropped. *)
Example registry_unicode_space_scenario :
  let nbsp := Js.utf8 0xA0 in
  Registry.textAliases
    (Registry.defineChatCommand
       {| Registry.in_key := "think"; Registry.in_nativeName := Some "think";
          Registry.in_description := "Set thinking level.";
          Registry.in_acceptsArgs := None;
          Registry.in_textAlias := None;
          Registry.in_textAliases := Some [nbsp +:+ "/think" +:+ nbsp; nbsp];
          Registry.in_scope := None |})
  = ["/think"].
Proof. vm_compute. done. Qed.
